(** * AGV picking server: planner, shelf registry, task store, robot registry

    A shallow embedding of the server modules of the Webots simulation
    ([path_planner.py], [shelf_manager.py], [task_manager.py],
    [robot_manager.py]) and the properties checked against them.

    Conventions of the embedding:
    - Python [int] is [Z]; Python [float] is the kernel's binary64 [float];
      [x ** 2] and [x ** 0.5] are rendered by the correctly rounded product
      and square root (what [pow] answers wherever it is correctly rounded).
      [x ** 2] raises [OverflowError] when [x] is finite and its square is
      not; the heuristic is modelled where it returns, and a statement that
      promises a result of a call that evaluates it assumes coordinates
      small enough for it to return ([coords_bounded]).
    - The map file is taken after [json.load], with its values already of
      the types that [int()] and [float()] accept; what loading does on
      other files is not modelled.
    - A [dict] that is only looked up by key is a [gmap]; a [dict] whose
      iteration order is observed is an association list in insertion order.
    - A [set] is a [gset].
    - A method that mutates [self] returns the new object next to its result.
    - A [while] loop whose termination is not structural takes a [fuel]
      argument and answers [OutOfFuel] when it is exhausted. *)

From Stdlib Require Import ZArith Floats.PrimFloat Floats.SpecFloat Floats.FloatOps
  Floats.FloatAxioms.
From stdpp Require Import gmap strings list fin_maps pretty.

Open Scope Z_scope.

(** ** Results of calls *)

Inductive exception := KeyError | IndexError.

Inductive outcome (A : Type) :=
| Returned (a : A)
| Raised (e : exception)
| OutOfFuel.
Arguments Returned {A} a.
Arguments Raised {A} e.
Arguments OutOfFuel {A}.

Definition obind {A B} (o : outcome A) (k : A → outcome B) : outcome B :=
  match o with
  | Returned a => k a
  | Raised e => Raised e
  | OutOfFuel => OutOfFuel
  end.

Notation "x ← o ;;; k" := (obind o (λ x, k))
  (at level 20, o at level 100, k at level 200, right associativity,
   only parsing).

(** [d[key]] on a JSON object: a missing key raises [KeyError]. *)
Definition subscript {A} (field : option A) : outcome A :=
  match field with
  | Some a => Returned a
  | None => Raised KeyError
  end.

(** ** path_planner.py *)

Module PathPlanner.

(** The parsed [map.json]: [{nodes: [{id, x, y}], edges: [{from, to, cost}]}].
    A key that may be absent is an [option]; [id], [from] and [to] are read
    with [d[key]], the others with [d.get(key, default)]. *)
Record node_entry := { n_id : option Z; n_x : option float; n_y : option float }.
Record edge_entry := { e_from : option Z; e_to : option Z; e_cost : option float }.
Record map_data := {
  data_nodes : option (list node_entry);
  data_edges : option (list edge_entry)
}.

Record t := {
  nodes : gmap Z (float * float);
  graph : gmap Z (list (Z * float))
}.

(** [{int(n["id"]): (float(n.get("x", 0.0)), float(n.get("y", 0.0))) for n in ...}] *)
Fixpoint load_nodes (ns : list node_entry) (acc : gmap Z (float * float))
  : outcome (gmap Z (float * float)) :=
  match ns with
  | [] => Returned acc
  | n :: ns' =>
      id ← subscript (n_id n) ;;;
      load_nodes ns' (<[id := (default 0%float (n_x n), default 0%float (n_y n))]> acc)
  end.

(** [self.graph.setdefault(a, []).append((b, c))] for every edge. *)
Fixpoint load_edges (es : list edge_entry) (g : gmap Z (list (Z * float)))
  : outcome (gmap Z (list (Z * float))) :=
  match es with
  | [] => Returned g
  | e :: es' =>
      a ← subscript (e_from e) ;;;
      b ← subscript (e_to e) ;;;
      let c := default 1%float (e_cost e) in
      load_edges es' (<[a := default [] (g !! a) ++ [(b, c)]]> g)
  end.

Definition _load_map (data : map_data) : outcome t :=
  node_entries ← subscript (data_nodes data) ;;;
  ns ← load_nodes node_entries ∅ ;;;
  edge_entries ← subscript (data_edges data) ;;;
  g ← load_edges edge_entries ((λ _, []) <$> ns) ;;;
  Returned {| nodes := ns; graph := g |}.

Definition _heuristic (self : t) (a b : Z) : float :=
  let '(ax, ay) := default (0%float, 0%float) (nodes self !! a) in
  let '(bx, by_) := default (0%float, 0%float) (nodes self !! b) in
  let dx := (ax - bx)%float in
  let dy := (ay - by_)%float in
  sqrt (dx * dx + dy * dy)%float.

Definition is_valid_node (self : t) (node_id : Z) : bool :=
  bool_decide (is_Some (nodes self !! node_id)).

(** *** The open heap

    An entry is the tuple [(f, g, node, t)]; tuples are ordered as Python
    orders them: by the first component at which they differ. *)
Definition entry : Type := float * float * Z * Z.

Definition entry_lt (a b : entry) : bool :=
  let '(f1, g1, n1, t1) := a in
  let '(f2, g2, n2, t2) := b in
  if negb (f1 =? f2)%float then (f1 <? f2)%float
  else if negb (g1 =? g2)%float then (g1 <? g2)%float
  else if negb (n1 =? n2) then n1 <? n2
  else t1 <? t2.

Definition heappush (heap : list entry) (item : entry) : list entry :=
  item :: heap.

(** [heapq.heappop]: removes and returns the smallest entry; [None] on the
    empty heap (the planner only pops under [while open_heap]). The library
    keeps the entries in an array-shaped binary heap; what the planner
    observes is this contract, and [heappush] only has to add the entry. *)
Fixpoint heappop (heap : list entry) : option (entry * list entry) :=
  match heap with
  | [] => None
  | x :: heap' =>
      match heappop heap' with
      | None => Some (x, [])
      | Some (y, rest) =>
          if entry_lt y x then Some (y, x :: rest) else Some (x, heap')
      end
  end.

(** *** astar_with_time *)

Record search := {
  open_heap : list entry;
  came_from : gmap (Z * Z) (Z * Z);
  g_score : gmap (Z * Z) float
}.

(** [while cur in came_from]: the path is rebuilt from the goal state back
    along [came_from] and reversed at the end. *)
Fixpoint reconstruct (fuel : nat) (cf : gmap (Z * Z) (Z * Z))
    (cur : Z * Z) (path : list (Z * Z)) : outcome (list (Z * Z)) :=
  match cf !! cur with
  | None => Returned (rev path)
  | Some prev =>
      match fuel with
      | O => OutOfFuel
      | S fuel' => reconstruct fuel' cf prev (path ++ [prev])
      end
  end.

Section astar.
Variable self : t.
Variables start goal : Z.
Variable reserved_nodes : gset (Z * Z).
Variable reserved_edges : gset (Z * Z * Z).
Variable max_time : Z.

(** [[(cur_node, 1.0)] + graph.get(cur_node, [])] *)
Definition neighbors (cur_node : Z) : list (Z * float) :=
  (cur_node, 1%float) :: default [] (graph self !! cur_node).

(** The body of [for nxt_node, step_cost in neighbors]. *)
Definition relax (cur_node t : Z) (g : float) (s : search)
    (nb : Z * float) : search :=
  let '(nxt_node, step_cost) := nb in
  let nt := t + 1 in
  let next_state := (nxt_node, nt) in
  if bool_decide ((nxt_node, nt) ∈ reserved_nodes) then s
  else if negb (nxt_node =? cur_node)
          && bool_decide ((nxt_node, cur_node, t) ∈ reserved_edges) then s
  else
    let tentative_g := (g + step_cost)%float in
    if (tentative_g <? default infinity (g_score s !! next_state))%float then
      {| g_score := <[next_state := tentative_g]> (g_score s);
         came_from := <[next_state := (cur_node, t)]> (came_from s);
         open_heap :=
           heappush (open_heap s)
             ((tentative_g + _heuristic self nxt_node goal)%float,
              tentative_g, nxt_node, nt) |}
    else s.

Fixpoint astar_loop (fuel : nat) (s : search)
  : outcome (option (list (Z * Z))) :=
  match fuel with
  | O => OutOfFuel
  | S fuel' =>
      match heappop (open_heap s) with
      | None => Returned None
      | Some ((f, g, cur_node, t), rest) =>
          let s := {| open_heap := rest; came_from := came_from s;
                      g_score := g_score s |} in
          if cur_node =? goal then
            path ← reconstruct fuel' (came_from s) (cur_node, t) [(cur_node, t)] ;;;
            Returned (Some path)
          else if t >=? max_time then astar_loop fuel' s
          else astar_loop fuel' (fold_left (relax cur_node t g) (neighbors cur_node) s)
      end
  end.

Definition astar_with_time (fuel : nat) : outcome (option (list (Z * Z))) :=
  let start_state := (start, 0) in
  astar_loop fuel
    {| open_heap := heappush [] (_heuristic self start goal, 0%float, start, 0);
       came_from := ∅;
       g_score := {[ start_state := 0%float ]} |}.
End astar.

Definition plan_single_robot (self : t) (start goal max_time : Z) (fuel : nat)
  : outcome (option (list (Z * Z))) :=
  astar_with_time self start goal ∅ ∅ max_time fuel.

(** *** prioritized_planning *)

(** [for i in range(len(path))]: reserve every state of the path and every
    true move between two consecutive states. *)
Fixpoint reserve_path (path : list (Z * Z))
    (reserved_nodes : gset (Z * Z)) (reserved_edges : gset (Z * Z * Z))
  : gset (Z * Z) * gset (Z * Z * Z) :=
  match path with
  | [] => (reserved_nodes, reserved_edges)
  | (node_i, t_i) :: rest =>
      let reserved_nodes := {[ (node_i, t_i) ]} ∪ reserved_nodes in
      let reserved_edges :=
        match rest with
        | (node_j, t_j) :: _ =>
            if negb (node_j =? node_i)
            then {[ (node_i, node_j, t_i) ]} ∪ reserved_edges
            else reserved_edges
        | [] => reserved_edges
        end in
      reserve_path rest reserved_nodes reserved_edges
  end.

(** [for dt in range(1, stay_time_at_goal + 1)] *)
Definition reserve_goal (goal_node goal_t stay_time_at_goal : Z)
    (reserved_nodes : gset (Z * Z)) : gset (Z * Z) :=
  fold_left (λ rn dt, {[ (goal_node, goal_t + dt) ]} ∪ rn)
    (seqZ 1 stay_time_at_goal) reserved_nodes.

Section prioritized.
Variable self : t.
Variables starts goals : list Z.
Variable max_time : Z.
Variable stay_time_at_goal : Z.
Variable fuel : nat.

(** The body of [for rid in range(num_robots)], over the remaining robot
    ids; [paths] is the list [[None] * num_robots] filled in by index. *)
Fixpoint plan_robots (rids : list nat)
    (reserved_nodes : gset (Z * Z)) (reserved_edges : gset (Z * Z * Z))
    (paths : list (option (list (Z * Z))))
  : outcome (option (list (list (Z * Z)))) :=
  match rids with
  | [] => Returned (Some (omap id paths))
  | rid :: rids' =>
      start ← match starts !! rid with Some x => Returned x | None => Raised IndexError end ;;;
      goal ← match goals !! rid with Some x => Returned x | None => Raised IndexError end ;;;
      found ← astar_with_time self start goal reserved_nodes reserved_edges
                max_time fuel ;;;
      match found with
      | None => Returned None
      | Some path =>
          let '(reserved_nodes, reserved_edges) :=
            reserve_path path reserved_nodes reserved_edges in
          match last path with
          | None => Raised IndexError
          | Some (goal_node, goal_t) =>
              let reserved_nodes :=
                reserve_goal goal_node goal_t stay_time_at_goal reserved_nodes in
              plan_robots rids' reserved_nodes reserved_edges
                (<[rid := Some path]> paths)
          end
      end
  end.

Definition prioritized_planning : outcome (option (list (list (Z * Z)))) :=
  let num_robots := length starts in
  plan_robots (seq 0 num_robots) ∅ ∅ (replicate num_robots None).
End prioritized.

(** *** compress_to_node_path *)

Fixpoint compress_from (last : option Z) (timed_path : list (Z * Z)) : list Z :=
  match timed_path with
  | [] => []
  | (node, _t) :: rest =>
      match last with
      | Some l =>
          if negb (node =? l) then node :: compress_from (Some node) rest
          else compress_from last rest
      | None => node :: compress_from (Some node) rest
      end
  end.

Definition compress_to_node_path (timed_path : list (Z * Z)) : list Z :=
  compress_from None timed_path.

End PathPlanner.

(** ** shelf_manager.py *)

Inductive ShelfStatus := IN_PLACE | CARRIED | AT_WORKSTATION.

#[global] Instance ShelfStatus_eq_dec : EqDecision ShelfStatus.
Proof. solve_decision. Defined.

Module Shelf.
Record t := {
  shelf_id : Z;
  label : string;
  items : list string;
  home_node : Z;
  current_node : Z;
  status : ShelfStatus;
  carried_by : option Z
}.
End Shelf.

Module ShelfManager.

Record t := {
  shelves : gmap Z Shelf.t;
  item_to_shelf : gmap string Z;
  all_shelf_nodes : gset Z
}.

(** One entry of the ["shelves"] object of [shelf_config.json]. *)
Record shelf_info := { info_label : option string; info_items : option (list string) }.

Definition empty : t :=
  {| shelves := ∅; item_to_shelf := ∅; all_shelf_nodes := ∅ |}.

(** The body of the loop of [_load_config] over the configured shelves. *)
Definition load_shelf (self : t) (entry : Z * shelf_info) : t :=
  let '(shelf_id, info) := entry in
  let shelf :=
    {| Shelf.shelf_id := shelf_id;
       Shelf.label := default ("S" +:+ pretty shelf_id) (info_label info);
       Shelf.items := default [] (info_items info);
       Shelf.home_node := shelf_id;
       Shelf.current_node := shelf_id;
       Shelf.status := IN_PLACE;
       Shelf.carried_by := None |} in
  {| shelves := <[shelf_id := shelf]> (shelves self);
     all_shelf_nodes := {[ shelf_id ]} ∪ all_shelf_nodes self;
     item_to_shelf :=
       fold_left (λ m item, <[item := shelf_id]> m) (Shelf.items shelf)
         (item_to_shelf self) |}.

(** [_load_config]: [None] stands for a missing file, which leaves the
    registry empty. The [workstations] table, which nothing reads, is left
    out. *)
Definition _load_config (data : option (list (Z * shelf_info))) : t :=
  match data with
  | Some entries => fold_left load_shelf entries empty
  | None => empty
  end.

Definition get_shelf (self : t) (shelf_id : Z) : option Shelf.t :=
  shelves self !! shelf_id.

(** [result[shelf_id].append(item)], creating the entry at the end of the
    dict when the key is new. *)
Fixpoint result_append (result : list (Z * list string)) (shelf_id : Z)
    (item : string) : list (Z * list string) :=
  match result with
  | [] => [(shelf_id, [item])]
  | (k, its) :: result' =>
      if k =? shelf_id then (k, its ++ [item]) :: result'
      else (k, its) :: result_append result' shelf_id item
  end.

(** The body of [for item in items]: an item on no shelf is skipped with a
    printed warning. *)
Definition collect (self : t) (result : list (Z * list string)) (item : string)
  : list (Z * list string) :=
  match item_to_shelf self !! item with
  | Some shelf_id => result_append result shelf_id item
  | None => result
  end.

(** The returned dict, in insertion order. *)
Definition find_shelves_for_items (self : t) (items : list string)
  : list (Z * list string) :=
  fold_left (collect self) items [].

Definition mark_shelf_picked_up (self : t) (shelf_id robot_id : Z) : bool * t :=
  match shelves self !! shelf_id with
  | None => (false, self)
  | Some shelf =>
      let shelf :=
        {| Shelf.shelf_id := Shelf.shelf_id shelf;
           Shelf.label := Shelf.label shelf;
           Shelf.items := Shelf.items shelf;
           Shelf.home_node := Shelf.home_node shelf;
           Shelf.current_node := Shelf.current_node shelf;
           Shelf.status := CARRIED;
           Shelf.carried_by := Some robot_id |} in
      (true,
       {| shelves := <[shelf_id := shelf]> (shelves self);
          item_to_shelf := item_to_shelf self;
          all_shelf_nodes := all_shelf_nodes self |})
  end.

Definition mark_shelf_at_workstation (self : t) (shelf_id ws_node : Z) : bool * t :=
  match shelves self !! shelf_id with
  | None => (false, self)
  | Some shelf =>
      let shelf :=
        {| Shelf.shelf_id := Shelf.shelf_id shelf;
           Shelf.label := Shelf.label shelf;
           Shelf.items := Shelf.items shelf;
           Shelf.home_node := Shelf.home_node shelf;
           Shelf.current_node := ws_node;
           Shelf.status := AT_WORKSTATION;
           Shelf.carried_by := Shelf.carried_by shelf |} in
      (true,
       {| shelves := <[shelf_id := shelf]> (shelves self);
          item_to_shelf := item_to_shelf self;
          all_shelf_nodes := all_shelf_nodes self |})
  end.

Definition mark_shelf_returned (self : t) (shelf_id return_node : Z) : bool * t :=
  match shelves self !! shelf_id with
  | None => (false, self)
  | Some shelf =>
      let shelf :=
        {| Shelf.shelf_id := Shelf.shelf_id shelf;
           Shelf.label := Shelf.label shelf;
           Shelf.items := Shelf.items shelf;
           Shelf.home_node := Shelf.home_node shelf;
           Shelf.current_node := return_node;
           Shelf.status := IN_PLACE;
           Shelf.carried_by := None |} in
      (true,
       {| shelves := <[shelf_id := shelf]> (shelves self);
          item_to_shelf := item_to_shelf self;
          all_shelf_nodes := all_shelf_nodes self |})
  end.

Definition get_empty_shelf_positions (self : t) : list Z :=
  let occupied : gset Z :=
    map_fold (λ _ shelf occ,
                match Shelf.status shelf with
                | IN_PLACE => {[ Shelf.current_node shelf ]} ∪ occ
                | _ => occ
                end) ∅ (shelves self) in
  filter (λ node, node ∉ occupied) (elements (all_shelf_nodes self)).

Definition find_nearest_empty_position (self : t) (from_node : Z)
    (path_planner : PathPlanner.t) : option Z :=
  fst (fold_left
         (λ '(best_node, best_dist) node,
            let dist := PathPlanner._heuristic path_planner from_node node in
            if (dist <? best_dist)%float then (Some node, dist)
            else (best_node, best_dist))
         (get_empty_shelf_positions self) (None, infinity)).

Definition get_shelf_by_item (self : t) (item : string) : option Shelf.t :=
  match item_to_shelf self !! item with
  | Some shelf_id => shelves self !! shelf_id
  | None => None
  end.

(** [self.all_shelf_nodes.copy()] *)
Definition get_all_shelf_nodes (self : t) : gset Z := all_shelf_nodes self.

(** [sum(1 for s in self.shelves.values() if s.status == status)] *)
Definition count_status (self : t) (status : ShelfStatus) : Z :=
  Z.of_nat (length (filter (λ s, Shelf.status s = status)
                      (map_to_list (shelves self)).*2)).

(** The counters of the dict returned by [get_status_summary] (its
    ["shelves"] listing left out). *)
Record summary := {
  total_shelves : Z;
  in_place : Z;
  carried : Z;
  at_workstation : Z
}.

Definition get_status_summary (self : t) : summary :=
  {| total_shelves := Z.of_nat (size (shelves self));
     in_place := count_status self IN_PLACE;
     carried := count_status self CARRIED;
     at_workstation := count_status self AT_WORKSTATION |}.

End ShelfManager.

(** ** task_manager.py *)

Inductive TaskStatus := PENDING | IN_PROGRESS | COMPLETED | FAILED.

Inductive SubTaskType :=
| GO_TO_SHELF | PICKUP_SHELF | DELIVER_TO_WS | WAIT_PICKING | RETURN_SHELF
| FORWARD_SHELF.

Module SubTask.
(** [shelf_id] is declared [Optional[int]] but every sub-task that is ever
    built carries a shelf id. *)
Record t := {
  subtask_id : string;
  subtask_type : SubTaskType;
  shelf_id : Z;
  target_node : Z;
  items_to_pick : list string;
  status : TaskStatus;
  assigned_robot : option Z
}.

Definition set_status (st : t) (s : TaskStatus) : t :=
  {| subtask_id := subtask_id st; subtask_type := subtask_type st;
     shelf_id := shelf_id st; target_node := target_node st;
     items_to_pick := items_to_pick st; status := s;
     assigned_robot := assigned_robot st |}.

Definition start (st : t) (robot_id : Z) : t :=
  {| subtask_id := subtask_id st; subtask_type := subtask_type st;
     shelf_id := shelf_id st; target_node := target_node st;
     items_to_pick := items_to_pick st; status := IN_PROGRESS;
     assigned_robot := Some robot_id |}.

Definition retarget (st : t) (ty : SubTaskType) (node : Z) : t :=
  {| subtask_id := subtask_id st; subtask_type := ty;
     shelf_id := shelf_id st; target_node := node;
     items_to_pick := items_to_pick st; status := status st;
     assigned_robot := assigned_robot st |}.
End SubTask.

Module PickingTask.
(** [current_subtask_idx] starts at 0 and is only ever incremented: it is a
    natural number. [created_at] (a wall-clock stamp) is never read. *)
Record t := {
  task_id : string;
  workstation_id : Z;
  items : list string;
  shelf_sequence : list Z;
  subtasks : list SubTask.t;
  current_subtask_idx : nat;
  status : TaskStatus;
  items_picked : list string;
  assigned_robot : option Z
}.

Definition get_current_subtask (self : t) : option SubTask.t :=
  subtasks self !! current_subtask_idx self.

Definition with_progress (self : t) (sts : list SubTask.t) (idx : nat) : t :=
  {| task_id := task_id self; workstation_id := workstation_id self;
     items := items self; shelf_sequence := shelf_sequence self;
     subtasks := sts; current_subtask_idx := idx; status := status self;
     items_picked := items_picked self;
     assigned_robot := assigned_robot self |}.

Definition with_items_picked (self : t) (picked : list string) : t :=
  {| task_id := task_id self; workstation_id := workstation_id self;
     items := items self; shelf_sequence := shelf_sequence self;
     subtasks := subtasks self;
     current_subtask_idx := current_subtask_idx self; status := status self;
     items_picked := picked; assigned_robot := assigned_robot self |}.

(** Returns the new current sub-task (already marked in progress) and the
    mutated task. *)
Definition advance_subtask (self : t) : option SubTask.t * t :=
  let idx := current_subtask_idx self in
  let sts :=
    if bool_decide (idx < length (subtasks self))%nat
    then alter (λ st, SubTask.set_status st COMPLETED) idx (subtasks self)
    else subtasks self in
  let idx := S idx in
  match sts !! idx with
  | Some nxt =>
      let nxt := SubTask.set_status nxt IN_PROGRESS in
      (Some nxt, with_progress self (<[idx := nxt]> sts) idx)
  | None => (None, with_progress self sts idx)
  end.

Definition is_complete (self : t) : bool :=
  bool_decide (length (subtasks self) ≤ current_subtask_idx self)%nat.

Definition with_status (self : t) (s : TaskStatus) (robot : option Z) : t :=
  {| task_id := task_id self; workstation_id := workstation_id self;
     items := items self; shelf_sequence := shelf_sequence self;
     subtasks := subtasks self;
     current_subtask_idx := current_subtask_idx self; status := s;
     items_picked := items_picked self; assigned_robot := robot |}.
End PickingTask.

Module TaskManager.

(** An entry of [shelf_demand[shelf_id]]. *)
Record demand := {
  d_task_id : string;
  d_workstation_id : Z;
  d_items : list string
}.

Record t := {
  shelf_manager : ShelfManager.t;
  path_planner : PathPlanner.t;
  tasks : gmap string PickingTask.t;
  shelf_demand : gmap Z (list demand)
}.

(** The dicts returned by [handle_item_picked] and
    [handle_subtask_complete], one constructor for each value of ["action"]
    (and of ["next_action"] under ["shelf_done"]). *)
Inductive response :=
| Error (message : string)
| ContinuePicking (remaining_items_on_shelf total_remaining : list string)
| ShelfDoneForward (forward_to_ws shelf_id : Z)
| ShelfDoneReturn (return_to shelf_id : Z)
| WaitPicking (items_to_pick : list string) (shelf_id : Z)
| TaskComplete (task_id : string) (items_picked : list string)
| NextSubtask (subtask : SubTask.t).

Definition with_tasks (self : t) (ts : gmap string PickingTask.t) : t :=
  {| shelf_manager := shelf_manager self; path_planner := path_planner self;
     tasks := ts; shelf_demand := shelf_demand self |}.

(** [list.sort(key=...)]: a stable sort that only uses [<] on the keys. *)
Fixpoint insert_by {A} (key : A → float) (x : A) (l : list A) : list A :=
  match l with
  | [] => [x]
  | y :: l' =>
      if (key x <? key y)%float then x :: y :: l' else y :: insert_by key x l'
  end.

Definition sort_by {A} (key : A → float) (l : list A) : list A :=
  fold_left (λ acc x, insert_by key x acc) l [].

(** The five sub-tasks emitted for one shelf; [n] sub-tasks exist already. *)
Definition shelf_subtasks (task_id : string) (workstation_id : Z) (n : Z)
    (shelf_id : Z) (items_on_shelf : list string) : list SubTask.t :=
  let mk (k : Z) ty target its :=
    {| SubTask.subtask_id := task_id +:+ "_ST" +:+ pretty (n + k);
       SubTask.subtask_type := ty; SubTask.shelf_id := shelf_id;
       SubTask.target_node := target; SubTask.items_to_pick := its;
       SubTask.status := PENDING; SubTask.assigned_robot := None |} in
  [ mk 1 GO_TO_SHELF shelf_id [];
    mk 2 PICKUP_SHELF shelf_id [];
    mk 3 DELIVER_TO_WS workstation_id [];
    mk 4 WAIT_PICKING workstation_id items_on_shelf;
    mk 5 RETURN_SHELF shelf_id [] ].

(** [shelf_items[shelf_id]], for a key of the dict. *)
Fixpoint lookup_items (shelf_items : list (Z * list string)) (shelf_id : Z)
  : list string :=
  match shelf_items with
  | [] => []
  | (k, its) :: shelf_items' =>
      if k =? shelf_id then its else lookup_items shelf_items' shelf_id
  end.

Definition register_demand (task_id : string) (workstation_id : Z)
    (sd : gmap Z (list demand)) (kv : Z * list string)
  : gmap Z (list demand) :=
  let '(shelf_id, items_on_shelf) := kv in
  <[shelf_id := default [] (sd !! shelf_id)
                ++ [{| d_task_id := task_id;
                       d_workstation_id := workstation_id;
                       d_items := items_on_shelf |}]]> sd.

Definition create_task (self : t) (task_id : string) (workstation_id : Z)
    (items : list string) : option PickingTask.t * t :=
  let shelf_items :=
    ShelfManager.find_shelves_for_items (shelf_manager self) items in
  match shelf_items with
  | [] => (None, self)
  | _ =>
      let shelf_ids :=
        sort_by (λ sid, PathPlanner._heuristic (path_planner self) workstation_id sid)
          (fst <$> shelf_items) in
      let subtasks :=
        fold_left
          (λ sts shelf_id,
             sts ++ shelf_subtasks task_id workstation_id (Z.of_nat (length sts))
                      shelf_id (lookup_items shelf_items shelf_id))
          shelf_ids [] in
      let task :=
        {| PickingTask.task_id := task_id;
           PickingTask.workstation_id := workstation_id;
           PickingTask.items := items;
           PickingTask.shelf_sequence := shelf_ids;
           PickingTask.subtasks := subtasks;
           PickingTask.current_subtask_idx := 0;
           PickingTask.status := PENDING;
           PickingTask.items_picked := [];
           PickingTask.assigned_robot := None |} in
      (Some task,
       {| shelf_manager := shelf_manager self;
          path_planner := path_planner self;
          tasks := <[task_id := task]> (tasks self);
          shelf_demand :=
            fold_left (register_demand task_id workstation_id) shelf_items
              (shelf_demand self) |})
  end.

(** One request of a batch: [{"task_id": .., "workstation_id": .., "items": ..}]. *)
Record task_data := {
  td_task_id : string;
  td_workstation_id : Z;
  td_items : list string
}.

Fixpoint create_batch_from (self : t) (task_list : list task_data)
    (created : list PickingTask.t) : list PickingTask.t * t :=
  match task_list with
  | [] => (created, self)
  | td :: task_list' =>
      match create_task self (td_task_id td) (td_workstation_id td) (td_items td) with
      | (Some task, self') => create_batch_from self' task_list' (created ++ [task])
      | (None, self') => create_batch_from self' task_list' created
      end
  end.

Definition create_batch_tasks (self : t) (task_list : list task_data)
  : list PickingTask.t * t :=
  create_batch_from self task_list [].

Definition still_needed (d : demand) (other_task : PickingTask.t) : list string :=
  filter (λ i, i ∉ PickingTask.items_picked other_task) (d_items d).

(** The test made on one demand entry inside the loop of
    [_check_shelf_needed_elsewhere]. *)
Definition demand_elsewhere (self : t) (current_ws : Z) (d : demand) : bool :=
  negb (d_workstation_id d =? current_ws)
  && match tasks self !! d_task_id d with
     | Some other_task =>
         match PickingTask.status other_task with
         | PENDING | IN_PROGRESS =>
             match still_needed d other_task with
             | [] => false
             | _ => true
             end
         | _ => false
         end
     | None => false
     end.

Fixpoint first_elsewhere (self : t) (current_ws : Z) (demands : list demand)
  : option Z :=
  match demands with
  | [] => None
  | d :: demands' =>
      if demand_elsewhere self current_ws d then Some (d_workstation_id d)
      else first_elsewhere self current_ws demands'
  end.

Definition _check_shelf_needed_elsewhere (self : t) (shelf_id current_ws : Z)
  : option Z :=
  first_elsewhere self current_ws (default [] (shelf_demand self !! shelf_id)).

(** [task] is the object held in [self.tasks]; the mutated task is returned
    for the caller to keep in its place. *)
Definition _decide_shelf_action (self : t) (task : PickingTask.t) (shelf_id : Z)
  : response * PickingTask.t :=
  let forward_ws :=
    _check_shelf_needed_elsewhere self shelf_id (PickingTask.workstation_id task) in
  let '(next_st, task) := PickingTask.advance_subtask task in
  let idx := PickingTask.current_subtask_idx task in
  match forward_ws, next_st with
  | Some forward_ws, Some next_st =>
      let next_st := SubTask.retarget next_st FORWARD_SHELF forward_ws in
      (ShelfDoneForward forward_ws shelf_id,
       PickingTask.with_progress task (<[idx := next_st]> (PickingTask.subtasks task)) idx)
  | None, Some next_st =>
      let empty_pos :=
        default shelf_id
          (ShelfManager.find_nearest_empty_position (shelf_manager self)
             (PickingTask.workstation_id task) (path_planner self)) in
      let next_st := SubTask.retarget next_st (SubTask.subtask_type next_st) empty_pos in
      (ShelfDoneReturn empty_pos shelf_id,
       PickingTask.with_progress task (<[idx := next_st]> (PickingTask.subtasks task)) idx)
  | _, None => (Error "No next subtask available", task)
  end.

Definition handle_item_picked (self : t) (task_id item : string) : response * t :=
  match tasks self !! task_id with
  | None => (Error ("Task " +:+ task_id +:+ " not found"), self)
  | Some task =>
      (* the pick is recorded on the stored task first *)
      let task :=
        if bool_decide (item ∈ PickingTask.items_picked task) then task
        else PickingTask.with_items_picked task
               (PickingTask.items_picked task ++ [item]) in
      let self := with_tasks self (<[task_id := task]> (tasks self)) in
      match PickingTask.get_current_subtask task with
      | Some current_st =>
          match SubTask.subtask_type current_st with
          | WAIT_PICKING =>
              let remaining :=
                filter (λ i, i ∉ PickingTask.items_picked task)
                  (SubTask.items_to_pick current_st) in
              match remaining with
              | _ :: _ =>
                  (ContinuePicking remaining
                     (filter (λ i, i ∉ PickingTask.items_picked task)
                        (PickingTask.items task)),
                   self)
              | [] =>
                  let '(r, task) :=
                    _decide_shelf_action self task (SubTask.shelf_id current_st) in
                  (r, with_tasks self (<[task_id := task]> (tasks self)))
              end
          | _ => (Error "Not in WAIT_PICKING state", self)
          end
      | None => (Error "Not in WAIT_PICKING state", self)
      end
  end.

Definition start_task (self : t) (task_id : string) (robot_id : Z)
  : option SubTask.t * t :=
  match tasks self !! task_id with
  | None => (None, self)
  | Some task =>
      let task := PickingTask.with_status task IN_PROGRESS (Some robot_id) in
      match PickingTask.get_current_subtask task with
      | Some first =>
          let first := SubTask.start first robot_id in
          let idx := PickingTask.current_subtask_idx task in
          let task :=
            PickingTask.with_progress task
              (<[idx := first]> (PickingTask.subtasks task)) idx in
          (Some first, with_tasks self (<[task_id := task]> (tasks self)))
      | None => (None, with_tasks self (<[task_id := task]> (tasks self)))
      end
  end.

Definition _remove_shelf_demand (self : t) (task_id : string) : t :=
  {| shelf_manager := shelf_manager self; path_planner := path_planner self;
     tasks := tasks self;
     shelf_demand :=
       omap (λ ds, match filter (λ d, d_task_id d ≠ task_id) ds with
                   | [] => None
                   | ds' => Some ds'
                   end) (shelf_demand self) |}.

Definition handle_subtask_complete (self : t) (task_id : string) : response * t :=
  match tasks self !! task_id with
  | None => (Error ("Task " +:+ task_id +:+ " not found"), self)
  | Some task =>
      match PickingTask.get_current_subtask task with
      | None => (Error "No current subtask", self)
      | Some current_st =>
          match SubTask.subtask_type current_st with
          | WAIT_PICKING =>
              (WaitPicking (SubTask.items_to_pick current_st)
                 (SubTask.shelf_id current_st), self)
          | _ =>
              match PickingTask.advance_subtask task with
              | (None, task) =>
                  let task :=
                    PickingTask.with_status task COMPLETED
                      (PickingTask.assigned_robot task) in
                  (TaskComplete task_id (PickingTask.items_picked task),
                   _remove_shelf_demand
                     (with_tasks self (<[task_id := task]> (tasks self))) task_id)
              | (Some next_st, task) =>
                  (NextSubtask next_st,
                   with_tasks self (<[task_id := task]> (tasks self)))
              end
          end
      end
  end.

End TaskManager.

(** ** robot_manager.py *)

Inductive RobotStatus := IDLE | BUSY | ERROR.

Module Robot.
(** The dict built by the legacy [task_request] handler and queued on a
    robot (its wall-clock stamp left out). *)
Record job := {
  job_task_id : string;
  worker_id : Z;
  start_node : Z;
  goal_node : Z;
  node_path : list Z
}.

Record t := {
  rid : Z;
  name : string;
  home_node : Z;
  current_node : Z;
  status : RobotStatus;
  current_task : option job;
  task_queue : list job
}.

(** [Robot(rid=.., name=.., home_node=.., current_node=..)] *)
Definition make (rid : Z) (name : string) (home_node current_node : Z) : t :=
  {| rid := rid; name := name; home_node := home_node;
     current_node := current_node; status := IDLE; current_task := None;
     task_queue := [] |}.
End Robot.

Module RobotManager.

(** [robots] is iterated by [get_idle_robot]: it is kept in insertion
    order. *)
Record t := { robots : list (Z * Robot.t) }.

(** [self.robots[rid] = robot] *)
Fixpoint dict_set (d : list (Z * Robot.t)) (rid : Z) (robot : Robot.t)
  : list (Z * Robot.t) :=
  match d with
  | [] => [(rid, robot)]
  | (k, r) :: d' =>
      if k =? rid then (k, robot) :: d' else (k, r) :: dict_set d' rid robot
  end.

(** One entry of the ["robots"] object of [robot_config.json]. *)
Record robot_info := { info_name : option string; info_home_node : option Z }.

(** The two robots installed when no configuration file is found. *)
Definition default_robots : list (Z * Robot.t) :=
  dict_set (dict_set [] 1 (Robot.make 1 "AGV-1" 1 1)) 2 (Robot.make 2 "AGV-2" 37 37).

(** [_load_robot_config]: [None] stands for a missing file. *)
Definition _load_robot_config (data : option (list (Z * robot_info))) : t :=
  match data with
  | Some entries =>
      {| robots :=
           fold_left
             (λ d '(rid, info),
                dict_set d rid
                  (Robot.make rid
                     (default ("AGV-" +:+ pretty rid) (info_name info))
                     (default rid (info_home_node info))
                     (default rid (info_home_node info))))
             entries [] |}
  | None => {| robots := default_robots |}
  end.

Fixpoint dict_get (d : list (Z * Robot.t)) (rid : Z) : option Robot.t :=
  match d with
  | [] => None
  | (k, r) :: d' => if k =? rid then Some r else dict_get d' rid
  end.

Definition get_robot (self : t) (rid : Z) : option Robot.t :=
  dict_get (robots self) rid.

Fixpoint first_idle (values : list Robot.t) : option Robot.t :=
  match values with
  | [] => None
  | robot :: values' =>
      match Robot.status robot with
      | IDLE => Some robot
      | _ => first_idle values'
      end
  end.

Definition get_idle_robot (self : t) : option Robot.t :=
  first_idle (snd <$> robots self).

Definition set_robot_status (self : t) (rid : Z) (status : RobotStatus) : bool * t :=
  match dict_get (robots self) rid with
  | Some robot =>
      (true,
       {| robots :=
            dict_set (robots self) rid
              {| Robot.rid := Robot.rid robot; Robot.name := Robot.name robot;
                 Robot.home_node := Robot.home_node robot;
                 Robot.current_node := Robot.current_node robot;
                 Robot.status := status;
                 Robot.current_task := Robot.current_task robot;
                 Robot.task_queue := Robot.task_queue robot |} |})
  | None => (false, self)
  end.


Definition update_robot_position (self : t) (rid node : Z) : bool * t :=
  match dict_get (robots self) rid with
  | Some robot =>
      (true,
       {| robots :=
            dict_set (robots self) rid
              {| Robot.rid := Robot.rid robot; Robot.name := Robot.name robot;
                 Robot.home_node := Robot.home_node robot;
                 Robot.current_node := node;
                 Robot.status := Robot.status robot;
                 Robot.current_task := Robot.current_task robot;
                 Robot.task_queue := Robot.task_queue robot |} |})
  | None => (false, self)
  end.

(** An idle robot takes the job at once; any other robot queues it. *)
Definition assign_task (self : t) (rid : Z) (task : Robot.job) : bool * t :=
  match dict_get (robots self) rid with
  | None => (false, self)
  | Some robot =>
      match Robot.status robot with
      | IDLE =>
          (true,
           {| robots :=
                dict_set (robots self) rid
                  {| Robot.rid := Robot.rid robot; Robot.name := Robot.name robot;
                     Robot.home_node := Robot.home_node robot;
                     Robot.current_node := Robot.current_node robot;
                     Robot.status := BUSY;
                     Robot.current_task := Some task;
                     Robot.task_queue := Robot.task_queue robot |} |})
      | _ =>
          (true,
           {| robots :=
                dict_set (robots self) rid
                  {| Robot.rid := Robot.rid robot; Robot.name := Robot.name robot;
                     Robot.home_node := Robot.home_node robot;
                     Robot.current_node := Robot.current_node robot;
                     Robot.status := Robot.status robot;
                     Robot.current_task := Robot.current_task robot;
                     Robot.task_queue := Robot.task_queue robot ++ [task] |} |})
      end
  end.

(** Returns the job that was current (if any); the head of the queue, if
    there is one, becomes current, and otherwise the robot turns idle. *)
Definition complete_task (self : t) (rid : Z) : option Robot.job * t :=
  match dict_get (robots self) rid with
  | None => (None, self)
  | Some robot =>
      let completed_task := Robot.current_task robot in
      match Robot.task_queue robot with
      | next :: queue =>
          (completed_task,
           {| robots :=
                dict_set (robots self) rid
                  {| Robot.rid := Robot.rid robot; Robot.name := Robot.name robot;
                     Robot.home_node := Robot.home_node robot;
                     Robot.current_node := Robot.current_node robot;
                     Robot.status := Robot.status robot;
                     Robot.current_task := Some next;
                     Robot.task_queue := queue |} |})
      | [] =>
          (completed_task,
           {| robots :=
                dict_set (robots self) rid
                  {| Robot.rid := Robot.rid robot; Robot.name := Robot.name robot;
                     Robot.home_node := Robot.home_node robot;
                     Robot.current_node := Robot.current_node robot;
                     Robot.status := IDLE;
                     Robot.current_task := None;
                     Robot.task_queue := [] |} |})
      end
  end.

Definition get_robot_by_worker (self : t) (worker_id : Z) : option Robot.t :=
  dict_get (robots self) worker_id.



End RobotManager.

(** ** request_handler.py: the single-job request

    Of the handler only [_handle_task_request] is modelled, with the parts
    of the handler it reads: the planning horizon of the configuration, the
    planner and the robot manager. The fields of the request are JSON
    integers or absent. What the MQTT publisher answers and the clock
    reading that names the job come from outside and are inputs. *)

Module RequestHandler.

Record t := {
  max_time : Z;
  path_planner : PathPlanner.t;
  robot_manager : RobotManager.t
}.

Record task_request := {
  worker_id : option Z;
  worker_marker : option Z;
  shelf_marker : option Z
}.

Inductive response :=
| ErrorResponse (error : string)
| TaskResponse (worker_id robot_id start_node goal_node : Z) (path : list Z)
    (path_length : Z) (mqtt_published : bool).

Definition with_robot_manager (self : t) (rm : RobotManager.t) : t :=
  {| max_time := max_time self; path_planner := path_planner self;
     robot_manager := rm |}.

Definition _handle_task_request (self : t) (data : task_request)
    (stamp : string) (mqtt_success : bool) (fuel : nat) : outcome (response * t) :=
  match worker_id data, worker_marker data, shelf_marker data with
  | None, _, _ => Returned (ErrorResponse "Missing 'worker_id'", self)
  | Some _, None, _ => Returned (ErrorResponse "Missing 'worker_marker'", self)
  | Some _, Some _, None => Returned (ErrorResponse "Missing 'shelf_marker'", self)
  | Some worker_id, Some start_node, Some goal_node =>
      if negb (PathPlanner.is_valid_node (path_planner self) start_node) then
        Returned (ErrorResponse ("Invalid worker_marker: " +:+ pretty start_node), self)
      else if negb (PathPlanner.is_valid_node (path_planner self) goal_node) then
        Returned (ErrorResponse ("Invalid shelf_marker: " +:+ pretty goal_node), self)
      else
        match RobotManager.get_robot_by_worker (robot_manager self) worker_id with
        | None =>
            Returned
              (ErrorResponse ("Robot not found for worker_id: " +:+ pretty worker_id),
               self)
        | Some robot =>
            let rm :=
              (RobotManager.update_robot_position (robot_manager self)
                 (Robot.rid robot) start_node).2 in
            timed_path ←
              PathPlanner.plan_single_robot (path_planner self) start_node goal_node
                (max_time self) fuel ;;;
            match timed_path with
            | None =>
                Returned
                  (ErrorResponse
                     ("No path found: " +:+ pretty start_node +:+ " -> "
                      +:+ pretty goal_node),
                   with_robot_manager self rm)
            | Some timed_path =>
                let node_path := PathPlanner.compress_to_node_path timed_path in
                let task :=
                  {| Robot.job_task_id := "legacy_" +:+ stamp;
                     Robot.worker_id := worker_id;
                     Robot.start_node := start_node;
                     Robot.goal_node := goal_node;
                     Robot.node_path := node_path |} in
                let rm := (RobotManager.assign_task rm (Robot.rid robot) task).2 in
                Returned
                  (TaskResponse worker_id (Robot.rid robot) start_node goal_node
                     node_path (Z.of_nat (length node_path)) mqtt_success,
                   with_robot_manager self rm)
            end
        end
  end.

End RequestHandler.

(** * A small warehouse used in the worked examples

    A corridor 1 - 2 - 3 with a side bay 4 off node 2; shelf 9; a second
    robot home 37; pick stations 50, 51 and 52. *)

Module Warehouse.

Definition node (id : Z) (x y : float) : PathPlanner.node_entry :=
  {| PathPlanner.n_id := Some id; PathPlanner.n_x := Some x;
     PathPlanner.n_y := Some y |}.

Definition edge (a b : Z) : PathPlanner.edge_entry :=
  {| PathPlanner.e_from := Some a; PathPlanner.e_to := Some b;
     PathPlanner.e_cost := None |}.

Definition map_json : PathPlanner.map_data :=
  {| PathPlanner.data_nodes :=
       Some [ node 1 4 0; node 2 5 0; node 3 6 0; node 4 5 1;
              node 9 0 3; node 37 0 4;
              node 50 0 0; node 51 8 0; node 52 1 0 ];
     PathPlanner.data_edges :=
       Some [ edge 1 2; edge 2 1; edge 2 3; edge 3 2; edge 2 4; edge 4 2 ] |}.

Definition planner : PathPlanner.t :=
  match PathPlanner._load_map map_json with
  | Returned p => p
  | _ => {| PathPlanner.nodes := ∅; PathPlanner.graph := ∅ |}
  end.

(** A map file whose edges name the undeclared nodes 2 and 3. *)
Definition dangling_json : PathPlanner.map_data :=
  {| PathPlanner.data_nodes := Some [ node 1 0 0 ];
     PathPlanner.data_edges := Some [ edge 1 2; edge 3 1 ] |}.

Definition shelf_json : list (Z * ShelfManager.shelf_info) :=
  [ (9, {| ShelfManager.info_label := Some "S1";
           ShelfManager.info_items := Some ["A"; "C"; "D"] |}) ].

Definition shelf_manager : ShelfManager.t :=
  ShelfManager._load_config (Some shelf_json).

(** Shelf 9 once robot 1 has lifted it. *)
Definition shelf_manager_carried : ShelfManager.t :=
  (ShelfManager.mark_shelf_picked_up shelf_manager 9 1).2.

Definition robot_manager : RobotManager.t :=
  RobotManager._load_robot_config None.

Definition task_manager : TaskManager.t :=
  {| TaskManager.shelf_manager := shelf_manager;
     TaskManager.path_planner := planner;
     TaskManager.tasks := ∅;
     TaskManager.shelf_demand := ∅ |}.

Definition request (task_id : string) (ws : Z) (items : list string)
  : TaskManager.task_data :=
  {| TaskManager.td_task_id := task_id; TaskManager.td_workstation_id := ws;
     TaskManager.td_items := items |}.

(** Three orders that all need shelf 9, from stations 50, 51 and 52. *)
Definition batch : list TaskManager.task_data :=
  [ request "T1" 50 ["A"]; request "T2" 51 ["C"]; request "T3" 52 ["D"] ].

Definition after_batch : TaskManager.t :=
  (TaskManager.create_batch_tasks task_manager batch).2.

(** T1 handed to robot 1, which is on its way to shelf 9. *)
Definition after_start : TaskManager.t :=
  (TaskManager.start_task after_batch "T1" 1).2.

(** Robot 1 has reached the shelf, lifted it and delivered it to station 50:
    T1 now waits for the picker. *)
Definition at_station : TaskManager.t :=
  let tm := (TaskManager.handle_subtask_complete after_start "T1").2 in
  let tm := (TaskManager.handle_subtask_complete tm "T1").2 in
  (TaskManager.handle_subtask_complete tm "T1").2.

End Warehouse.

(** * Properties *)

(** ** Vocabulary of the statements *)

(** [consecutive R l]: every two neighbouring elements of [l] are related. *)
Fixpoint consecutive {A} (R : A → A → Prop) (l : list A) : Prop :=
  match l with
  | a :: (b :: _) as l' => R a b ∧ consecutive R l'
  | _ => True
  end.

(** [a] is immediately followed by [b] in [l]. *)
Definition adjacent {A} (a b : A) (l : list A) : Prop :=
  ∃ l1 l2, l = l1 ++ a :: b :: l2.

(** The out-neighbours the file gives to node [a], in file order. *)
Definition edges_from (es : list PathPlanner.edge_entry) (a : Z) : list (Z * float) :=
  flat_map
    (λ e, match PathPlanner.e_from e, PathPlanner.e_to e with
          | Some a', Some b =>
              if a' =? a then [(b, default 1%float (PathPlanner.e_cost e))] else []
          | _, _ => []
          end) es.

(** A demand entry of a shelf that calls for forwarding, in the words of the
    pick-completion policy: it comes from another station, its task is
    pending or in progress, and that task has not yet picked every item it
    wants from the shelf. *)
Definition needs_shelf_elsewhere (self : TaskManager.t) (current_ws : Z)
    (d : TaskManager.demand) : Prop :=
  TaskManager.d_workstation_id d ≠ current_ws
  ∧ ∃ other, TaskManager.tasks self !! TaskManager.d_task_id d = Some other
      ∧ (PickingTask.status other = PENDING ∨ PickingTask.status other = IN_PROGRESS)
      ∧ ∃ i, i ∈ TaskManager.d_items d ∧ i ∉ PickingTask.items_picked other.

(** [v] is an out-neighbour of [u] in the loaded graph. *)
Definition out_neighbor (self : PathPlanner.t) (u v : Z) : Prop :=
  ∃ cost, (v, cost) ∈ default [] (PathPlanner.graph self !! u).

(** One step of a space-time path: [(u, t)] then [(v, t + 1)], a wait or a
    move along an edge. *)
Definition step_ok (self : PathPlanner.t) (a b : Z * Z) : Prop :=
  b.2 = a.2 + 1 ∧ (b.1 = a.1 ∨ out_neighbor self a.1 b.1).

(** A step that the reservation table allows: the state entered is not
    reserved, and a true move does not cross a reserved move head-on. *)
Definition link_free (reserved_nodes : gset (Z * Z))
    (reserved_edges : gset (Z * Z * Z)) (a b : Z * Z) : Prop :=
  (b ∉ reserved_nodes) ∧ (b.1 ≠ a.1 → (b.1, a.1, a.2) ∉ reserved_edges).

Definition legal_step (self : PathPlanner.t) (reserved_nodes : gset (Z * Z))
    (reserved_edges : gset (Z * Z * Z)) (a b : Z * Z) : Prop :=
  step_ok self a b ∧ link_free reserved_nodes reserved_edges a b.

(** What a path handed back by the planner looks like: it leaves from
    [(start, 0)], advances by legal steps, and ends on the goal node. *)
Definition planned_path (self : PathPlanner.t) (start goal : Z)
    (reserved_nodes : gset (Z * Z)) (reserved_edges : gset (Z * Z * Z))
    (path : list (Z * Z)) : Prop :=
  (∃ rest, path = (start, 0) :: rest)
  ∧ consecutive (legal_step self reserved_nodes reserved_edges) path
  ∧ ∃ t, last path = Some (goal, t).

(** A state the search has a way back from: the start state, or a key of the
    parent map. *)
Definition reached (start : Z) (cf : gmap (Z * Z) (Z * Z)) (s : Z * Z) : Prop :=
  s = (start, 0) ∨ is_Some (cf !! s).

(** The invariant of the search loop. *)
Record search_inv (self : PathPlanner.t) (start : Z)
    (reserved_nodes : gset (Z * Z)) (reserved_edges : gset (Z * Z * Z))
    (s : PathPlanner.search) : Prop := {
  inv_heap : ∀ f g n t, (f, g, n, t) ∈ PathPlanner.open_heap s →
               reached start (PathPlanner.came_from s) (n, t);
  inv_parent : ∀ c p, PathPlanner.came_from s !! c = Some p →
                 legal_step self reserved_nodes reserved_edges p c
                 ∧ reached start (PathPlanner.came_from s) p
}.

(** The reservation table holds every state and every true move of [p]. *)
Definition covered (p : list (Z * Z)) (reserved_nodes : gset (Z * Z))
    (reserved_edges : gset (Z * Z * Z)) : Prop :=
  (∀ s, s ∈ p → s ∈ reserved_nodes)
  ∧ (∀ a b, adjacent a b p → b.1 ≠ a.1 → (a.1, b.1, a.2) ∈ reserved_edges).

(** The state of the loop of [prioritized_planning] once robots [0 .. k-1]
    are planned: the path of robot [i] was planned from its start to its goal
    against a table that covered the paths of the robots before it, and the
    present table covers it. *)
Definition planned_upto (self : PathPlanner.t) (starts goals : list Z) (k : nat)
    (reserved_nodes : gset (Z * Z)) (reserved_edges : gset (Z * Z * Z))
    (paths : list (option (list (Z * Z)))) : Prop :=
  length paths = length starts
  ∧ ∀ i, (i < k)%nat →
      ∃ p start goal rn_i re_i,
        paths !! i = Some (Some p)
        ∧ starts !! i = Some start ∧ goals !! i = Some goal
        ∧ planned_path self start goal rn_i re_i p
        ∧ covered p reserved_nodes reserved_edges
        ∧ ∀ j q, (j < i)%nat → paths !! j = Some (Some q) → covered q rn_i re_i.

(** Two robots at the same node at the same time. *)
Definition vertex_conflict (p q : list (Z * Z)) : Prop :=
  ∃ s, s ∈ p ∧ s ∈ q.

(** One robot goes [u → v] during [[t, t+1]] while the other goes [v → u]
    (with [u = v]: both wait on the same node). *)
Definition swap_conflict (p q : list (Z * Z)) : Prop :=
  ∃ u v t, adjacent (u, t) (v, t + 1) p ∧ adjacent (v, t) (u, t + 1) q.

Definition conflict_free (paths : list (list (Z * Z))) : Prop :=
  ∀ (i j : nat) p q, (i < j)%nat → paths !! i = Some p → paths !! j = Some q →
    ¬ vertex_conflict p q ∧ ¬ swap_conflict p q.

(** Every entry of the open heap lies within the planning horizon. *)
Definition heap_within (max_time : Z) (s : PathPlanner.search) : Prop :=
  ∀ f g n t, (f, g, n, t) ∈ PathPlanner.open_heap s → 0 ≤ t ≤ Z.max 0 max_time.

(** The table holds the goal node of [p] for the [stay] ticks that follow
    the arrival. *)
Definition parked (p : list (Z * Z)) (stay : Z) (reserved_nodes : gset (Z * Z))
    : Prop :=
  ∀ g t dt, last p = Some (g, t) → 1 ≤ dt ≤ stay → (g, t + dt) ∈ reserved_nodes.

(** The loop of [prioritized_planning] once robots [0 .. k-1] are planned,
    seen from the parked robots: the present table holds the stay of every
    planned robot, and each robot was planned against a table that held the
    stays of the robots before it. *)
Definition parked_upto (self : PathPlanner.t) (starts goals : list Z) (stay : Z)
    (k : nat) (reserved_nodes : gset (Z * Z))
    (paths : list (option (list (Z * Z)))) : Prop :=
  ∀ i, (i < k)%nat →
    ∃ p start goal rn_i re_i,
      paths !! i = Some (Some p)
      ∧ starts !! i = Some start ∧ goals !! i = Some goal
      ∧ planned_path self start goal rn_i re_i p
      ∧ parked p stay reserved_nodes
      ∧ ∀ j q, (j < i)%nat → paths !! j = Some (Some q) → parked q stay rn_i.

(** Every key that [_load_map] reads with [d[key]] is there. *)
Definition keys_present (data : PathPlanner.map_data) : Prop :=
  ∃ node_entries edge_entries,
    PathPlanner.data_nodes data = Some node_entries
    ∧ PathPlanner.data_edges data = Some edge_entries
    ∧ Forall (λ n, is_Some (PathPlanner.n_id n)) node_entries
    ∧ Forall (λ e, is_Some (PathPlanner.e_from e) ∧ is_Some (PathPlanner.e_to e))
        edge_entries.

(** The coordinates that the node entries of the file give to [id], in file
    order ([x] and [y] default to [0.0]). *)
Definition declared_coords (ns : list PathPlanner.node_entry) (id : Z)
    : list (float * float) :=
  omap (λ n, if decide (PathPlanner.n_id n = Some id)
             then Some (default 0%float (PathPlanner.n_x n),
                        default 0%float (PathPlanner.n_y n))
             else None) ns.

(** What a shelf registry keeps true from loading on: the slot set is the
    set of shelf ids, a shelf is filed under its own id, which is its home
    node, and every indexed item leads to a shelf of the registry. *)
Definition registry_wf (self : ShelfManager.t) : Prop :=
  ShelfManager.all_shelf_nodes self = dom (ShelfManager.shelves self)
  ∧ (∀ id shelf, ShelfManager.shelves self !! id = Some shelf →
       Shelf.shelf_id shelf = id ∧ Shelf.home_node shelf = id)
  ∧ (∀ item id, ShelfManager.item_to_shelf self !! item = Some id →
       is_Some (ShelfManager.shelves self !! id)).

(** Some shelf rests in place on [node]. *)
Definition occupied_slot (self : ShelfManager.t) (node : Z) : Prop :=
  ∃ id shelf, ShelfManager.shelves self !! id = Some shelf
    ∧ Shelf.status shelf = IN_PLACE ∧ Shelf.current_node shelf = node.

(** The dict being built holds, under each shelf, the items seen so far
    that the index sends to that shelf. *)
Definition grouped (self : ShelfManager.t) (seen : list string)
    (result : list (Z * list string)) : Prop :=
  NoDup result.*1
  ∧ (∀ shelf_id, TaskManager.lookup_items result shelf_id
                 = filter (λ item, ShelfManager.item_to_shelf self !! item = Some shelf_id) seen)
  ∧ (∀ k its, (k, its) ∈ result → its ≠ []).

(** A registry as loading leaves it: every shelf rests in place on its own
    node, carried by no robot. *)
Definition all_at_home (self : ShelfManager.t) : Prop :=
  ∀ id shelf, ShelfManager.shelves self !! id = Some shelf →
    Shelf.status shelf = IN_PLACE ∧ Shelf.current_node shelf = id
    ∧ Shelf.carried_by shelf = None.

(** Every indexed item leads to a shelf that holds it. *)
Definition index_sound (self : ShelfManager.t) : Prop :=
  ∀ item id, ShelfManager.item_to_shelf self !! item = Some id →
    ∃ shelf, ShelfManager.shelves self !! id = Some shelf ∧ item ∈ Shelf.items shelf.

(** The kinds of the five sub-tasks emitted for one shelf. *)
Definition chain_kinds : list SubTaskType :=
  [GO_TO_SHELF; PICKUP_SHELF; DELIVER_TO_WS; WAIT_PICKING; RETURN_SHELF].

(** What a sub-task asks the picker for: the requested items that the index
    sends to its shelf when it is a wait-pick stop, nothing otherwise. *)
Definition asks_for (sm : ShelfManager.t) (items : list string) (st : SubTask.t)
    : Prop :=
  SubTask.items_to_pick st
  = match SubTask.subtask_type st with
    | WAIT_PICKING =>
        filter (λ item, ShelfManager.item_to_shelf sm !! item = Some (SubTask.shelf_id st))
          items
    | _ => []
    end.

(** Two states of a task that differ at most in the cursor and in what the
    sub-tasks say: the request, the picks made so far, the status and the
    number of sub-tasks agree. *)
Definition same_request (a b : PickingTask.t) : Prop :=
  PickingTask.task_id a = PickingTask.task_id b
  ∧ PickingTask.workstation_id a = PickingTask.workstation_id b
  ∧ PickingTask.items a = PickingTask.items b
  ∧ PickingTask.shelf_sequence a = PickingTask.shelf_sequence b
  ∧ PickingTask.status a = PickingTask.status b
  ∧ PickingTask.items_picked a = PickingTask.items_picked b
  ∧ PickingTask.assigned_robot a = PickingTask.assigned_robot b
  ∧ length (PickingTask.subtasks a) = length (PickingTask.subtasks b).

(** The task stands at a wait-for-picking sub-task all of whose items have
    been picked. *)
Definition shelf_finished (task : PickingTask.t) : Prop :=
  ∃ st, PickingTask.get_current_subtask task = Some st
        ∧ SubTask.subtask_type st = WAIT_PICKING
        ∧ ∀ i, i ∈ SubTask.items_to_pick st → i ∈ PickingTask.items_picked task.

(** The jobs a robot holds, in the order in which it will finish them: the
    current one, then the queue. *)
Definition held (robot : Robot.t) : list Robot.job :=
  option_list (Robot.current_task robot) ++ Robot.task_queue robot.

(** A robot as loading, job assignment and job completion leave it: idle
    with nothing to do, or busy on a current job. *)
Definition at_work (robot : Robot.t) : Prop :=
  match Robot.status robot with
  | IDLE => Robot.current_task robot = None ∧ Robot.task_queue robot = []
  | BUSY => is_Some (Robot.current_task robot)
  | ERROR => False
  end.

(** Coordinates small enough for the heuristic to return on every pair of
    nodes: with every coordinate at most [2^500] in magnitude, a difference
    of two coordinates is at most [2^501] and its square at most [2^1002],
    which is a finite float, so that [x ** 2] does not raise. *)
Definition coordinate_bound : float := 0x1p500%float.

Definition coords_bounded (self : PathPlanner.t) : Prop :=
  map_Forall
    (λ _ xy, (abs xy.1 <=? coordinate_bound)%float = true
             ∧ (abs xy.2 <=? coordinate_bound)%float = true)
    (PathPlanner.nodes self).

(** ** The worked configuration *)

Lemma warehouse_planner_loaded :
  PathPlanner._load_map Warehouse.map_json = Returned Warehouse.planner.
Proof. reflexivity. Qed.

Lemma warehouse_coords_bounded : coords_bounded Warehouse.planner.
Proof. apply map_Forall_to_list. vm_compute. by repeat constructor. Qed.

Lemma warehouse_shelf_index :
  ShelfManager.item_to_shelf Warehouse.shelf_manager
  = {[ "A" := 9; "C" := 9; "D" := 9 ]}.
Proof. by vm_compute. Qed.

(** ** Node-path compression *)

Section compression.
Import PathPlanner.

Lemma compress_from_head last timed_path n rest :
  compress_from last timed_path = n :: rest → last ≠ Some n.
Proof.
  revert last. induction timed_path as [|[node tm] tp IH]; intros last; simpl.
  - discriminate.
  - destruct last as [l|].
    + destruct (Z.eqb_spec node l) as [->|Hne]; simpl.
      * apply IH.
      * intros [= <- _]. congruence.
    + discriminate.
Qed.

Lemma compress_from_no_repeat last timed_path :
  consecutive (λ a b : Z, a ≠ b) (compress_from last timed_path).
Proof.
  revert last. induction timed_path as [|[node tm] tp IH]; intros last; simpl.
  - exact I.
  - assert (Hcons : consecutive (λ a b : Z, a ≠ b)
                      (node :: compress_from (Some node) tp)).
    { specialize (IH (Some node)).
      destruct (compress_from (Some node) tp) as [|m rest] eqn:E; simpl.
      - exact I.
      - split; [|exact IH].
        apply compress_from_head in E. congruence. }
    destruct last as [l|]; [|exact Hcons].
    destruct (Z.eqb_spec node l); simpl; [apply IH | exact Hcons].
Qed.

(** A timed path whose nodes never repeat, and do not start with [last],
    compresses to its own node sequence. *)
Lemma compress_from_fixed last (q : list (Z * Z)) :
  consecutive (λ a b : Z, a ≠ b) (q.*1) →
  (∀ n, head (q.*1) = Some n → last ≠ Some n) →
  compress_from last q = q.*1.
Proof.
  revert last. induction q as [|[node tm] q IH]; intros last Hc Hh; simpl.
  - reflexivity.
  - assert (Hrest : compress_from (Some node) q = q.*1).
    { apply IH.
      - destruct q as [|[m tm'] q']; simpl in *; [exact I | tauto].
      - intros n Hn. destruct q as [|[m tm'] q']; simpl in *; [discriminate|].
        injection Hn as ->. destruct Hc as [Hc _]. congruence. }
    destruct last as [l|]; [|by rewrite Hrest].
    destruct (Z.eqb_spec node l) as [->|Hne]; simpl; [|by rewrite Hrest].
    exfalso. by apply (Hh l).
Qed.
End compression.

(** C9. Compressing a timed path and compressing the result again, whatever
    times its nodes are paired with, gives the same node sequence; and the
    compressed path never holds the same node twice in a row. *)
Theorem compress_to_node_path_idempotent (timed_path q : list (Z * Z)) :
  q.*1 = PathPlanner.compress_to_node_path timed_path →
  PathPlanner.compress_to_node_path q = PathPlanner.compress_to_node_path timed_path
  ∧ consecutive (λ a b : Z, a ≠ b) (PathPlanner.compress_to_node_path timed_path).
Proof.
  intros Hq. split; [|apply compress_from_no_repeat].
  unfold PathPlanner.compress_to_node_path in *. rewrite <- Hq.
  apply compress_from_fixed.
  - rewrite Hq. apply compress_from_no_repeat.
  - intros n _. discriminate.
Qed.

Lemma compress_to_node_path_idempotent_witness :
  PathPlanner.compress_to_node_path [(1, 7); (2, 9); (1, 11)]
  = PathPlanner.compress_to_node_path [(1, 0); (1, 1); (2, 2); (2, 3); (1, 4)]
  ∧ consecutive (λ a b : Z, a ≠ b)
      (PathPlanner.compress_to_node_path [(1, 0); (1, 1); (2, 2); (2, 3); (1, 4)]).
Proof.
  apply (compress_to_node_path_idempotent
           [(1, 0); (1, 1); (2, 2); (2, 3); (1, 4)] [(1, 7); (2, 9); (1, 11)]).
  reflexivity.
Defined.

(** ** Planning to the node the robot stands on *)

(** C10. With [start = goal = n] the planner returns the one-state path
    [[(n, 0)]] at the first pop, whatever the reservations hold, [(n, 0)]
    included. *)
Theorem astar_with_time_start_is_goal (self : PathPlanner.t) (n : Z)
    (reserved_nodes : gset (Z * Z)) (reserved_edges : gset (Z * Z * Z))
    (max_time : Z) (fuel : nat) :
  PathPlanner.astar_with_time self n n reserved_nodes reserved_edges max_time (S fuel)
  = Returned (Some [(n, 0)]).
Proof.
  unfold PathPlanner.astar_with_time. simpl.
  rewrite Z.eqb_refl. simpl.
  destruct fuel; simpl; by rewrite lookup_empty.
Qed.

(** ** Loading the map *)

Section loading.
Import PathPlanner.

Lemma load_nodes_returns ns acc :
  Forall (λ n, is_Some (n_id n)) ns →
  ∃ m, load_nodes ns acc = Returned m
       ∧ ∀ id, is_Some (m !! id)
               ↔ is_Some (acc !! id) ∨ ∃ n, n ∈ ns ∧ n_id n = Some id.
Proof.
  intros Hns. revert acc.
  induction Hns as [|n ns [id Hid] _ IH]; intros acc; simpl.
  - exists acc. split; [done|]. intros id. split; [by left|].
    intros [H|(n & Hn & _)]; [done|]. by apply elem_of_nil in Hn.
  - rewrite Hid. simpl.
    destruct (IH (<[id := (default 0%float (n_x n), default 0%float (n_y n))]> acc))
      as (m & Hm & Hdom).
    exists m. split; [done|]. intros k. rewrite Hdom. split.
    + intros [Hk|(n' & Hn' & Hk)].
      * destruct (decide (id = k)) as [<-|Hne].
        -- right. exists n. split; [apply elem_of_cons; by left | done].
        -- left. by rewrite lookup_insert_ne in Hk.
      * right. exists n'. split; [apply elem_of_cons; by right | done].
    + intros [Hk|(n' & Hn' & Hk)].
      * left. destruct (decide (id = k)) as [<-|Hne].
        -- rewrite lookup_insert_eq. by eexists.
        -- by rewrite lookup_insert_ne.
      * apply elem_of_cons in Hn' as [->|Hn'].
        -- left. rewrite Hid in Hk. injection Hk as ->.
           rewrite lookup_insert_eq. by eexists.
        -- right. by exists n'.
Qed.

Lemma load_edges_returns es g :
  Forall (λ e, is_Some (e_from e) ∧ is_Some (e_to e)) es →
  ∃ g', load_edges es g = Returned g'
        ∧ ∀ a, default [] (g' !! a) = default [] (g !! a) ++ edges_from es a.
Proof.
  intros Hes. revert g.
  induction Hes as [|e es [[a Ha] [b Hb]] _ IH]; intros g; simpl.
  - exists g. split; [done|]. intros a. by rewrite app_nil_r.
  - rewrite Ha, Hb. simpl.
    destruct (IH (<[a := default [] (g !! a) ++ [(b, default 1%float (e_cost e))]]> g))
      as (g' & Hg' & Hadj).
    exists g'. split; [done|]. intros k. rewrite Hadj.
    destruct (Z.eqb_spec a k) as [<-|Hne].
    + rewrite lookup_insert_eq. simpl. by rewrite <- app_assoc.
    + by rewrite lookup_insert_ne.
Qed.
Lemma load_nodes_raises ns acc :
  ¬ Forall (λ n, is_Some (n_id n)) ns → load_nodes ns acc = Raised KeyError.
Proof.
  revert acc. induction ns as [|n ns IH]; intros acc Hns; simpl.
  - destruct Hns. constructor.
  - destruct (n_id n) as [id|] eqn:E; simpl; [|done].
    apply IH. intros Hall. apply Hns. constructor; [by rewrite E | done].
Qed.

Lemma load_edges_raises es g :
  ¬ Forall (λ e, is_Some (e_from e) ∧ is_Some (e_to e)) es →
  load_edges es g = Raised KeyError.
Proof.
  revert g. induction es as [|e es IH]; intros g Hes; simpl.
  - destruct Hes. constructor.
  - destruct (e_from e) as [a|] eqn:Ea; simpl; [|done].
    destruct (e_to e) as [b|] eqn:Eb; simpl; [|done].
    apply IH. intros Hall. apply Hes. constructor; [by rewrite Ea, Eb | done].
Qed.

Lemma edges_from_elem es e a b :
  e ∈ es → e_from e = Some a → e_to e = Some b →
  (b, default 1%float (e_cost e)) ∈ edges_from es a.
Proof.
  intros Hin Ha Hb. unfold edges_from.
  induction es as [|e' es IH]; [by apply elem_of_nil in Hin|].
  cbn [flat_map]. apply elem_of_app.
  apply elem_of_cons in Hin as [<-|Hin]; [left | right; by apply IH].
  rewrite Ha, Hb, Z.eqb_refl. apply list_elem_of_here.
Qed.

(** What a successful load has read and built. *)
Lemma load_map_returned data p :
  _load_map data = Returned p →
  ∃ node_entries edge_entries,
    data_nodes data = Some node_entries
    ∧ data_edges data = Some edge_entries
    ∧ Forall (λ n, is_Some (n_id n)) node_entries
    ∧ Forall (λ e, is_Some (e_from e) ∧ is_Some (e_to e)) edge_entries
    ∧ (∀ id, is_Some (nodes p !! id) ↔ ∃ n, n ∈ node_entries ∧ n_id n = Some id)
    ∧ (∀ a, default [] (graph p !! a) = edges_from edge_entries a).
Proof.
  unfold _load_map. intros H.
  destruct (data_nodes data) as [ns|]; [|done]. cbn [subscript obind] in H.
  destruct (decide (Forall (λ n, is_Some (n_id n)) ns)) as [Hns|Hns];
    [|by rewrite (load_nodes_raises _ _ Hns) in H].
  destruct (load_nodes_returns _ ∅ Hns) as (m & Hm & Hdom).
  rewrite Hm in H. cbn [obind] in H.
  destruct (data_edges data) as [es|]; [|done]. cbn [subscript obind] in H.
  destruct (decide (Forall (λ e, is_Some (e_from e) ∧ is_Some (e_to e)) es))
    as [Hes|Hes]; [|by rewrite (load_edges_raises _ _ Hes) in H].
  destruct (load_edges_returns _ ((λ _, []) <$> m) Hes) as (g & Hg & Hadj).
  rewrite Hg in H. cbn [obind] in H. injection H as <-.
  exists ns, es. split_and!; try done; simpl.
  - intros id. rewrite Hdom. split.
    + intros [H|H]; [|done]. rewrite lookup_empty in H. by destruct H.
    + intros H. by right.
  - intros a. rewrite Hadj. rewrite lookup_fmap. by destruct (m !! a).
Qed.
End loading.

(** C5 (as the code has it). Loading never compares the endpoints of the
    edges with the declared nodes. Whenever a map loads, the node table
    holds exactly the declared ids, the out-neighbours of any node [a],
    declared or not, are exactly the [(to, cost)] of the edges leaving [a],
    in file order, and so every edge of the file is in the graph whether or
    not its endpoints are declared. *)
Theorem load_map_keeps_undeclared_endpoints (data : PathPlanner.map_data)
    (p : PathPlanner.t) :
  PathPlanner._load_map data = Returned p →
  ∃ node_entries edge_entries,
    PathPlanner.data_nodes data = Some node_entries
    ∧ PathPlanner.data_edges data = Some edge_entries
    ∧ (∀ id, is_Some (PathPlanner.nodes p !! id)
             ↔ ∃ n, n ∈ node_entries ∧ PathPlanner.n_id n = Some id)
    ∧ (∀ a, default [] (PathPlanner.graph p !! a) = edges_from edge_entries a)
    ∧ (∀ e a b, e ∈ edge_entries →
         PathPlanner.e_from e = Some a → PathPlanner.e_to e = Some b →
         (b, default 1%float (PathPlanner.e_cost e))
         ∈ default [] (PathPlanner.graph p !! a)).
Proof.
  intros H.
  destruct (load_map_returned _ _ H) as (ns & es & Hn & He & _ & _ & Hdom & Hadj).
  exists ns, es. split_and!; try done.
  intros e a b Hin Ha Hb. rewrite Hadj. by apply edges_from_elem.
Qed.

Lemma load_map_keeps_undeclared_endpoints_witness :
  ∃ p, PathPlanner._load_map Warehouse.dangling_json = Returned p
       ∧ ∃ node_entries edge_entries,
           PathPlanner.data_nodes Warehouse.dangling_json = Some node_entries
           ∧ PathPlanner.data_edges Warehouse.dangling_json = Some edge_entries
           ∧ (∀ id, is_Some (PathPlanner.nodes p !! id)
                    ↔ ∃ n, n ∈ node_entries ∧ PathPlanner.n_id n = Some id)
           ∧ (∀ a, default [] (PathPlanner.graph p !! a) = edges_from edge_entries a)
           ∧ (∀ e a b, e ∈ edge_entries →
                PathPlanner.e_from e = Some a → PathPlanner.e_to e = Some b →
                (b, default 1%float (PathPlanner.e_cost e))
                ∈ default [] (PathPlanner.graph p !! a)).
Proof.
  eexists. split; [reflexivity|].
  apply (load_map_keeps_undeclared_endpoints Warehouse.dangling_json).
  reflexivity.
Defined.

(** C5 (as stated) fails: the file [dangling_json] declares node 1 only, its
    edges name nodes 2 and 3, and loading returns a graph that holds both
    edges. *)
Lemma load_map_dangling_edge_loaded :
  ∃ p, PathPlanner._load_map Warehouse.dangling_json = Returned p
       ∧ PathPlanner.nodes p !! 2 = None
       ∧ PathPlanner.nodes p !! 3 = None
       ∧ PathPlanner.graph p !! 1 = Some [(2, 1%float)]
       ∧ PathPlanner.graph p !! 3 = Some [(1, 1%float)].
Proof. eexists. split; [reflexivity|]. by vm_compute. Qed.

(** ** Lifting a shelf *)

(** C8 (as the code has it). Marking a shelf picked up succeeds for every
    known shelf, whatever its status: the shelf becomes [CARRIED] by the
    given robot, all its other fields (id, label, items, home node, current
    node) are untouched, and so are the other shelves, the item index and
    the set of shelf nodes. It fails, changing nothing, only for an unknown
    shelf id. *)
Theorem mark_shelf_picked_up_any_status (self : ShelfManager.t)
    (shelf_id robot_id : Z) :
  let r := ShelfManager.mark_shelf_picked_up self shelf_id robot_id in
  (∀ shelf, ShelfManager.shelves self !! shelf_id = Some shelf →
     r.1 = true
     ∧ ShelfManager.shelves r.2 !! shelf_id
       = Some {| Shelf.shelf_id := Shelf.shelf_id shelf;
                 Shelf.label := Shelf.label shelf;
                 Shelf.items := Shelf.items shelf;
                 Shelf.home_node := Shelf.home_node shelf;
                 Shelf.current_node := Shelf.current_node shelf;
                 Shelf.status := CARRIED;
                 Shelf.carried_by := Some robot_id |}
     ∧ (∀ other, other ≠ shelf_id →
          ShelfManager.shelves r.2 !! other = ShelfManager.shelves self !! other)
     ∧ ShelfManager.item_to_shelf r.2 = ShelfManager.item_to_shelf self
     ∧ ShelfManager.all_shelf_nodes r.2 = ShelfManager.all_shelf_nodes self)
  ∧ (ShelfManager.shelves self !! shelf_id = None → r = (false, self)).
Proof.
  unfold ShelfManager.mark_shelf_picked_up. simpl. split.
  - intros shelf ->. simpl. split; [done|]. split.
    + by rewrite lookup_insert_eq.
    + split; [|done]. intros other Hne. by rewrite lookup_insert_ne.
  - by intros ->.
Qed.

(** C8 (as stated) fails: shelf 9 is [CARRIED] by robot 1, and marking it
    picked up by robot 2 answers [True] and hands the shelf to robot 2. *)
Lemma mark_shelf_picked_up_carried_succeeds :
  (Shelf.status <$> ShelfManager.shelves Warehouse.shelf_manager_carried !! 9) = Some CARRIED
  ∧ (Shelf.carried_by <$> ShelfManager.shelves Warehouse.shelf_manager_carried !! 9)
    = Some (Some 1)
  ∧ (ShelfManager.mark_shelf_picked_up Warehouse.shelf_manager_carried 9 2).1 = true
  ∧ (Shelf.carried_by <$>
       ShelfManager.shelves
         (ShelfManager.mark_shelf_picked_up Warehouse.shelf_manager_carried 9 2).2 !! 9)
    = Some (Some 2).
Proof. by vm_compute. Qed.


(** ** Creating tasks *)

Section creation.
Import ShelfManager.

Lemma result_append_nonempty result shelf_id item :
  result_append result shelf_id item ≠ [].
Proof.
  destruct result as [|[k its] result]; simpl; [done|].
  by destruct (k =? shelf_id).
Qed.

Lemma collect_keeps_nonempty self items result :
  result ≠ [] → fold_left (collect self) items result ≠ [].
Proof.
  revert result. induction items as [|item items IH]; intros result Hne; simpl.
  - done.
  - apply IH. unfold collect.
    destruct (item_to_shelf self !! item); [apply result_append_nonempty | done].
Qed.

Lemma find_shelves_for_items_nil self items :
  find_shelves_for_items self items = []
  ↔ ∀ item, item ∈ items → item_to_shelf self !! item = None.
Proof.
  unfold find_shelves_for_items.
  induction items as [|item items IH]; simpl.
  - split; [|done]. intros _ item Hin. by apply elem_of_nil in Hin.
  - unfold collect at 2.
    destruct (item_to_shelf self !! item) as [shelf_id|] eqn:E.
    + split.
      * intros H. exfalso. revert H. apply collect_keeps_nonempty.
        apply result_append_nonempty.
      * intros H. specialize (H item). rewrite E in H.
        discriminate H. apply elem_of_cons. by left.
    + rewrite IH. split.
      * intros H it [->|Hin]%elem_of_cons; [done | by apply H].
      * intros H it Hin. apply H. apply elem_of_cons. by right.
Qed.
End creation.

(** C4 (as stated) fails: item "ZZZ" is on no shelf, and the request for
    ["A"; "ZZZ"] is accepted and registered, with shelf 9 to visit. *)
Lemma create_task_unknown_item_accepted :
  ShelfManager.item_to_shelf Warehouse.shelf_manager !! "ZZZ" = None
  ∧ ∃ task,
      TaskManager.create_task Warehouse.task_manager "T9" 50 ["A"; "ZZZ"]
      = (Some task,
         (TaskManager.create_task Warehouse.task_manager "T9" 50 ["A"; "ZZZ"]).2)
      ∧ TaskManager.tasks
          (TaskManager.create_task Warehouse.task_manager "T9" 50 ["A"; "ZZZ"]).2 !! "T9"
        = Some task
      ∧ PickingTask.shelf_sequence task = [9]
      ∧ PickingTask.items task = ["A"; "ZZZ"].
Proof. split; [by vm_compute|]. eexists. by vm_compute. Qed.

(** ** Pick completion *)

(** The pick is recorded before the kind of the current sub-task is looked
    at: on a task that is not waiting for a pick, the answer is an error and
    the item has joined [items_picked]. *)
Lemma handle_item_picked_records_first (self : TaskManager.t)
    (task_id item : string) (task : PickingTask.t) :
  TaskManager.tasks self !! task_id = Some task →
  (∀ st, PickingTask.get_current_subtask task = Some st →
         SubTask.subtask_type st ≠ WAIT_PICKING) →
  item ∉ PickingTask.items_picked task →
  ∃ self',
    TaskManager.handle_item_picked self task_id item
    = (TaskManager.Error "Not in WAIT_PICKING state", self')
    ∧ TaskManager.tasks self' !! task_id
      = Some (PickingTask.with_items_picked task
                (PickingTask.items_picked task ++ [item])).
Proof.
  intros Ht Hkind Hnew. unfold TaskManager.handle_item_picked. rewrite Ht.
  rewrite bool_decide_eq_false_2 by done.
  change (PickingTask.get_current_subtask
            (PickingTask.with_items_picked task _))
    with (PickingTask.get_current_subtask task).
  destruct (PickingTask.get_current_subtask task) as [st|] eqn:E.
  - specialize (Hkind st eq_refl).
    destruct (SubTask.subtask_type st); try done;
      (eexists; split; [reflexivity|]; simpl; by rewrite lookup_insert_eq).
  - eexists; split; [reflexivity|]; simpl; by rewrite lookup_insert_eq.
Qed.

(** C3 (what the code does at the failing input). Task T1 has been handed to
    robot 1 and its current sub-task is [GO_TO_SHELF]; a pick of item "A" is
    reported. The answer is the error, the cursor stays at 0, and "A" is
    now recorded as picked. *)
Theorem handle_item_picked_error_mutates :
  (SubTask.subtask_type <$>
     (TaskManager.tasks Warehouse.after_start !! "T1"
        ≫= PickingTask.get_current_subtask)) = Some GO_TO_SHELF
  ∧ (PickingTask.items_picked <$> TaskManager.tasks Warehouse.after_start !! "T1")
    = Some []
  ∧ (TaskManager.handle_item_picked Warehouse.after_start "T1" "A").1
    = TaskManager.Error "Not in WAIT_PICKING state"
  ∧ (PickingTask.current_subtask_idx <$>
       TaskManager.tasks
         (TaskManager.handle_item_picked Warehouse.after_start "T1" "A").2 !! "T1")
    = Some 0%nat
  ∧ (PickingTask.items_picked <$>
       TaskManager.tasks
         (TaskManager.handle_item_picked Warehouse.after_start "T1" "A").2 !! "T1")
    = Some ["A"].
Proof. by vm_compute. Qed.

(** ** Forwarding a shelf *)

Section forwarding.
Import TaskManager.

Lemma demand_elsewhere_spec self current_ws d :
  demand_elsewhere self current_ws d = true
  ↔ needs_shelf_elsewhere self current_ws d.
Proof.
  unfold demand_elsewhere, needs_shelf_elsewhere.
  rewrite andb_true_iff, negb_true_iff, Z.eqb_neq.
  apply and_iff_compat_l.
  destruct (tasks self !! d_task_id d) as [other|]; last first.
  { split; [done|]. by intros (other & ? & _). }
  assert (Hneed : (∃ i, i ∈ d_items d ∧ i ∉ PickingTask.items_picked other)
                  ↔ still_needed d other ≠ []).
  { unfold still_needed. split.
    - intros (i & Hi & Hni) Hnil.
      assert (Hin : i ∈ filter (λ i, i ∉ PickingTask.items_picked other) (d_items d))
        by (apply list_elem_of_filter; done).
      rewrite Hnil in Hin. by apply elem_of_nil in Hin.
    - intros Hne.
      destruct (filter _ (d_items d)) as [|i l] eqn:E; [done|].
      assert (Hin : i ∈ filter (λ i, i ∉ PickingTask.items_picked other) (d_items d))
        by (rewrite E; apply elem_of_cons; by left).
      apply list_elem_of_filter in Hin as [Hni Hi]. exists i. by split. }
  split.
  - intros H. exists other. split; [done|].
    destruct (PickingTask.status other); try done;
      (split; [by (left + right)|]); apply Hneed;
      by destruct (still_needed d other).
  - intros (other' & [= <-] & Hst & Hn). apply Hneed in Hn.
    destruct Hst as [-> | ->]; by destruct (still_needed d other).
Qed.

Lemma first_elsewhere_spec self current_ws demands :
  match first_elsewhere self current_ws demands with
  | Some ws =>
      ∃ ds1 d ds2, demands = ds1 ++ d :: ds2
        ∧ needs_shelf_elsewhere self current_ws d
        ∧ ws = d_workstation_id d
        ∧ ∀ d', d' ∈ ds1 → ¬ needs_shelf_elsewhere self current_ws d'
  | None => ∀ d, d ∈ demands → ¬ needs_shelf_elsewhere self current_ws d
  end.
Proof.
  induction demands as [|d demands IH]; simpl.
  - intros d Hd. by apply elem_of_nil in Hd.
  - destruct (demand_elsewhere self current_ws d) eqn:E.
    + exists [], d, demands. split; [done|].
      split; [by apply demand_elsewhere_spec|]. split; [done|].
      intros d' Hd'. by apply elem_of_nil in Hd'.
    + assert (Hd : ¬ needs_shelf_elsewhere self current_ws d).
      { rewrite <- demand_elsewhere_spec. by rewrite E. }
      destruct (first_elsewhere self current_ws demands) as [ws|].
      * destruct IH as (ds1 & d0 & ds2 & -> & Hn & -> & Hfirst).
        exists (d :: ds1), d0, ds2. split; [done|]. split; [done|].
        split; [done|].
        intros d' [->|Hd']%elem_of_cons; [done | by apply Hfirst].
      * intros d' [->|Hd']%elem_of_cons; [done | by apply IH].
Qed.
End forwarding.

(** C6 (as the code has it). The forwarding check walks the demand list of
    the shelf in the order in which the tasks were registered and answers
    the station of the first entry that still needs the shelf elsewhere;
    distances play no part. When the task has a next sub-task, the
    forwarding decision sends the shelf to that station. *)
Theorem forwarding_takes_first_registered (self : TaskManager.t)
    (shelf_id current_ws : Z) :
  let demands := default [] (TaskManager.shelf_demand self !! shelf_id) in
  match TaskManager._check_shelf_needed_elsewhere self shelf_id current_ws with
  | Some ws =>
      (∃ ds1 d ds2, demands = ds1 ++ d :: ds2
         ∧ needs_shelf_elsewhere self current_ws d
         ∧ ws = TaskManager.d_workstation_id d
         ∧ ∀ d', d' ∈ ds1 → ¬ needs_shelf_elsewhere self current_ws d')
      ∧ ∀ task,
          PickingTask.workstation_id task = current_ws →
          is_Some (PickingTask.subtasks task !! S (PickingTask.current_subtask_idx task)) →
          (TaskManager._decide_shelf_action self task shelf_id).1
          = TaskManager.ShelfDoneForward ws shelf_id
  | None => ∀ d, d ∈ demands → ¬ needs_shelf_elsewhere self current_ws d
  end.
Proof.
  simpl. unfold TaskManager._check_shelf_needed_elsewhere.
  pose proof (first_elsewhere_spec self current_ws
                (default [] (TaskManager.shelf_demand self !! shelf_id))) as H.
  destruct (TaskManager.first_elsewhere self current_ws _) as [ws|] eqn:E; [|done].
  split; [done|]. intros task Hws [nxt Hnxt].
  unfold TaskManager._decide_shelf_action, TaskManager._check_shelf_needed_elsewhere.
  rewrite Hws, E. unfold PickingTask.advance_subtask.
  case_bool_decide.
  - rewrite list_lookup_alter_ne by lia. rewrite Hnxt. done.
  - rewrite Hnxt. done.
Qed.

(** C6 (as stated) fails: shelf 9 stands at station 50 with T1 fully picked;
    T2 (station 51) and T3 (station 52) both still need it. Station 52 is
    nearer than station 51, from station 50 as from the shelf's home node,
    yet the shelf is forwarded to station 51, the first registered. *)
Lemma forwarding_ignores_distance :
  needs_shelf_elsewhere Warehouse.at_station 50
    {| TaskManager.d_task_id := "T2"; TaskManager.d_workstation_id := 51;
       TaskManager.d_items := ["C"] |}
  ∧ needs_shelf_elsewhere Warehouse.at_station 50
      {| TaskManager.d_task_id := "T3"; TaskManager.d_workstation_id := 52;
         TaskManager.d_items := ["D"] |}
  ∧ TaskManager.shelf_demand Warehouse.at_station !! 9
    = Some [ {| TaskManager.d_task_id := "T1"; TaskManager.d_workstation_id := 50;
                TaskManager.d_items := ["A"] |};
             {| TaskManager.d_task_id := "T2"; TaskManager.d_workstation_id := 51;
                TaskManager.d_items := ["C"] |};
             {| TaskManager.d_task_id := "T3"; TaskManager.d_workstation_id := 52;
                TaskManager.d_items := ["D"] |} ]
  ∧ (PathPlanner._heuristic Warehouse.planner 50 52
     <? PathPlanner._heuristic Warehouse.planner 50 51)%float = true
  ∧ (PathPlanner._heuristic Warehouse.planner 9 52
     <? PathPlanner._heuristic Warehouse.planner 9 51)%float = true
  ∧ TaskManager._check_shelf_needed_elsewhere Warehouse.at_station 9 50 = Some 51
  ∧ (TaskManager.handle_item_picked Warehouse.at_station "T1" "A").1
    = TaskManager.ShelfDoneForward 51 9.
Proof.
  split; [|split]; [| |by vm_compute].
  - apply demand_elsewhere_spec. by vm_compute.
  - apply demand_elsewhere_spec. by vm_compute.
Qed.

(** ** Choosing a robot *)

Section idle.
Import RobotManager.

(** [get_idle_robot] answers the first idle robot of the registry, in the
    order in which the robots were installed. *)
Lemma first_idle_spec values :
  match first_idle values with
  | Some robot =>
      ∃ busy rest, values = busy ++ robot :: rest
        ∧ Robot.status robot = IDLE
        ∧ Forall (λ r, Robot.status r ≠ IDLE) busy
  | None => Forall (λ r, Robot.status r ≠ IDLE) values
  end.
Proof.
  induction values as [|robot values IH]; simpl; [done|].
  destruct (Robot.status robot) eqn:E.
  - exists [], values. by repeat split.
  - destruct (first_idle values) as [r|].
    + destruct IH as (busy & rest & -> & Hidle & Hbusy).
      exists (robot :: busy), rest. repeat split; [done|].
      constructor; [by rewrite E | done].
    + constructor; [by rewrite E | done].
  - destruct (first_idle values) as [r|].
    + destruct IH as (busy & rest & -> & Hidle & Hbusy).
      exists (robot :: busy), rest. repeat split; [done|].
      constructor; [by rewrite E | done].
    + constructor; [by rewrite E | done].
Qed.

Lemma get_idle_robot_none self :
  get_idle_robot self = None
  ↔ Forall (λ r, Robot.status r ≠ IDLE) (snd <$> robots self).
Proof.
  unfold get_idle_robot.
  pose proof (first_idle_spec (snd <$> robots self)) as H.
  destruct (first_idle (snd <$> robots self)) as [robot|]; [|done].
  destruct H as (busy & rest & -> & Hidle & _). split; [done|].
  intros H. apply Forall_app in H as [_ H]. by inversion H.
Qed.
End idle.

(** The order of the floats, from the specification of the comparison. *)
Section float_order.







End float_order.

Section nearest.
Import RobotManager.
Variable path_planner : PathPlanner.t.
Variable target_node : Z.

Local Abbreviation dist robot :=
  (PathPlanner._heuristic path_planner (Robot.current_node robot) target_node).

(** What the scan has established about the robots [seen] so far. *)
Local Abbreviation best_of best seen :=
  (match best with
   | Some b =>
       b ∈ seen ∧ Robot.status b = IDLE
       ∧ ∀ other, other ∈ seen → Robot.status other = IDLE →
           (dist other <? dist b)%float = false
   | None => ∀ robot, robot ∈ seen → Robot.status robot ≠ IDLE
   end).

End nearest.


(** ** The space-time search *)

Section consecutive_facts.
Context {A : Type} (R : A → A → Prop).

Lemma consecutive_adjacent l a b :
  consecutive R l → adjacent a b l → R a b.
Proof.
  intros Hc (l1 & l2 & ->). induction l1 as [|x l1 IH]; simpl in *.
  - tauto.
  - apply IH. destruct (l1 ++ a :: b :: l2); [exact I | tauto].
Qed.

Lemma consecutive_cons a b l :
  R a b → consecutive R (b :: l) → consecutive R (a :: b :: l).
Proof. intros. by split. Qed.

End consecutive_facts.

Section adjacent_facts.
Context {A : Type}.

Lemma adjacent_cons (a b x : A) l : adjacent a b l → adjacent a b (x :: l).
Proof. intros (l1 & l2 & ->). by exists (x :: l1), l2. Qed.

Lemma adjacent_inv (a b x : A) l :
  adjacent a b (x :: l) → (a = x ∧ head l = Some b) ∨ adjacent a b l.
Proof.
  intros (l1 & l2 & H). destruct l1 as [|y l1]; simpl in H.
  - injection H as -> ->. by left.
  - injection H as -> ->. right. by exists l1, l2.
Qed.

Lemma adjacent_elem_of (a b : A) l : adjacent a b l → a ∈ l ∧ b ∈ l.
Proof.
  intros (l1 & l2 & ->). split; apply elem_of_app; right.
  - apply elem_of_cons. by left.
  - apply elem_of_cons. right. apply elem_of_cons. by left.
Qed.
End adjacent_facts.

Section heap_facts.
Import PathPlanner.

Lemma heappop_elem heap x rest :
  heappop heap = Some (x, rest) → x ∈ heap ∧ ∀ y, y ∈ rest → y ∈ heap.
Proof.
  revert x rest. induction heap as [|a heap IH]; intros x rest; simpl.
  - discriminate.
  - destruct (heappop heap) as [[y r]|].
    + pose proof (IH y r eq_refl) as [Hy Hr]. clear IH.
      destruct (entry_lt y a).
      * intros [= <- <-]. split; [by apply elem_of_cons; right|].
        intros z [->|Hz]%elem_of_cons; apply elem_of_cons; [by left|].
        right. by apply Hr.
      * intros [= <- <-]. split; [by apply elem_of_cons; left|].
        intros z Hz. apply elem_of_cons. by right.
    + intros [= <- <-]. split; [by apply elem_of_cons; left|].
      intros z Hz. by apply elem_of_nil in Hz.
Qed.
End heap_facts.

Section search_facts.
Import PathPlanner.
Variable self : t.
Variables start goal : Z.
Variable reserved_nodes : gset (Z * Z).
Variable reserved_edges : gset (Z * Z * Z).
Variable max_time : Z.

Local Arguments relax : simpl never.
Local Arguments neighbors : simpl never.
Local Arguments fold_left : simpl never.

Local Abbreviation inv := (search_inv self start reserved_nodes reserved_edges).
Local Abbreviation legal := (legal_step self reserved_nodes reserved_edges).

Lemma reached_insert cf k v s :
  reached start cf s → reached start (<[k := v]> cf) s.
Proof.
  intros [->|[p Hp]]; [by left|]. right.
  destruct (decide (k = s)) as [->|Hne].
  - rewrite lookup_insert_eq. by eexists.
  - rewrite lookup_insert_ne by done. by eexists.
Qed.

Lemma search_inv_initial :
  inv {| open_heap := heappush [] (_heuristic self start goal, 0%float, start, 0);
         came_from := ∅;
         g_score := {[ (start, 0) := 0%float ]} |}.
Proof.
  split; simpl.
  - intros f g n tm Hin. apply list_elem_of_singleton in Hin.
    injection Hin as _ _ -> ->. by left.
  - intros c p Hp. by rewrite lookup_empty in Hp.
Qed.

Lemma search_inv_pop s x rest :
  inv s → heappop (open_heap s) = Some (x, rest) →
  inv {| open_heap := rest; came_from := came_from s; g_score := g_score s |}.
Proof.
  intros [Hh Hp] Hpop. apply heappop_elem in Hpop as [_ Hrest].
  split; simpl; [|done]. intros f g n tm Hin. by apply (Hh f g), Hrest.
Qed.

(** Relaxing one neighbour keeps the invariant: a state enters the parent
    map only through a legal step from a state already reached. *)
Lemma search_inv_relax s cur_node tm g nxt_node step_cost :
  inv s →
  reached start (came_from s) (cur_node, tm) →
  nxt_node = cur_node ∨ out_neighbor self cur_node nxt_node →
  inv (relax self goal reserved_nodes reserved_edges cur_node tm g s
         (nxt_node, step_cost)).
Proof.
  intros Hinv Hcur Hnb. unfold relax.
  case_bool_decide as Hrn; [done|].
  destruct (negb (nxt_node =? cur_node)
            && bool_decide ((nxt_node, cur_node, tm) ∈ reserved_edges)) eqn:Hre;
    [done|].
  destruct (_ <? _)%float; [|done].
  destruct Hinv as [Hh Hp]. split; simpl.
  - intros f' g' n t' [Heq|Hin]%elem_of_cons.
    + injection Heq as _ _ -> ->. right. rewrite lookup_insert_eq. by eexists.
    + apply reached_insert. by apply (Hh f' g').
  - intros c p Hc. destruct (decide ((nxt_node, tm + 1) = c)) as [<-|Hne].
    + rewrite lookup_insert_eq in Hc. injection Hc as <-.
      split; [|by apply reached_insert].
      split; [by split|]. split; [done|]. simpl. intros Hmove.
      apply andb_false_iff in Hre as [Hre|Hre].
      * apply negb_false_iff, Z.eqb_eq in Hre. done.
      * by apply bool_decide_eq_false in Hre.
    + rewrite lookup_insert_ne in Hc by done.
      destruct (Hp c p Hc) as [Hstep Hreach].
      split; [done | by apply reached_insert].
Qed.

Lemma relax_came_from_mono s cur_node tm g nb c :
  reached start (came_from s) c →
  reached start
    (came_from (relax self goal reserved_nodes reserved_edges cur_node tm g s nb)) c.
Proof.
  intros Hc. unfold relax. destruct nb as [nxt_node step_cost].
  case_bool_decide; [done|].
  destruct (negb _ && _); [done|].
  destruct (_ <? _)%float; [|done]. simpl. by apply reached_insert.
Qed.

Lemma search_inv_expand nbs s cur_node tm g :
  inv s →
  reached start (came_from s) (cur_node, tm) →
  (∀ nb, nb ∈ nbs → nb.1 = cur_node ∨ out_neighbor self cur_node nb.1) →
  inv (fold_left (relax self goal reserved_nodes reserved_edges cur_node tm g) nbs s).
Proof.
  revert s. induction nbs as [|[nxt_node step_cost] nbs IH]; intros s Hinv Hcur Hnbs;
    cbn [fold_left]; [done|].
  apply IH.
  - apply search_inv_relax; [done..|]. apply (Hnbs (nxt_node, step_cost)). set_solver.
  - by apply relax_came_from_mono.
  - intros nb Hnb. apply Hnbs. set_solver.
Qed.

Lemma neighbors_are_steps cur_node nb :
  nb ∈ neighbors self cur_node →
  nb.1 = cur_node ∨ out_neighbor self cur_node nb.1.
Proof.
  unfold neighbors. intros [->|Hin]%elem_of_cons; [by left|].
  right. exists nb.2. by destruct nb.
Qed.

(** Walking the parent map back from a reached state ends on the start
    state, and the walk read forwards is a chain of legal steps. *)
Lemma reconstruct_spec s fuel cur path tl res :
  inv s →
  reached start (came_from s) cur →
  rev path = cur :: tl →
  consecutive legal (cur :: tl) →
  reconstruct fuel (came_from s) cur path = Returned res →
  (∃ rest, res = (start, 0) :: rest)
  ∧ consecutive legal res
  ∧ last res = last (cur :: tl).
Proof.
  intros Hinv. revert cur path tl.
  induction fuel as [|fuel IH]; intros cur path tl Hcur Hrev Hchain; simpl.
  - destruct (came_from s !! cur) as [prev|] eqn:E; [discriminate|].
    intros [= <-]. rewrite Hrev.
    destruct Hcur as [->|[p Hp]]; [|congruence].
    split; [by eexists|]. done.
  - destruct (came_from s !! cur) as [prev|] eqn:E.
    + intros Hres. destruct (inv_parent _ _ _ _ _ Hinv _ _ E) as [Hstep Hprev].
      assert (Hrev' : rev (path ++ [prev]) = prev :: cur :: tl)
        by (by rewrite rev_unit, Hrev).
      assert (Hchain' : consecutive legal (prev :: cur :: tl))
        by (by apply consecutive_cons).
      apply (IH prev (path ++ [prev]) (cur :: tl) Hprev Hrev' Hchain' Hres).
    + intros [= <-]. rewrite Hrev.
      destruct Hcur as [->|[p Hp]]; [|congruence].
      split; [by eexists|]. done.
Qed.

Lemma astar_loop_spec fuel s path :
  inv s →
  astar_loop self goal reserved_nodes reserved_edges max_time fuel s
  = Returned (Some path) →
  planned_path self start goal reserved_nodes reserved_edges path.
Proof.
  revert s. induction fuel as [|fuel IH]; intros s Hinv; simpl; [discriminate|].
  destruct (heappop (open_heap s)) as [[[[[f g] cur_node] tm] rest]|] eqn:Hpop;
    [|discriminate].
  pose proof (search_inv_pop _ _ _ Hinv Hpop) as Hinv'.
  assert (Hcur : reached start (came_from s) (cur_node, tm)).
  { apply heappop_elem in Hpop as [Hin _]. by apply (inv_heap _ _ _ _ _ Hinv f g). }
  destruct (Z.eqb_spec cur_node goal) as [->|Hne].
  - destruct (reconstruct fuel (came_from s) (goal, tm) [(goal, tm)]) as [res| |] eqn:Hrec;
      simpl; [|discriminate..].
    intros [= <-].
    destruct (reconstruct_spec s fuel (goal, tm) [(goal, tm)] [] res)
      as (H1 & H2 & H3); try done.
    split; [done|]. split; [done|]. by exists tm.
  - destruct (tm >=? max_time).
    + by apply IH.
    + apply IH. apply search_inv_expand; [exact Hinv' | exact Hcur |].
      apply neighbors_are_steps.
Qed.

Lemma astar_with_time_spec fuel path :
  astar_with_time self start goal reserved_nodes reserved_edges max_time fuel
  = Returned (Some path) →
  planned_path self start goal reserved_nodes reserved_edges path.
Proof. apply astar_loop_spec, search_inv_initial. Qed.
End search_facts.


Lemma planned_path_is_walk (self : PathPlanner.t) (start goal : Z)
    (reserved_nodes : gset (Z * Z)) (reserved_edges : gset (Z * Z * Z))
    (path : list (Z * Z)) :
  planned_path self start goal reserved_nodes reserved_edges path →
  consecutive (step_ok self) path ∧ ∃ rest, path = (start, 0) :: rest.
Proof.
  intros (Hhead & Hsteps & _). split; [|done]. clear Hhead.
  induction path as [|a [|b path] IH]; simpl in *; [done..|].
  destruct Hsteps as [[Hstep _] Hrest]. split; [done | by apply IH].
Qed.

(** ** Prioritized planning *)

Section reservation_facts.
Import PathPlanner.

Lemma covered_mono p rn re rn' re' :
  covered p rn re → rn ⊆ rn' → re ⊆ re' → covered p rn' re'.
Proof.
  intros [Hn He] Hrn Hre. split.
  - intros s Hs. by apply Hrn, Hn.
  - intros a b Hab Hmove. by apply Hre, He.
Qed.

Lemma reserve_path_spec path rn re :
  rn ⊆ (reserve_path path rn re).1
  ∧ re ⊆ (reserve_path path rn re).2
  ∧ covered path (reserve_path path rn re).1 (reserve_path path rn re).2.
Proof.
  revert rn re. induction path as [|[node_i t_i] rest IH]; intros rn re.
  - simpl. split; [done|]. split; [done|]. split.
    + intros s Hs. by apply elem_of_nil in Hs.
    + intros a b (l1 & l2 & Hl). by destruct l1.
  - cbn [reserve_path].
    set (rn1 := {[ (node_i, t_i) ]} ∪ rn).
    set (re1 := match rest with
                | [] => re
                | (node_j, _) :: _ =>
                    if negb (node_j =? node_i)
                    then {[ (node_i, node_j, t_i) ]} ∪ re else re
                end).
    destruct (IH rn1 re1) as (Hrn & Hre & [Hn He]). clear IH.
    assert (Hrn1 : rn ⊆ rn1) by apply union_subseteq_r.
    assert (Hre1 : re ⊆ re1).
    { unfold re1. destruct rest as [|[node_j t_j] ?]; [done|].
      destruct (negb _); [apply union_subseteq_r | done]. }
    split; [by etrans|]. split; [by etrans|]. split.
    + intros s [->|Hs]%elem_of_cons; [|by apply Hn].
      apply Hrn, elem_of_union_l, elem_of_singleton. done.
    + intros a b [[-> Hb]|Hab]%adjacent_inv Hmove; [|by apply He].
      apply Hre. unfold re1. destruct rest as [|[node_j t_j] ?]; [done|].
      injection Hb as <-. simpl in *.
      destruct (Z.eqb_spec node_j node_i); [done|].
      apply elem_of_union_l, elem_of_singleton. done.
Qed.

Lemma reserve_goal_mono goal_node goal_t stay rn :
  rn ⊆ reserve_goal goal_node goal_t stay rn.
Proof.
  unfold reserve_goal. generalize (seqZ 1 stay). intros dts. revert rn.
  induction dts as [|dt dts IH]; intros rn; simpl; [done|].
  etrans; [|apply IH]. apply union_subseteq_r.
Qed.

Section one_path.
Variable self : t.
Variables start goal : Z.
Variable rn : gset (Z * Z).
Variable re : gset (Z * Z * Z).

(** Past its first state a planned path is clear of the reservations,
    and time has moved on. *)
Lemma legal_chain_tail a rest :
  consecutive (legal_step self rn re) (a :: rest) →
  ∀ s, s ∈ rest → (s ∉ rn) ∧ a.2 < s.2.
Proof.
  revert a. induction rest as [|b rest IH]; intros a Hc s Hs.
  - by apply elem_of_nil in Hs.
  - destruct Hc as [[[Htime _] [Hfree _]] Hc].
    apply elem_of_cons in Hs as [->|Hs].
    + split; [done | lia].
    + destruct (IH b Hc s Hs). split; [done | lia].
Qed.

Lemma planned_path_tail path :
  planned_path self start goal rn re path →
  ∀ s, s ∈ path → s = (start, 0) ∨ ((s ∉ rn) ∧ 0 < s.2).
Proof.
  intros ([rest ->] & Hc & _) s [->|Hs]%elem_of_cons; [by left|].
  right. by apply (legal_chain_tail _ _ Hc).
Qed.

(** A path planned against a table that covers [p] meets [p] at most
    on its own start state, and never swaps places with [p]. *)
Lemma planned_path_avoids p q :
  covered p rn re → planned_path self start goal rn re q →
  (∀ s, s ∈ p → s ∈ q → s = (start, 0)) ∧ ¬ swap_conflict p q.
Proof.
  intros [Hn He] Hq. split.
  - intros s Hp Hsq.
    destruct (planned_path_tail q Hq s Hsq) as [->|[Hfree _]]; [done|].
    by apply Hn in Hp.
  - intros (u & v & tm & Hp & Hqa).
    destruct Hq as (_ & Hc & _).
    destruct (consecutive_adjacent _ _ _ _ Hc Hqa) as [_ [Hfree Hswap]].
    simpl in *. destruct (decide (u = v)) as [->|Hne].
    + apply Hfree, Hn. by destruct (adjacent_elem_of _ _ _ Hp).
    + apply (Hswap Hne). apply (He _ _ Hp). simpl. congruence.
Qed.
End one_path.
End reservation_facts.

Section prioritized_facts.
Import PathPlanner.
Variable self : t.
Variables starts goals : list Z.
Variables max_time stay_time_at_goal : Z.
Variable fuel : nat.

Local Abbreviation upto := (planned_upto self starts goals).

Lemma planned_upto_initial :
  upto 0%nat ∅ ∅ (replicate (length starts) None).
Proof. split; [apply length_replicate | intros i Hi; lia]. Qed.

(** Recording the path of robot [k] moves the invariant from [k] to
    [S k]. *)
Lemma planned_upto_step k rn re paths start goal path rn' re' :
  upto k rn re paths →
  (k < length starts)%nat →
  starts !! k = Some start → goals !! k = Some goal →
  planned_path self start goal rn re path →
  covered path rn' re' → rn ⊆ rn' → re ⊆ re' →
  upto (S k) rn' re' (<[k := Some path]> paths).
Proof.
  intros [Hlen Hdone] Hk Hstart Hgoal Hpath Hcov Hrn Hre. split.
  - by rewrite length_insert.
  - intros i Hi. destruct (decide (i = k)) as [->|Hne].
    + exists path, start, goal, rn, re.
      rewrite list_lookup_insert_eq by lia. split_and!; try done.
      intros j q Hj Hq. rewrite list_lookup_insert_ne in Hq by lia.
      destruct (Hdone j Hj) as (p' & ? & ? & ? & ? & Hp' & _ & _ & _ & Hc & _).
      rewrite Hp' in Hq. injection Hq as <-. done.
    + destruct (Hdone i ltac:(lia))
        as (p & st & gl & rn_i & re_i & Hp & Hs & Hg & Hpl & Hc & Hprev).
      exists p, st, gl, rn_i, re_i.
      rewrite list_lookup_insert_ne by lia. split_and!; try done.
      * by apply (covered_mono p rn re).
      * intros j q Hj Hq. rewrite list_lookup_insert_ne in Hq by lia.
        by apply (Hprev j).
Qed.

Lemma plan_robots_spec m k rn re paths res :
  (k + m = length starts)%nat →
  upto k rn re paths →
  plan_robots self starts goals max_time stay_time_at_goal fuel (seq k m) rn re paths
  = Returned (Some res) →
  ∃ paths' rn' re', upto (length starts) rn' re' paths' ∧ res = omap id paths'.
Proof.
  revert k rn re paths. induction m as [|m IH]; intros k rn re paths Hkm Hupto.
  - simpl. intros [= <-]. exists paths, rn, re.
    replace (length starts) with k by lia. done.
  - cbn [seq plan_robots].
    destruct (starts !! k) as [start|] eqn:Hstart; [|discriminate].
    destruct (goals !! k) as [goal|] eqn:Hgoal; [|discriminate].
    cbn [obind].
    destruct (astar_with_time self start goal rn re max_time fuel)
      as [[path|]| |] eqn:Hastar; cbn [obind]; [|discriminate..].
    apply astar_with_time_spec in Hastar.
    pose proof (reserve_path_spec path rn re) as (Hrn & Hre & Hcov).
    destruct (reserve_path path rn re) as [rn1 re1]. simpl in Hrn, Hre, Hcov.
    destruct (last path) as [[goal_node goal_t]|]; [|discriminate].
    apply IH; [lia|].
    pose proof (reserve_goal_mono goal_node goal_t stay_time_at_goal rn1) as Hstay.
    apply (planned_upto_step k rn re paths start goal path); try done.
    + lia.
    + by apply (covered_mono path rn1 re1).
    + by etrans.
Qed.

Lemma omap_id_all_Some {A} (l : list (option A)) :
  (∀ i, (i < length l)%nat → ∃ x, l !! i = Some (Some x)) →
  Some <$> omap id l = l.
Proof.
  induction l as [|o l IH]; intros Hall; [done|].
  destruct (Hall 0%nat) as [x Hx]; [simpl; lia|]. injection Hx as ->.
  simpl. f_equal. apply IH. intros i Hi. apply (Hall (S i)). simpl. lia.
Qed.

(** What a returned plan is made of. *)
Lemma prioritized_planning_spec res :
  prioritized_planning self starts goals max_time stay_time_at_goal fuel
  = Returned (Some res) →
  ∃ paths rn re, upto (length starts) rn re paths ∧ paths = Some <$> res.
Proof.
  intros H. unfold prioritized_planning in H.
  apply plan_robots_spec in H as (paths & rn & re & Hupto & ->);
    [|lia|apply planned_upto_initial].
  exists paths, rn, re. split; [done|]. symmetry. apply omap_id_all_Some.
  destruct Hupto as [Hlen Hdone]. intros i Hi. rewrite Hlen in Hi.
  destruct (Hdone i Hi) as (p & _ & _ & _ & _ & Hp & _). by exists p.
Qed.

Lemma prioritized_planning_paths res i p :
  prioritized_planning self starts goals max_time stay_time_at_goal fuel
  = Returned (Some res) →
  res !! i = Some p →
  ∃ start goal rn re,
    starts !! i = Some start ∧ goals !! i = Some goal
    ∧ planned_path self start goal rn re p.
Proof.
  intros (paths & rn & re & [Hlen Hdone] & ->)%prioritized_planning_spec Hp.
  assert (Hi : (i < length starts)%nat).
  { rewrite <- Hlen, length_fmap. by apply lookup_lt_Some in Hp. }
  destruct (Hdone i Hi) as (p' & st & gl & rn_i & re_i & Hp' & Hs & Hg & Hpl & _).
  rewrite list_lookup_fmap, Hp in Hp'. injection Hp' as <-.
  by exists st, gl, rn_i, re_i.
Qed.

Lemma prioritized_planning_pair res i j p q :
  prioritized_planning self starts goals max_time stay_time_at_goal fuel
  = Returned (Some res) →
  (i < j)%nat → res !! i = Some p → res !! j = Some q →
  (∀ n tm, (n, tm) ∈ p → (n, tm) ∈ q →
     tm = 0 ∧ starts !! i = Some n ∧ starts !! j = Some n)
  ∧ ¬ swap_conflict p q.
Proof.
  intros H Hij Hp Hq.
  destruct (prioritized_planning_paths res i p H Hp)
    as (st_i & gl_i & rn_i & re_i & Hsi & _ & Hpl_i).
  apply prioritized_planning_spec in H as (paths & rn & re & [Hlen Hdone] & ->).
  assert (Hj : (j < length starts)%nat).
  { rewrite <- Hlen, length_fmap. by apply lookup_lt_Some in Hq. }
  destruct (Hdone j Hj) as (q' & st_j & gl_j & rn_j & re_j & Hq' & Hsj & _ & Hpl_j & _ & Hprev).
  rewrite list_lookup_fmap, Hq in Hq'. injection Hq' as <-.
  assert (Hcov : covered p rn_j re_j).
  { apply (Hprev i); [done|]. by rewrite list_lookup_fmap, Hp. }
  destruct (planned_path_avoids self st_j gl_j rn_j re_j p q Hcov Hpl_j)
    as [Hmeet Hswap].
  split; [|done]. intros n tm Hnp Hnq.
  pose proof (Hmeet _ Hnp Hnq) as Heq. injection Heq as -> ->.
  destruct (planned_path_tail self st_i gl_i rn_i re_i p Hpl_i _ Hnp)
    as [Heq|[_ Hlt]]; [|simpl in Hlt; lia].
  injection Heq as <-. done.
Qed.
End prioritized_facts.

(** C2. Every path returned by [astar_with_time], hence by
    [plan_single_robot], and every path of a plan returned by
    [prioritized_planning], starts at time 0 on the robot's start node, and
    each of its steps goes from [(u, t)] to [(v, t + 1)] with [v = u] (a
    wait) or [v] an out-neighbour of [u] in the graph. *)
Theorem returned_paths_are_walks (self : PathPlanner.t) :
  (∀ start goal reserved_nodes reserved_edges max_time fuel path,
     PathPlanner.astar_with_time self start goal reserved_nodes reserved_edges
       max_time fuel = Returned (Some path) →
     consecutive (step_ok self) path ∧ ∃ rest, path = (start, 0) :: rest)
  ∧ (∀ start goal max_time fuel path,
       PathPlanner.plan_single_robot self start goal max_time fuel
       = Returned (Some path) →
       consecutive (step_ok self) path ∧ ∃ rest, path = (start, 0) :: rest)
  ∧ (∀ starts goals max_time stay_time_at_goal fuel paths (i : nat) p,
       PathPlanner.prioritized_planning self starts goals max_time
         stay_time_at_goal fuel = Returned (Some paths) →
       paths !! i = Some p →
       consecutive (step_ok self) p
       ∧ ∃ start rest, starts !! i = Some start ∧ p = (start, 0) :: rest).
Proof.
  split_and!.
  - intros start goal rn re max_time fuel path H.
    by apply astar_with_time_spec, planned_path_is_walk in H.
  - intros start goal max_time fuel path H. unfold PathPlanner.plan_single_robot in H.
    by apply astar_with_time_spec, planned_path_is_walk in H.
  - intros starts goals max_time stay fuel paths i p H Hp.
    destruct (prioritized_planning_paths self starts goals max_time stay fuel
                paths i p H Hp) as (start & goal & rn & re & Hs & _ & Hpl).
    apply planned_path_is_walk in Hpl as [Hwalk [rest ->]].
    split; [done|]. by exists start, rest.
Qed.

Lemma returned_paths_are_walks_witness :
  consecutive (step_ok Warehouse.planner) [(4, 0); (4, 1); (2, 2); (1, 3)]
  ∧ ∃ rest, [(4, 0); (4, 1); (2, 2); (1, 3)] = (4, 0) :: rest.
Proof.
  apply (proj1 (returned_paths_are_walks Warehouse.planner) 4 1
           {[ (1, 0); (2, 1); (3, 2); (3, 3); (3, 4); (3, 5) ]}
           {[ (1, 2, 0); (2, 3, 1) ]} 50 20%nat).
  vm_compute. reflexivity.
Defined.

(** C1 (as the code has it). In a plan returned by [prioritized_planning],
    two robots [i < j] never swap places, and their paths share a
    [(node, t)] only at [t = 0] on a start node common to both: the start
    state of a robot is never checked against the reservations. Hence,
    when the start nodes are pairwise distinct, the plan has no vertex
    conflict and no swap conflict. *)
Theorem prioritized_planning_meets_only_at_start (self : PathPlanner.t)
    (starts goals : list Z) (max_time stay_time_at_goal : Z) (fuel : nat)
    (paths : list (list (Z * Z))) :
  PathPlanner.prioritized_planning self starts goals max_time stay_time_at_goal fuel
  = Returned (Some paths) →
  (∀ (i j : nat) p q, (i < j)%nat → paths !! i = Some p → paths !! j = Some q →
     (∀ n t, (n, t) ∈ p → (n, t) ∈ q →
        t = 0 ∧ starts !! i = Some n ∧ starts !! j = Some n)
     ∧ ¬ swap_conflict p q)
  ∧ (NoDup starts → conflict_free paths).
Proof.
  intros H. split.
  - intros i j p q Hij Hp Hq.
    exact (prioritized_planning_pair self starts goals max_time stay_time_at_goal
             fuel paths i j p q H Hij Hp Hq).
  - intros Hnd i j p q Hij Hp Hq.
    destruct (prioritized_planning_pair self starts goals max_time stay_time_at_goal
                fuel paths i j p q H Hij Hp Hq) as [Hmeet Hswap].
    split; [|done]. intros ([n tm] & Hnp & Hnq).
    destruct (Hmeet n tm Hnp Hnq) as (_ & Hi & Hj).
    pose proof (NoDup_lookup _ _ _ _ Hnd Hi Hj). lia.
Qed.

(** Two robots on the adjacent nodes 1 and 2 that want to change places:
    robot 2 may not cross robot 1 on the edge, steps aside into the bay 4,
    waits there while robot 1 is parked on node 2, and then goes through. *)
Lemma prioritized_planning_meets_only_at_start_witness :
  (∀ (i j : nat) p q, (i < j)%nat →
     [[(1, 0); (2, 1)];
      [(2, 0); (4, 1); (4, 2); (4, 3); (4, 4); (2, 5); (1, 6)]] !! i = Some p →
     [[(1, 0); (2, 1)];
      [(2, 0); (4, 1); (4, 2); (4, 3); (4, 4); (2, 5); (1, 6)]] !! j = Some q →
     (∀ n t, (n, t) ∈ p → (n, t) ∈ q →
        t = 0 ∧ [1; 2] !! i = Some n ∧ [1; 2] !! j = Some n)
     ∧ ¬ swap_conflict p q)
  ∧ (NoDup [1; 2] →
     conflict_free
       [[(1, 0); (2, 1)];
        [(2, 0); (4, 1); (4, 2); (4, 3); (4, 4); (2, 5); (1, 6)]]).
Proof.
  apply (prioritized_planning_meets_only_at_start Warehouse.planner
           [1; 2] [2; 1] 50 3 40).
  vm_compute. reflexivity.
Defined.

(** C1 (as stated) fails: two robots that both stand on node 1 and both want
    node 1 are each given the path [[(1, 0)]]; the plan is returned and the
    two paths share [(1, 0)]. *)
Lemma prioritized_planning_same_start_conflict :
  PathPlanner.prioritized_planning Warehouse.planner [1; 1] [1; 1] 50 3 20
  = Returned (Some [[(1, 0)]; [(1, 0)]])
  ∧ ¬ conflict_free [[(1, 0)]; [(1, 0)]].
Proof.
  split; [by vm_compute|]. intros H.
  destruct (H 0%nat 1%nat [(1, 0)] [(1, 0)]) as [Hv _]; [lia | done | done |].
  apply Hv. exists (1, 0). split; apply list_elem_of_singleton; done.
Qed.

(** * Further properties of the planner *)

Section path_shape.
Variable self : PathPlanner.t.

Lemma walk_times a rest :
  consecutive (step_ok self) (a :: rest) →
  ∀ (i : nat) s, (a :: rest) !! i = Some s → s.2 = a.2 + Z.of_nat i.
Proof.
  revert a. induction rest as [|b rest IH]; intros a Hc i s Hs.
  - destruct i; [|done]. injection Hs as <-. lia.
  - destruct i as [|i]; [injection Hs as <-; lia|].
    destruct Hc as [[Htime _] Hc]. simpl in Hs.
    rewrite (IH b Hc i s Hs). lia.
Qed.

Lemma last_lookup_length {A} (l : list A) x :
  last l = Some x → l !! (length l - 1)%nat = Some x.
Proof. rewrite last_lookup. by replace (pred (length l)) with (length l - 1)%nat by lia. Qed.

(** A planned path is indexed by time, and arrives at the goal with its
    last state. *)
Lemma planned_path_shape start goal rn re path :
  planned_path self start goal rn re path →
  (∀ (i : nat) s, path !! i = Some s → s.2 = Z.of_nat i)
  ∧ last path = Some (goal, Z.of_nat (length path) - 1).
Proof.
  intros Hpl. pose proof (planned_path_is_walk _ _ _ _ _ _ Hpl) as [Hwalk [rest ->]].
  assert (Htimes : ∀ (i : nat) s, ((start, 0) :: rest) !! i = Some s → s.2 = Z.of_nat i).
  { intros i s Hs. by rewrite (walk_times _ _ Hwalk i s Hs). }
  split; [done|].
  destruct Hpl as (_ & _ & [t Hlast]). rewrite Hlast. do 2 f_equal.
  apply last_lookup_length in Hlast. apply Htimes in Hlast. simpl in *. lia.
Qed.
End path_shape.

Section horizon_facts.
Import PathPlanner.
Variable self : t.
Variables start goal : Z.
Variable reserved_nodes : gset (Z * Z).
Variable reserved_edges : gset (Z * Z * Z).
Variable max_time : Z.

Local Arguments relax : simpl never.
Local Arguments neighbors : simpl never.
Local Arguments fold_left : simpl never.

Lemma heap_within_relax s cur_node tm g nb :
  heap_within max_time s → 0 ≤ tm < max_time →
  heap_within max_time
    (relax self goal reserved_nodes reserved_edges cur_node tm g s nb).
Proof.
  intros Hs Htm. unfold relax. destruct nb as [nxt_node step_cost].
  case_bool_decide; [done|].
  destruct (negb _ && _); [done|].
  destruct (_ <? _)%float; [|done].
  intros f' g' n t' [Heq|Hin]%elem_of_cons.
  - injection Heq as _ _ _ ->. lia.
  - by apply (Hs f' g' n).
Qed.

Lemma heap_within_expand nbs s cur_node tm g :
  heap_within max_time s → 0 ≤ tm < max_time →
  heap_within max_time
    (fold_left (relax self goal reserved_nodes reserved_edges cur_node tm g) nbs s).
Proof.
  revert s. induction nbs as [|nb nbs IH]; intros s Hs Htm; cbn [fold_left]; [done|].
  apply IH; [|done]. by apply heap_within_relax.
Qed.

(** The state popped when the search returns lies within the horizon. *)
Lemma astar_loop_arrival fuel s path :
  search_inv self start reserved_nodes reserved_edges s →
  heap_within max_time s →
  astar_loop self goal reserved_nodes reserved_edges max_time fuel s
  = Returned (Some path) →
  ∃ tm, last path = Some (goal, tm) ∧ 0 ≤ tm ≤ Z.max 0 max_time.
Proof.
  revert s. induction fuel as [|fuel IH]; intros s Hinv Hheap; simpl; [discriminate|].
  destruct (heappop (open_heap s)) as [[[[[f g] cur_node] tm] rest]|] eqn:Hpop;
    [|discriminate].
  pose proof (search_inv_pop _ _ _ _ _ _ _ Hinv Hpop) as Hinv'.
  pose proof (heappop_elem _ _ _ Hpop) as [Hin Hrest].
  assert (Hcur : reached start (came_from s) (cur_node, tm))
    by (by apply (inv_heap _ _ _ _ _ Hinv f g)).
  assert (Htm : 0 ≤ tm ≤ Z.max 0 max_time) by (by apply (Hheap f g cur_node)).
  assert (Hheap' : heap_within max_time
            {| open_heap := rest; came_from := came_from s; g_score := g_score s |}).
  { intros f' g' n t' Hin'. apply (Hheap f' g' n). by apply Hrest. }
  destruct (Z.eqb_spec cur_node goal) as [->|Hne].
  - destruct (reconstruct fuel (came_from s) (goal, tm) [(goal, tm)]) as [res| |] eqn:Hrec;
      simpl; [|discriminate..].
    intros [= <-].
    destruct (reconstruct_spec self start reserved_nodes reserved_edges
                s fuel (goal, tm) [(goal, tm)] [] res) as (_ & _ & H3); try done.
    exists tm. by rewrite H3.
  - destruct (Z.geb_spec tm max_time) as [Hge|Hlt].
    + by apply IH.
    + apply IH.
      * apply search_inv_expand; [exact Hinv' | exact Hcur |].
        apply neighbors_are_steps.
      * apply heap_within_expand; [exact Hheap' | lia].
Qed.

Lemma astar_with_time_arrival fuel path :
  astar_with_time self start goal reserved_nodes reserved_edges max_time fuel
  = Returned (Some path) →
  ∃ tm, last path = Some (goal, tm) ∧ 0 ≤ tm ≤ Z.max 0 max_time.
Proof.
  apply astar_loop_arrival; [apply search_inv_initial|].
  intros f g n tm Hin. apply list_elem_of_singleton in Hin.
  injection Hin as _ _ _ ->. lia.
Qed.
End horizon_facts.

(** X1. A path returned by [astar_with_time] is indexed by time (its
    [i]-th state carries time [i]) and its last state is on the goal node:
    the arrival time is the length of the path minus one. *)
Theorem astar_path_reaches_goal (self : PathPlanner.t) (start goal : Z)
    (reserved_nodes : gset (Z * Z)) (reserved_edges : gset (Z * Z * Z))
    (max_time : Z) (fuel : nat) (path : list (Z * Z)) :
  PathPlanner.astar_with_time self start goal reserved_nodes reserved_edges
    max_time fuel = Returned (Some path) →
  (∀ (i : nat) n t, path !! i = Some (n, t) → t = Z.of_nat i)
  ∧ last path = Some (goal, Z.of_nat (length path) - 1).
Proof.
  intros H. apply astar_with_time_spec, planned_path_shape in H as [Htimes Hlast].
  split; [|done]. intros i n t Hi. exact (Htimes i (n, t) Hi).
Qed.

Lemma astar_path_reaches_goal_witness :
  (∀ (i : nat) n t, [(4, 0); (4, 1); (2, 2); (1, 3)] !! i = Some (n, t) → t = Z.of_nat i)
  ∧ last [(4, 0); (4, 1); (2, 2); (1, 3)]
    = Some (1, Z.of_nat (length [(4, 0); (4, 1); (2, 2); (1, 3)]) - 1).
Proof.
  apply (astar_path_reaches_goal Warehouse.planner 4 1
           {[ (1, 0); (2, 1); (3, 2); (3, 3); (3, 4); (3, 5) ]}
           {[ (1, 2, 0); (2, 3, 1) ]} 50 20).
  vm_compute. reflexivity.
Defined.

(** X2. Every state of a path returned by [astar_with_time] lies within the
    horizon: its time is between 0 and [max_time] (0 when [max_time] is
    negative), so the path has at most [max_time + 1] states. *)
Theorem astar_path_within_horizon (self : PathPlanner.t) (start goal : Z)
    (reserved_nodes : gset (Z * Z)) (reserved_edges : gset (Z * Z * Z))
    (max_time : Z) (fuel : nat) (path : list (Z * Z)) :
  PathPlanner.astar_with_time self start goal reserved_nodes reserved_edges
    max_time fuel = Returned (Some path) →
  (∀ n t, (n, t) ∈ path → 0 ≤ t ≤ Z.max 0 max_time)
  ∧ Z.of_nat (length path) ≤ Z.max 0 max_time + 1.
Proof.
  intros H.
  pose proof (astar_with_time_arrival _ _ _ _ _ _ _ _ H) as (tm & Hlast & Htm).
  apply astar_with_time_spec, planned_path_shape in H as [Htimes Hlast'].
  rewrite Hlast in Hlast'. injection Hlast' as Hlen. split; [|lia].
  intros n t [i Hi]%list_elem_of_lookup.
  pose proof (lookup_lt_Some _ _ _ Hi). apply Htimes in Hi. simpl in Hi. lia.
Qed.

Lemma astar_path_within_horizon_witness :
  (∀ n t, (n, t) ∈ [(1, 0); (2, 1); (3, 2)] → 0 ≤ t ≤ Z.max 0 2)
  ∧ Z.of_nat (length [(1, 0); (2, 1); (3, 2)]) ≤ Z.max 0 2 + 1.
Proof.
  apply (astar_path_within_horizon Warehouse.planner 1 3 ∅ ∅ 2 20).
  vm_compute. reflexivity.
Defined.

Lemma consecutive_impl {A} (R R' : A → A → Prop) (l : list A) :
  (∀ a b, R a b → R' a b) → consecutive R l → consecutive R' l.
Proof.
  intros HR. induction l as [|a [|b l] IH]; simpl in *; [done..|].
  intros [Hab Hl]. split; [by apply HR | by apply IH].
Qed.

(** X3. A path returned by [astar_with_time] obeys the reservation table it
    was given: each of its steps enters a state [(v, t + 1)] that is not
    reserved, and a move [u → v] leaving at time [t] never meets a reserved
    move [(v, u, t)]. *)
Theorem astar_path_respects_reservations (self : PathPlanner.t) (start goal : Z)
    (reserved_nodes : gset (Z * Z)) (reserved_edges : gset (Z * Z * Z))
    (max_time : Z) (fuel : nat) (path : list (Z * Z)) :
  PathPlanner.astar_with_time self start goal reserved_nodes reserved_edges
    max_time fuel = Returned (Some path) →
  consecutive (link_free reserved_nodes reserved_edges) path.
Proof.
  intros H. apply astar_with_time_spec in H as (_ & Hc & _).
  revert Hc. apply consecutive_impl. by intros a b [_ ?].
Qed.

Lemma astar_path_respects_reservations_witness :
  consecutive
    (link_free {[ (1, 0); (2, 1); (3, 2); (3, 3); (3, 4); (3, 5) ]}
       {[ (1, 2, 0); (2, 3, 1) ]})
    [(4, 0); (4, 1); (2, 2); (1, 3)].
Proof.
  apply (astar_path_respects_reservations Warehouse.planner 4 1
           {[ (1, 0); (2, 1); (3, 2); (3, 3); (3, 4); (3, 5) ]}
           {[ (1, 2, 0); (2, 3, 1) ]} 50 20).
  vm_compute. reflexivity.
Defined.

(** X4. With a horizon of zero or less the planner cannot leave the start
    node: on a map whose coordinates are small enough for the heuristic to
    return, for [start ≠ goal] it answers that there is no path. *)
Theorem astar_no_horizon_no_path (self : PathPlanner.t) (start goal : Z)
    (reserved_nodes : gset (Z * Z)) (reserved_edges : gset (Z * Z * Z))
    (max_time : Z) (fuel : nat) :
  coords_bounded self →
  start ≠ goal → max_time ≤ 0 →
  PathPlanner.astar_with_time self start goal reserved_nodes reserved_edges
    max_time (S (S fuel)) = Returned None.
Proof.
  intros _ Hne Hmax. unfold PathPlanner.astar_with_time. simpl.
  destruct (Z.eqb_spec start goal); [done|].
  destruct (Z.geb_spec 0 max_time); [done | lia].
Qed.

Lemma astar_no_horizon_no_path_witness :
  PathPlanner.astar_with_time Warehouse.planner 1 3 ∅ ∅ 0 2 = Returned None.
Proof.
  apply (astar_no_horizon_no_path Warehouse.planner 1 3 ∅ ∅ 0 0);
    [apply map_Forall_to_list; vm_compute; by repeat constructor | lia | lia].
Defined.

(** ** Plans for several robots *)

Section plan_shape.
Import PathPlanner.
Variable self : t.
Variables starts goals : list Z.
Variables max_time stay_time_at_goal : Z.
Variable fuel : nat.

Lemma prioritized_planning_length res :
  prioritized_planning self starts goals max_time stay_time_at_goal fuel
  = Returned (Some res) →
  length res = length starts ∧ (length starts ≤ length goals)%nat.
Proof.
  intros (paths & rn & re & [Hlen Hdone] & ->)%prioritized_planning_spec.
  rewrite length_fmap in Hlen. split; [done|].
  destruct (length starts) as [|n] eqn:E; [lia|].
  destruct (Hdone n ltac:(lia)) as (_ & _ & gl & _ & _ & _ & _ & Hg & _).
  apply lookup_lt_Some in Hg. lia.
Qed.

Lemma reserve_goal_elem goal_node goal_t stay rn s :
  s ∈ reserve_goal goal_node goal_t stay rn
  ↔ s ∈ rn ∨ ∃ dt, 1 ≤ dt ≤ stay ∧ s = (goal_node, goal_t + dt).
Proof.
  unfold reserve_goal.
  assert (Hfold : ∀ dts (rn0 : gset (Z * Z)),
            s ∈ fold_left (λ rn dt, {[ (goal_node, goal_t + dt) ]} ∪ rn) dts rn0
            ↔ s ∈ rn0 ∨ ∃ dt, dt ∈ dts ∧ s = (goal_node, goal_t + dt)).
  { induction dts as [|dt dts IH]; intros rn0; simpl.
    - split; [by left|]. intros [?|(dt & Hdt & _)]; [done|].
      by apply elem_of_nil in Hdt.
    - rewrite IH, elem_of_union, elem_of_singleton. split.
      + intros [[->|?]|(dt' & Hdt' & ->)].
        * right. exists dt. split; [apply elem_of_cons; by left | done].
        * by left.
        * right. exists dt'. split; [apply elem_of_cons; by right | done].
      + intros [?|(dt' & [->|Hdt']%elem_of_cons & ->)].
        * left. by right.
        * left. by left.
        * right. by exists dt'. }
  rewrite Hfold. apply or_iff_compat_l. split.
  - intros (dt & Hdt & ->). exists dt. split; [|done].
    apply elem_of_seqZ in Hdt. lia.
  - intros (dt & Hdt & ->). exists dt. split; [|done].
    apply elem_of_seqZ. lia.
Qed.

Lemma parked_mono p stay rn rn' : parked p stay rn → rn ⊆ rn' → parked p stay rn'.
Proof. intros Hp Hrn g tm dt Hlast Hdt. by apply Hrn, (Hp g tm dt). Qed.

Local Abbreviation parked_to := (parked_upto self starts goals stay_time_at_goal).

Lemma parked_upto_step k rn paths start goal path rn0 re0 rn' :
  parked_to k rn paths →
  (k < length paths)%nat →
  starts !! k = Some start → goals !! k = Some goal →
  planned_path self start goal rn0 re0 path →
  rn0 = rn →
  parked path stay_time_at_goal rn' → rn ⊆ rn' →
  parked_to (S k) rn' (<[k := Some path]> paths).
Proof.
  intros Hdone Hk Hstart Hgoal Hpath -> Hpark Hrn i Hi.
  destruct (decide (i = k)) as [->|Hne].
  - exists path, start, goal, rn, re0.
    rewrite list_lookup_insert_eq by lia. split_and!; try done.
    intros j q Hj Hq. rewrite list_lookup_insert_ne in Hq by lia.
    destruct (Hdone j Hj) as (p' & ? & ? & ? & ? & Hp' & _ & _ & _ & Hc & _).
    rewrite Hp' in Hq. injection Hq as <-. done.
  - destruct (Hdone i ltac:(lia))
      as (p & st & gl & rn_i & re_i & Hp & Hs & Hg & Hpl & Hc & Hprev).
    exists p, st, gl, rn_i, re_i.
    rewrite list_lookup_insert_ne by lia. split_and!; try done.
    + by apply (parked_mono p _ rn).
    + intros j q Hj Hq. rewrite list_lookup_insert_ne in Hq by lia.
      by apply (Hprev j).
Qed.

Lemma plan_robots_parked m k rn re paths res :
  (k + m = length starts)%nat →
  length paths = length starts →
  parked_to k rn paths →
  plan_robots self starts goals max_time stay_time_at_goal fuel (seq k m) rn re paths
  = Returned (Some res) →
  ∃ paths' rn', parked_to (length starts) rn' paths'
                ∧ length paths' = length starts ∧ res = omap id paths'.
Proof.
  revert k rn re paths. induction m as [|m IH]; intros k rn re paths Hkm Hlen Hupto.
  - simpl. intros [= <-]. exists paths, rn.
    assert (Hk : length starts = k) by lia. rewrite Hk in *. done.
  - cbn [seq plan_robots].
    destruct (starts !! k) as [start|] eqn:Hstart; [|discriminate].
    destruct (goals !! k) as [goal|] eqn:Hgoal; [|discriminate].
    cbn [obind].
    destruct (astar_with_time self start goal rn re max_time fuel)
      as [[path|]| |] eqn:Hastar; cbn [obind]; [|discriminate..].
    apply astar_with_time_spec in Hastar.
    pose proof (reserve_path_spec path rn re) as (Hrn & _ & _).
    destruct (reserve_path path rn re) as [rn1 re1]. simpl in Hrn.
    destruct (last path) as [[goal_node goal_t]|] eqn:Hlast; [|discriminate].
    apply IH; [lia | by rewrite length_insert |].
    apply (parked_upto_step k rn paths start goal path rn re); try done.
    + lia.
    + intros g tm dt Hl Hdt. rewrite Hlast in Hl. injection Hl as <- <-.
      apply reserve_goal_elem. right. by exists dt.
    + etrans; [exact Hrn|]. apply reserve_goal_mono.
Qed.

Lemma prioritized_planning_parked res i j p q g tm dt :
  prioritized_planning self starts goals max_time stay_time_at_goal fuel
  = Returned (Some res) →
  (i < j)%nat → res !! i = Some p → res !! j = Some q →
  last p = Some (g, tm) → 1 ≤ dt ≤ stay_time_at_goal →
  (g, tm + dt) ∉ q.
Proof.
  intros H Hij Hp Hq Hlast Hdt Hin.
  destruct (prioritized_planning_paths _ _ _ _ _ _ _ _ _ H Hp)
    as (st_i & gl_i & rn_i & re_i & _ & _ & Hpl_i).
  apply planned_path_shape in Hpl_i as [_ Hlast_i].
  rewrite Hlast in Hlast_i. injection Hlast_i as Hg Htm.
  assert (Hpos : 0 ≤ tm) by (destruct p; [done | simpl in Htm; lia]).
  unfold prioritized_planning in H.
  apply plan_robots_parked in H as (paths & rn & Hdone & Hlen & ->);
    [|lia|apply length_replicate|intros k Hk; lia].
  assert (Hall : Some <$> omap id paths = paths).
  { apply omap_id_all_Some. intros k Hk. rewrite Hlen in Hk.
    destruct (Hdone k Hk) as (p' & _ & _ & _ & _ & Hp' & _). by exists p'. }
  assert (Hj : (j < length starts)%nat).
  { rewrite <- Hlen, <- Hall, length_fmap. by apply lookup_lt_Some in Hq. }
  destruct (Hdone j Hj) as (q' & st_j & gl_j & rn_j & re_j & Hq' & _ & _ & Hpl_j & _ & Hprev).
  rewrite <- Hall, list_lookup_fmap, Hq in Hq'. injection Hq' as <-.
  assert (Hpark : parked p stay_time_at_goal rn_j).
  { apply (Hprev i); [done|]. by rewrite <- Hall, list_lookup_fmap, Hp. }
  destruct (planned_path_tail self st_j gl_j rn_j re_j q Hpl_j _ Hin)
    as [Heq|[Hfree _]].
  - injection Heq as _ Heq. lia.
  - apply Hfree. by apply (Hpark g tm dt).
Qed.
End plan_shape.

(** X5. A plan returned by [prioritized_planning] has one path per robot, in
    the order of the robots: path [i] leaves [starts[i]] at time 0 and arrives
    on [goals[i]] with its last state. A plan is only returned when every
    robot has a goal. *)
Theorem prioritized_plan_joins_starts_to_goals (self : PathPlanner.t)
    (starts goals : list Z) (max_time stay_time_at_goal : Z) (fuel : nat)
    (paths : list (list (Z * Z))) :
  PathPlanner.prioritized_planning self starts goals max_time stay_time_at_goal fuel
  = Returned (Some paths) →
  length paths = length starts
  ∧ (length starts ≤ length goals)%nat
  ∧ ∀ (i : nat) p, paths !! i = Some p →
      ∃ start goal, starts !! i = Some start ∧ goals !! i = Some goal
        ∧ head p = Some (start, 0)
        ∧ last p = Some (goal, Z.of_nat (length p) - 1).
Proof.
  intros H.
  destruct (prioritized_planning_length _ _ _ _ _ _ _ H) as [Hlen Hgoals].
  split; [done|]. split; [done|]. intros i p Hp.
  destruct (prioritized_planning_paths _ _ _ _ _ _ _ _ _ H Hp)
    as (start & goal & rn & re & Hs & Hg & Hpl).
  exists start, goal. split; [done|]. split; [done|].
  pose proof (planned_path_shape _ _ _ _ _ _ Hpl) as [_ Hlast].
  destruct Hpl as ([rest ->] & _). done.
Qed.

Lemma prioritized_plan_joins_starts_to_goals_witness :
  length [[(1, 0); (2, 1)];
          [(2, 0); (4, 1); (4, 2); (4, 3); (4, 4); (2, 5); (1, 6)]]
  = length [1; 2]
  ∧ (length [1; 2] ≤ length [2; 1])%nat
  ∧ ∀ (i : nat) p,
      [[(1, 0); (2, 1)];
       [(2, 0); (4, 1); (4, 2); (4, 3); (4, 4); (2, 5); (1, 6)]] !! i = Some p →
      ∃ start goal, [1; 2] !! i = Some start ∧ [2; 1] !! i = Some goal
        ∧ head p = Some (start, 0)
        ∧ last p = Some (goal, Z.of_nat (length p) - 1).
Proof.
  apply (prioritized_plan_joins_starts_to_goals Warehouse.planner
           [1; 2] [2; 1] 50 3 40).
  vm_compute. reflexivity.
Defined.

(** X6. In a plan returned by [prioritized_planning], a robot never stands on
    the goal node of a robot planned before it during the
    [stay_time_at_goal] ticks that follow that robot's arrival. *)
Theorem later_robots_keep_off_parked_goals (self : PathPlanner.t)
    (starts goals : list Z) (max_time stay_time_at_goal : Z) (fuel : nat)
    (paths : list (list (Z * Z))) (i j : nat) (p q : list (Z * Z))
    (goal_node goal_t dt : Z) :
  PathPlanner.prioritized_planning self starts goals max_time stay_time_at_goal fuel
  = Returned (Some paths) →
  (i < j)%nat → paths !! i = Some p → paths !! j = Some q →
  last p = Some (goal_node, goal_t) → 1 ≤ dt ≤ stay_time_at_goal →
  (goal_node, goal_t + dt) ∉ q.
Proof. apply prioritized_planning_parked. Qed.

Lemma later_robots_keep_off_parked_goals_witness :
  ((2, 1 + 1) ∉ [(2, 0); (4, 1); (4, 2); (4, 3); (4, 4); (2, 5); (1, 6)])
  ∧ ((2, 1 + 3) ∉ [(2, 0); (4, 1); (4, 2); (4, 3); (4, 4); (2, 5); (1, 6)]).
Proof.
  split.
  - apply (later_robots_keep_off_parked_goals Warehouse.planner
             [1; 2] [2; 1] 50 3 40
             [[(1, 0); (2, 1)];
              [(2, 0); (4, 1); (4, 2); (4, 3); (4, 4); (2, 5); (1, 6)]]
             0 1 [(1, 0); (2, 1)]);
      [vm_compute; reflexivity | lia | reflexivity | reflexivity | reflexivity | lia].
  - apply (later_robots_keep_off_parked_goals Warehouse.planner
             [1; 2] [2; 1] 50 3 40
             [[(1, 0); (2, 1)];
              [(2, 0); (4, 1); (4, 2); (4, 3); (4, 4); (2, 5); (1, 6)]]
             0 1 [(1, 0); (2, 1)]);
      [vm_compute; reflexivity | lia | reflexivity | reflexivity | reflexivity | lia].
Defined.

(** ** The node path handed to the robot *)

Section compressed_route.
Import PathPlanner.

Lemma compress_from_elem last timed_path n :
  n ∈ compress_from last timed_path → n ∈ timed_path.*1.
Proof.
  revert last. induction timed_path as [|[node tm] tp IH]; intros last; simpl.
  - done.
  - assert (Hcons : n ∈ node :: compress_from (Some node) tp → n ∈ node :: tp.*1).
    { intros [->|Hn]%elem_of_cons; apply elem_of_cons; [by left|].
      right. by apply (IH (Some node)). }
    destruct last as [l|]; [|done].
    destruct (Z.eqb_spec node l); simpl; [|done].
    intros Hn. apply elem_of_cons. right. by apply (IH (Some l)).
Qed.

Lemma compress_from_keeps last timed_path n :
  n ∈ timed_path.*1 → n ∈ compress_from last timed_path ∨ last = Some n.
Proof.
  revert last. induction timed_path as [|[node tm] tp IH]; intros last; simpl.
  - intros Hn. by apply elem_of_nil in Hn.
  - assert (Hcons : n ∈ node :: tp.*1 → n ∈ node :: compress_from (Some node) tp).
    { intros [->|Hn]%elem_of_cons; apply elem_of_cons; [by left|].
      destruct (IH (Some node) Hn) as [?|[= ->]]; [by right | by left]. }
    destruct last as [l|]; [|by left; apply Hcons].
    destruct (Z.eqb_spec node l) as [->|Hne]; simpl; [|by left; apply Hcons].
    intros [->|Hn]%elem_of_cons; [by right | by apply IH].
Qed.

Lemma compress_from_last l timed_path :
  last (l :: compress_from (Some l) timed_path) = last (l :: timed_path.*1).
Proof.
  revert l. induction timed_path as [|[node tm] tp IH]; intros l; [done|].
  cbn [compress_from fmap list_fmap fst].
  destruct (Z.eqb_spec node l) as [->|Hne]; cbn [negb].
  - rewrite IH. done.
  - change (last (node :: compress_from (Some node) tp) = last (node :: tp.*1)).
    apply IH.
Qed.

Lemma compress_from_length last timed_path :
  (length (compress_from last timed_path) ≤ length timed_path)%nat.
Proof.
  revert last. induction timed_path as [|[node tm] tp IH]; intros last; simpl; [lia|].
  pose proof (IH (Some node)). pose proof (IH last).
  destruct last as [l|]; [destruct (negb _)|]; simpl; lia.
Qed.

(** Along a walk, the nodes kept by the compression are joined by edges. *)
Lemma compress_from_route (self : t) l timed_path :
  consecutive (step_ok self) timed_path →
  (∀ a, head timed_path = Some a → a.1 = l ∨ out_neighbor self l a.1) →
  consecutive (out_neighbor self) (l :: compress_from (Some l) timed_path).
Proof.
  revert l. induction timed_path as [|[node tm] tp IH]; intros l Hc Hhead; [done|].
  assert (Hrest : consecutive (step_ok self) tp)
    by (destruct tp; [done | by destruct Hc]).
  assert (Hnext : ∀ a, head tp = Some a → a.1 = node ∨ out_neighbor self node a.1).
  { intros a Ha. destruct tp as [|b tp]; [done|]. injection Ha as ->.
    by destruct Hc as [[_ ?] _]. }
  cbn [compress_from].
  destruct (Z.eqb_spec node l) as [->|Hne]; cbn [negb].
  - by apply IH.
  - apply consecutive_cons; [|by apply IH].
    destruct (Hhead (node, tm) eq_refl) as [?|?]; [done | done].
Qed.
End compressed_route.

Lemma compress_to_node_path_keeps_route_aux (timed_path : list (Z * Z)) :
  head (PathPlanner.compress_to_node_path timed_path) = head (timed_path.*1)
  ∧ last (PathPlanner.compress_to_node_path timed_path) = last (timed_path.*1)
  ∧ (∀ n, n ∈ PathPlanner.compress_to_node_path timed_path ↔ n ∈ timed_path.*1).
Proof.
  unfold PathPlanner.compress_to_node_path. split_and!.
  - by destruct timed_path as [|[node tm] tp].
  - destruct timed_path as [|[node tm] tp]; [done|]. apply compress_from_last.
  - intros n. split; [apply compress_from_elem|].
    intros Hn. by destruct (compress_from_keeps None timed_path n Hn).
Qed.

(** X7. Compression keeps the route: the compressed path starts on the same
    node, ends on the same node and visits the same set of nodes as the
    timed path, and is never longer. *)
Theorem compress_to_node_path_keeps_route (timed_path : list (Z * Z)) :
  head (PathPlanner.compress_to_node_path timed_path) = head (timed_path.*1)
  ∧ last (PathPlanner.compress_to_node_path timed_path) = last (timed_path.*1)
  ∧ (∀ n, n ∈ PathPlanner.compress_to_node_path timed_path ↔ n ∈ timed_path.*1)
  ∧ (length (PathPlanner.compress_to_node_path timed_path) ≤ length timed_path)%nat.
Proof.
  destruct (compress_to_node_path_keeps_route_aux timed_path) as (H1 & H2 & H3).
  split_and!; try done. apply compress_from_length.
Qed.

(** X8. The node path obtained by compressing a path returned by
    [astar_with_time] is a route of the graph: it starts on the start node,
    ends on the goal node, and each node is an out-neighbour of the node
    before it. *)
Theorem compressed_plan_is_route (self : PathPlanner.t) (start goal : Z)
    (reserved_nodes : gset (Z * Z)) (reserved_edges : gset (Z * Z * Z))
    (max_time : Z) (fuel : nat) (path : list (Z * Z)) :
  PathPlanner.astar_with_time self start goal reserved_nodes reserved_edges
    max_time fuel = Returned (Some path) →
  head (PathPlanner.compress_to_node_path path) = Some start
  ∧ last (PathPlanner.compress_to_node_path path) = Some goal
  ∧ consecutive (out_neighbor self) (PathPlanner.compress_to_node_path path).
Proof.
  intros H. apply astar_with_time_spec in H.
  pose proof (planned_path_is_walk _ _ _ _ _ _ H) as [Hwalk [rest ->]].
  destruct H as (_ & _ & [tm Hlast]).
  destruct (compress_to_node_path_keeps_route_aux ((start, 0) :: rest))
    as (Hh & Hl & _).
  split; [done|]. split.
  - rewrite Hl, fmap_last, Hlast. done.
  - unfold PathPlanner.compress_to_node_path. cbn [PathPlanner.compress_from].
    apply compress_from_route.
    + destruct rest; [done | by destruct Hwalk].
    + intros a Ha. destruct rest as [|b rest]; [done|]. injection Ha as ->.
      by destruct Hwalk as [[_ ?] _].
Qed.

Lemma compressed_plan_is_route_witness :
  head (PathPlanner.compress_to_node_path [(4, 0); (4, 1); (2, 2); (1, 3)]) = Some 4
  ∧ last (PathPlanner.compress_to_node_path [(4, 0); (4, 1); (2, 2); (1, 3)]) = Some 1
  ∧ consecutive (out_neighbor Warehouse.planner)
      (PathPlanner.compress_to_node_path [(4, 0); (4, 1); (2, 2); (1, 3)]).
Proof.
  apply (compressed_plan_is_route Warehouse.planner 4 1
           {[ (1, 0); (2, 1); (3, 2); (3, 3); (3, 4); (3, 5) ]}
           {[ (1, 2, 0); (2, 3, 1) ]} 50 20).
  vm_compute. reflexivity.
Defined.

(** ** Loading a map: failures and tables *)

Section loading_outcomes.
Import PathPlanner.

Lemma declared_coords_cons n ns id :
  declared_coords (n :: ns) id
  = if decide (n_id n = Some id)
    then (default 0%float (n_x n), default 0%float (n_y n)) :: declared_coords ns id
    else declared_coords ns id.
Proof. unfold declared_coords. simpl. by destruct (decide _). Qed.

Lemma load_nodes_coords ns acc m id :
  load_nodes ns acc = Returned m →
  m !! id = match last (declared_coords ns id) with
            | Some c => Some c
            | None => acc !! id
            end.
Proof.
  revert acc. induction ns as [|n ns IH]; intros acc.
  - simpl. by intros [= <-].
  - cbn [load_nodes].
    destruct (n_id n) as [id'|] eqn:E; cbn [subscript obind]; [|discriminate].
    intros H. rewrite (IH _ H), declared_coords_cons, E.
    destruct (decide (Some id' = Some id)) as [[= ->]|Hne].
    + rewrite last_cons, lookup_insert_eq.
      by destruct (last (declared_coords ns id)).
    + rewrite lookup_insert_ne by congruence. done.
Qed.

Lemma load_edges_keys es g g' a :
  load_edges es g = Returned g' →
  is_Some (g' !! a) ↔ is_Some (g !! a) ∨ ∃ e, e ∈ es ∧ e_from e = Some a.
Proof.
  revert g. induction es as [|e es IH]; intros g; simpl.
  - intros [= <-]. split; [by left|]. intros [?|(e & He & _)]; [done|].
    by apply elem_of_nil in He.
  - destruct (e_from e) as [a'|] eqn:Ea; simpl; [|discriminate].
    destruct (e_to e) as [b|] eqn:Eb; simpl; [|discriminate].
    intros H. rewrite (IH _ H). split.
    + intros [Hk|(e' & He' & Hfrom)].
      * destruct (decide (a' = a)) as [->|Hne].
        -- right. exists e. split; [apply elem_of_cons; by left | done].
        -- left. by rewrite lookup_insert_ne in Hk.
      * right. exists e'. split; [apply elem_of_cons; by right | done].
    + intros [Hk|(e' & [->|He']%elem_of_cons & Hfrom)].
      * left. destruct (decide (a' = a)) as [->|Hne].
        -- rewrite lookup_insert_eq. by eexists.
        -- by rewrite lookup_insert_ne.
      * left. rewrite Ea in Hfrom. injection Hfrom as ->.
        rewrite lookup_insert_eq. by eexists.
      * right. by exists e'.
Qed.
End loading_outcomes.

(** X9. No map loads with a key missing: a map that has loaded had its
    [nodes] and [edges], the [id] of every node entry and the [from] and
    [to] of every edge entry; and a file without [nodes], the first key
    read, raises [KeyError]. *)
Theorem load_map_fails_on_missing_key (data : PathPlanner.map_data) :
  (∀ p, PathPlanner._load_map data = Returned p → keys_present data)
  ∧ (PathPlanner.data_nodes data = None →
     PathPlanner._load_map data = Raised KeyError).
Proof.
  split.
  - intros p H.
    destruct (load_map_returned _ _ H) as (ns & es & Hn & He & Hns & Hes & _).
    by exists ns, es.
  - unfold PathPlanner._load_map. by intros ->.
Qed.

(** X10. In a loaded map, a node id declared several times keeps the
    coordinates of its last entry, and the keys of the adjacency table are
    the declared nodes together with the [from] nodes of the edges. *)
Theorem load_map_tables (data : PathPlanner.map_data)
    (node_entries : list PathPlanner.node_entry)
    (edge_entries : list PathPlanner.edge_entry) (p : PathPlanner.t) :
  PathPlanner._load_map data = Returned p →
  PathPlanner.data_nodes data = Some node_entries →
  PathPlanner.data_edges data = Some edge_entries →
  (∀ id, PathPlanner.nodes p !! id = last (declared_coords node_entries id))
  ∧ (∀ a, is_Some (PathPlanner.graph p !! a)
          ↔ is_Some (PathPlanner.nodes p !! a)
            ∨ ∃ e, e ∈ edge_entries ∧ PathPlanner.e_from e = Some a).
Proof.
  intros H Hn He. unfold PathPlanner._load_map in H.
  rewrite Hn in H. cbn [subscript obind] in H.
  destruct (PathPlanner.load_nodes node_entries ∅) as [m| |] eqn:Hm; [|done..].
  rewrite He in H. cbn [subscript obind] in H.
  destruct (PathPlanner.load_edges edge_entries ((λ _, []) <$> m)) as [g| |] eqn:Hg;
    [|done..].
  cbn [obind] in H. injection H as <-. simpl. split.
  - intros id. rewrite (load_nodes_coords _ _ _ id Hm), lookup_empty.
    by destruct (last _).
  - intros a. rewrite (load_edges_keys _ _ _ a Hg), lookup_fmap.
    by rewrite fmap_is_Some.
Qed.

Lemma load_map_tables_witness :
  (∀ id, PathPlanner.nodes Warehouse.planner !! id
         = last (declared_coords
                   [ Warehouse.node 1 4 0; Warehouse.node 2 5 0; Warehouse.node 3 6 0;
                     Warehouse.node 4 5 1; Warehouse.node 9 0 3; Warehouse.node 37 0 4;
                     Warehouse.node 50 0 0; Warehouse.node 51 8 0;
                     Warehouse.node 52 1 0 ] id))
  ∧ (∀ a, is_Some (PathPlanner.graph Warehouse.planner !! a)
          ↔ is_Some (PathPlanner.nodes Warehouse.planner !! a)
            ∨ ∃ e, e ∈ [ Warehouse.edge 1 2; Warehouse.edge 2 1; Warehouse.edge 2 3;
                         Warehouse.edge 3 2; Warehouse.edge 2 4; Warehouse.edge 4 2 ]
                   ∧ PathPlanner.e_from e = Some a).
Proof.
  apply (load_map_tables Warehouse.map_json); reflexivity.
Defined.

(** * Further properties of the shelf registry *)

(** ** Grouping requested items by shelf *)

Section shelf_groups.
Import ShelfManager.

Lemma lookup_items_result_append result shelf_id item shelf_id' :
  TaskManager.lookup_items (result_append result shelf_id item) shelf_id'
  = if decide (shelf_id = shelf_id')
    then TaskManager.lookup_items result shelf_id ++ [item]
    else TaskManager.lookup_items result shelf_id'.
Proof.
  induction result as [|[k its] result IH]; simpl.
  - destruct (Z.eqb_spec shelf_id shelf_id'); case_decide; done.
  - destruct (Z.eqb_spec k shelf_id) as [->|Hk]; simpl.
    + destruct (Z.eqb_spec shelf_id shelf_id'); case_decide; done.
    + destruct (Z.eqb_spec k shelf_id') as [->|Hk']; [|done].
      case_decide; done.
Qed.

Lemma result_append_keys result shelf_id item :
  (result_append result shelf_id item).*1
  = if decide (shelf_id ∈ result.*1) then result.*1 else result.*1 ++ [shelf_id].
Proof.
  induction result as [|[k its] result IH].
  - rewrite decide_False by apply not_elem_of_nil. done.
  - cbn [result_append]. destruct (Z.eqb_spec k shelf_id) as [->|Hk].
    + rewrite decide_True; [done|]. rewrite fmap_cons. apply elem_of_cons. by left.
    + rewrite (fmap_cons fst), IH.
      destruct (decide (shelf_id ∈ result.*1)) as [Hin|Hin].
      * rewrite decide_True; [done|]. rewrite fmap_cons. apply elem_of_cons. by right.
      * rewrite decide_False; [done|]. rewrite fmap_cons.
        intros [?|?]%elem_of_cons; [simpl in *; congruence | done].
Qed.

Lemma result_append_nonempty_lists result shelf_id item :
  (∀ k its, (k, its) ∈ result → its ≠ []) →
  ∀ k its, (k, its) ∈ result_append result shelf_id item → its ≠ [].
Proof.
  induction result as [|[k0 its0] result IH]; intros Hall k its; simpl.
  - intros [= -> ->]%list_elem_of_singleton. done.
  - assert (Hrest : ∀ k its, (k, its) ∈ result → its ≠ []).
    { intros k' its' Hin. apply (Hall k'). apply elem_of_cons. by right. }
    destruct (Z.eqb_spec k0 shelf_id) as [->|Hk].
    + intros [[= -> ->]|Hin]%elem_of_cons; [by destruct its0 | by apply (Hrest k)].
    + intros [[= -> ->]|Hin]%elem_of_cons.
      * apply (Hall k0). apply elem_of_cons. by left.
      * by apply (IH Hrest k).
Qed.

Lemma lookup_items_elem result k its :
  NoDup result.*1 → (k, its) ∈ result → TaskManager.lookup_items result k = its.
Proof.
  induction result as [|[k0 its0] result IH]; simpl; intros Hnd Hin.
  - by apply elem_of_nil in Hin.
  - apply NoDup_cons in Hnd as [Hk0 Hnd].
    apply elem_of_cons in Hin as [[= -> ->]|Hin]; [by rewrite Z.eqb_refl|].
    destruct (Z.eqb_spec k0 k) as [->|_]; [|by apply IH].
    destruct Hk0. apply list_elem_of_fmap. by exists (k, its).
Qed.

Lemma lookup_items_found result k :
  TaskManager.lookup_items result k ≠ [] →
  (k, TaskManager.lookup_items result k) ∈ result.
Proof.
  induction result as [|[k0 its0] result IH]; simpl; [done|].
  destruct (Z.eqb_spec k0 k) as [->|_]; intros H; apply elem_of_cons;
    [by left | right; by apply IH].
Qed.

Lemma grouped_collect self seen result item :
  grouped self seen result → grouped self (seen ++ [item]) (collect self result item).
Proof.
  intros (Hnd & Hlook & Hne). unfold collect.
  destruct (item_to_shelf self !! item) as [shelf_id|] eqn:E.
  - split_and!.
    + rewrite result_append_keys. destruct (decide _); [done|].
      apply NoDup_app. split_and!; [done | | apply NoDup_singleton].
      intros x Hx ->%list_elem_of_singleton. done.
    + intros sid. rewrite lookup_items_result_append, filter_app, filter_cons, filter_nil.
      destruct (decide (shelf_id = sid)) as [->|Hsid].
      * rewrite decide_True by done. by rewrite Hlook.
      * rewrite decide_False by congruence. by rewrite app_nil_r.
    + by apply result_append_nonempty_lists.
  - split_and!; [done| |done].
    intros sid. rewrite filter_app, filter_cons, filter_nil, Hlook.
    rewrite decide_False by congruence. by rewrite app_nil_r.
Qed.

Lemma grouped_fold self items seen result :
  grouped self seen result →
  grouped self (seen ++ items) (fold_left (collect self) items result).
Proof.
  revert seen result. induction items as [|item items IH]; intros seen result H; simpl.
  - by rewrite app_nil_r.
  - rewrite (assoc_L (++) seen [item] items : seen ++ item :: items = (seen ++ [item]) ++ items).
    apply IH. by apply grouped_collect.
Qed.

Lemma find_shelves_for_items_grouped self items :
  grouped self items (find_shelves_for_items self items).
Proof.
  apply (grouped_fold self items [] []). split_and!; [constructor|done|].
  intros k its Hin. by apply elem_of_nil in Hin.
Qed.
End shelf_groups.

(** X11. [find_shelves_for_items] groups the request by shelf: the keys of
    the result are distinct; under each key stands exactly the list of the
    requested items that the index sends to that shelf, in request order,
    and that list is not empty; every requested item that is indexed
    appears under its shelf. *)
Theorem find_shelves_for_items_groups_by_shelf (self : ShelfManager.t)
    (items : list string) :
  NoDup (ShelfManager.find_shelves_for_items self items).*1
  ∧ (∀ shelf_id its,
       (shelf_id, its) ∈ ShelfManager.find_shelves_for_items self items →
       its ≠ []
       ∧ its = filter (λ item, ShelfManager.item_to_shelf self !! item = Some shelf_id)
                 items)
  ∧ (∀ item shelf_id,
       item ∈ items → ShelfManager.item_to_shelf self !! item = Some shelf_id →
       ∃ its, (shelf_id, its) ∈ ShelfManager.find_shelves_for_items self items
              ∧ item ∈ its).
Proof.
  destruct (find_shelves_for_items_grouped self items) as (Hnd & Hlook & Hne).
  split; [done|]. split.
  - intros shelf_id its Hin. split; [by apply (Hne shelf_id)|].
    by rewrite <- (lookup_items_elem _ _ _ Hnd Hin), Hlook.
  - intros item shelf_id Hitem Hidx.
    assert (Hin : item ∈ TaskManager.lookup_items
                           (ShelfManager.find_shelves_for_items self items) shelf_id).
    { rewrite Hlook. by apply list_elem_of_filter. }
    eexists. split; [|exact Hin]. apply lookup_items_found.
    intros Hnil. rewrite Hnil in Hin. by apply elem_of_nil in Hin.
Qed.

(** ** What the registry keeps true *)

Section registry_facts.
Import ShelfManager.

Lemma index_fold_lookup (its : list string) (shelf_id : Z) (m : gmap string Z) item :
  fold_left (λ m item, <[item := shelf_id]> m) its m !! item
  = if decide (item ∈ its) then Some shelf_id else m !! item.
Proof.
  revert m. induction its as [|it its IH]; intros m; cbn [fold_left].
  - rewrite decide_False by apply not_elem_of_nil. done.
  - rewrite IH. destruct (decide (item ∈ its)) as [Hin|Hin].
    + rewrite decide_True; [done|]. apply elem_of_cons. by right.
    + destruct (decide (it = item)) as [->|Hne].
      * rewrite decide_True; [|apply elem_of_cons; by left].
        by rewrite lookup_insert_eq.
      * rewrite decide_False; [by rewrite lookup_insert_ne|].
        intros [?|?]%elem_of_cons; [congruence | done].
Qed.

Lemma load_shelf_wf self entry : registry_wf self → registry_wf (load_shelf self entry).
Proof.
  intros (Hnodes & Hid & Hidx). destruct entry as [shelf_id info].
  unfold load_shelf. split_and!; simpl.
  - by rewrite dom_insert_L, Hnodes.
  - intros id shelf. destruct (decide (shelf_id = id)) as [->|Hne].
    + rewrite lookup_insert_eq. by intros [= <-].
    + rewrite lookup_insert_ne by done. apply Hid.
  - intros item id. rewrite index_fold_lookup.
    destruct (decide _) as [_|_].
    + intros [= <-]. rewrite lookup_insert_eq. by eexists.
    + intros Hitem. apply lookup_insert_is_Some'. right. by apply (Hidx item).
Qed.

Lemma load_shelf_at_home self entry : all_at_home self → all_at_home (load_shelf self entry).
Proof.
  intros Hhome. destruct entry as [shelf_id info]. unfold load_shelf.
  intros id shelf. simpl. destruct (decide (shelf_id = id)) as [->|Hne].
  - rewrite lookup_insert_eq. by intros [= <-].
  - rewrite lookup_insert_ne by done. apply Hhome.
Qed.

Lemma load_config_fold (P : t → Prop) entries self :
  (∀ self entry, P self → P (load_shelf self entry)) →
  P self → P (fold_left load_shelf entries self).
Proof.
  intros Hstep. revert self. induction entries as [|entry entries IH]; intros self H;
    simpl; [done|]. by apply IH, Hstep.
Qed.

Lemma empty_wf : registry_wf empty.
Proof.
  split_and!; simpl.
  - by rewrite dom_empty_L.
  - intros id shelf H. by rewrite lookup_empty in H.
  - intros item id H. by rewrite lookup_empty in H.
Qed.

Lemma empty_at_home : all_at_home empty.
Proof. intros id shelf H. simpl in H. by rewrite lookup_empty in H. Qed.

Lemma load_config_wf data : registry_wf (_load_config data).
Proof.
  destruct data as [entries|]; simpl; [|apply empty_wf].
  apply load_config_fold; [apply load_shelf_wf | apply empty_wf].
Qed.

Lemma load_config_at_home data : all_at_home (_load_config data).
Proof.
  destruct data as [entries|]; simpl; [|apply empty_at_home].
  apply load_config_fold; [apply load_shelf_at_home | apply empty_at_home].
Qed.

(** Replacing a shelf by one with the same identity keeps the registry
    well formed. *)
Lemma replace_shelf_wf self shelf_id shelf shelf' :
  registry_wf self →
  shelves self !! shelf_id = Some shelf →
  Shelf.shelf_id shelf' = Shelf.shelf_id shelf →
  Shelf.home_node shelf' = Shelf.home_node shelf →
  registry_wf {| shelves := <[shelf_id := shelf']> (shelves self);
                 item_to_shelf := item_to_shelf self;
                 all_shelf_nodes := all_shelf_nodes self |}.
Proof.
  intros (Hnodes & Hid & Hidx) Hshelf Hsame Hhome. split_and!; simpl.
  - rewrite dom_insert_L, Hnodes. symmetry.
    apply subseteq_union_1_L, singleton_subseteq_l, elem_of_dom. by eexists.
  - intros id s. destruct (decide (shelf_id = id)) as [->|Hne].
    + rewrite lookup_insert_eq. intros [= <-]. rewrite Hsame, Hhome. by apply Hid.
    + rewrite lookup_insert_ne by done. apply Hid.
  - intros item id Hitem. apply lookup_insert_is_Some'. right. by apply (Hidx item).
Qed.
End registry_facts.

(** X12. The shelf registry stays well formed: after loading, and after any
    of the three marking operations, the slot set is the set of shelf ids,
    every shelf is filed under its own id (its home node), and every
    indexed item leads to a shelf of the registry. *)
Theorem shelf_registry_stays_well_formed :
  (∀ data, registry_wf (ShelfManager._load_config data))
  ∧ (∀ self shelf_id robot_id, registry_wf self →
       registry_wf (ShelfManager.mark_shelf_picked_up self shelf_id robot_id).2)
  ∧ (∀ self shelf_id ws_node, registry_wf self →
       registry_wf (ShelfManager.mark_shelf_at_workstation self shelf_id ws_node).2)
  ∧ (∀ self shelf_id return_node, registry_wf self →
       registry_wf (ShelfManager.mark_shelf_returned self shelf_id return_node).2).
Proof.
  split_and!.
  - apply load_config_wf.
  - intros self shelf_id robot_id Hwf. unfold ShelfManager.mark_shelf_picked_up.
    destruct (ShelfManager.shelves self !! shelf_id) as [shelf|] eqn:E; [|done].
    by apply (replace_shelf_wf self shelf_id shelf).
  - intros self shelf_id ws_node Hwf. unfold ShelfManager.mark_shelf_at_workstation.
    destruct (ShelfManager.shelves self !! shelf_id) as [shelf|] eqn:E; [|done].
    by apply (replace_shelf_wf self shelf_id shelf).
  - intros self shelf_id return_node Hwf. unfold ShelfManager.mark_shelf_returned.
    destruct (ShelfManager.shelves self !! shelf_id) as [shelf|] eqn:E; [|done].
    by apply (replace_shelf_wf self shelf_id shelf).
Qed.

(** ** The item index *)

Section index_facts.
Import ShelfManager.

Lemma load_shelf_index_sound self shelf_id info :
  index_sound self → shelves self !! shelf_id = None →
  index_sound (load_shelf self (shelf_id, info)).
Proof.
  intros Hsound Hfresh item id. unfold load_shelf. simpl.
  rewrite index_fold_lookup. destruct (decide _) as [Hin|_].
  - intros [= <-]. eexists. rewrite lookup_insert_eq. done.
  - intros Hitem. destruct (Hsound item id Hitem) as (shelf & Hshelf & Hhas).
    exists shelf. split; [|done]. rewrite lookup_insert_ne; [done|].
    intros <-. congruence.
Qed.

Lemma load_shelf_other self entry id :
  id ≠ entry.1 → shelves (load_shelf self entry) !! id = shelves self !! id.
Proof.
  destruct entry as [shelf_id info]. simpl. intros Hne. by rewrite lookup_insert_ne.
Qed.

Lemma load_fold_index_sound entries self :
  index_sound self → NoDup entries.*1 →
  (∀ entry, entry ∈ entries → shelves self !! entry.1 = None) →
  index_sound (fold_left load_shelf entries self).
Proof.
  revert self. induction entries as [|[shelf_id info] entries IH];
    intros self Hsound Hnd Hfresh; [done|].
  rewrite fmap_cons in Hnd. apply NoDup_cons in Hnd as [Hnew Hnd].
  cbn [fold_left]. apply IH; [|done|].
  - apply load_shelf_index_sound; [done|].
    apply (Hfresh (shelf_id, info)). apply elem_of_cons. by left.
  - intros entry Hentry. rewrite load_shelf_other.
    + apply Hfresh. apply elem_of_cons. by right.
    + simpl. intros Heq. apply Hnew. rewrite <- Heq.
      apply list_elem_of_fmap. by exists entry.
Qed.

Lemma load_shelf_keeps_indexed self entry item :
  is_Some (item_to_shelf self !! item) →
  is_Some (item_to_shelf (load_shelf self entry) !! item).
Proof.
  destruct entry as [shelf_id info]. simpl. rewrite index_fold_lookup.
  by destruct (decide _).
Qed.

Lemma load_fold_indexes entries self shelf_id info item :
  (shelf_id, info) ∈ entries → item ∈ default [] (info_items info) →
  is_Some (item_to_shelf (fold_left load_shelf entries self) !! item).
Proof.
  revert self. induction entries as [|entry entries IH]; intros self Hin Hitem.
  - by apply elem_of_nil in Hin.
  - cbn [fold_left]. apply elem_of_cons in Hin as [<-|Hin]; [|by apply IH].
    apply (load_config_fold (λ s, is_Some (item_to_shelf s !! item))).
    + intros s e. apply load_shelf_keeps_indexed.
    + simpl. rewrite index_fold_lookup. by rewrite decide_True.
Qed.
End index_facts.

(** X13. When the configured shelf ids are distinct, the index built by
    loading is sound and complete: [get_shelf_by_item] only answers a shelf
    that holds the item, and it answers a shelf for every item of every
    configured shelf. *)
Theorem loaded_index_finds_the_holder (data : list (Z * ShelfManager.shelf_info)) :
  NoDup data.*1 →
  (∀ item shelf,
     ShelfManager.get_shelf_by_item (ShelfManager._load_config (Some data)) item
     = Some shelf → item ∈ Shelf.items shelf)
  ∧ (∀ shelf_id info item,
       (shelf_id, info) ∈ data →
       item ∈ default [] (ShelfManager.info_items info) →
       is_Some (ShelfManager.get_shelf_by_item
                  (ShelfManager._load_config (Some data)) item)).
Proof.
  intros Hnd. simpl.
  assert (Hsound : index_sound (fold_left ShelfManager.load_shelf data ShelfManager.empty)).
  { apply load_fold_index_sound; [|done|done].
    intros item id H. simpl in H. by rewrite lookup_empty in H. }
  unfold ShelfManager.get_shelf_by_item. split.
  - intros item shelf.
    destruct (ShelfManager.item_to_shelf _ !! item) as [id|] eqn:E; [|done].
    destruct (Hsound item id E) as (shelf' & -> & Hhas). by intros [= <-].
  - intros shelf_id info item Hin Hitem.
    destruct (load_fold_indexes data ShelfManager.empty shelf_id info item Hin Hitem)
      as [id Hid].
    rewrite Hid. destruct (Hsound item id Hid) as (shelf & -> & _). by eexists.
Qed.

Lemma loaded_index_finds_the_holder_witness :
  (∀ item shelf,
     ShelfManager.get_shelf_by_item Warehouse.shelf_manager item = Some shelf →
     item ∈ Shelf.items shelf)
  ∧ (∀ shelf_id info item,
       (shelf_id, info) ∈ Warehouse.shelf_json →
       item ∈ default [] (ShelfManager.info_items info) →
       is_Some (ShelfManager.get_shelf_by_item Warehouse.shelf_manager item)).
Proof.
  apply (loaded_index_finds_the_holder Warehouse.shelf_json).
  apply NoDup_singleton.
Defined.

(** ** Empty slots *)

Section slot_facts.
Import ShelfManager.

Lemma occupied_fold (m : gmap Z Shelf.t) node :
  node ∈ map_fold (λ _ shelf (occ : gset Z),
                     match Shelf.status shelf with
                     | IN_PLACE => {[ Shelf.current_node shelf ]} ∪ occ
                     | _ => occ
                     end) ∅ m
  ↔ ∃ id shelf, m !! id = Some shelf
      ∧ Shelf.status shelf = IN_PLACE ∧ Shelf.current_node shelf = node.
Proof.
  apply (map_fold_weak_ind (λ occ m, node ∈ occ ↔ ∃ id shelf, m !! id = Some shelf
           ∧ Shelf.status shelf = IN_PLACE ∧ Shelf.current_node shelf = node)).
  - split; [intros H; by apply not_elem_of_empty in H|].
    intros (id & shelf & H & _). by rewrite lookup_empty in H.
  - intros i x m' occ Hfresh IH.
    assert (Hold : (∃ id shelf, <[i:=x]> m' !! id = Some shelf
                      ∧ Shelf.status shelf = IN_PLACE ∧ Shelf.current_node shelf = node)
                   ↔ (Shelf.status x = IN_PLACE ∧ Shelf.current_node x = node)
                     ∨ node ∈ occ).
    { rewrite IH. split.
      - intros (id & shelf & Hl & Hst & Hcur).
        destruct (decide (i = id)) as [->|Hne].
        + rewrite lookup_insert_eq in Hl. injection Hl as <-. by left.
        + rewrite lookup_insert_ne in Hl by done. right. by exists id, shelf.
      - intros [[Hst Hcur]|(id & shelf & Hl & Hst & Hcur)].
        + exists i, x. by rewrite lookup_insert_eq.
        + exists id, shelf. rewrite lookup_insert_ne; [done|]. intros <-. congruence. }
    rewrite Hold. clear Hold IH. destruct (Shelf.status x) eqn:Hst.
    + rewrite elem_of_union, elem_of_singleton. split.
      * intros [->|?]; [by left | by right].
      * intros [[_ <-]|?]; [by left | by right].
    + split; [by right | intros [[? _]|?]; [discriminate | done]].
    + split; [by right | intros [[? _]|?]; [discriminate | done]].
Qed.

Lemma empty_positions_elem self node :
  node ∈ get_empty_shelf_positions self
  ↔ node ∈ all_shelf_nodes self ∧ ¬ occupied_slot self node.
Proof.
  unfold get_empty_shelf_positions, occupied_slot.
  rewrite list_elem_of_filter, elem_of_elements, occupied_fold. tauto.
Qed.

Lemma empty_positions_NoDup self : NoDup (get_empty_shelf_positions self).
Proof. apply NoDup_filter, NoDup_elements. Qed.

Lemma nearest_fold (pp : PathPlanner.t) from_node nodes best dist n :
  (fold_left
     (λ '(best_node, best_dist) node,
        let dist := PathPlanner._heuristic pp from_node node in
        if (dist <? best_dist)%float then (Some node, dist)
        else (best_node, best_dist))
     nodes (best, dist)).1 = Some n →
  best = Some n ∨ n ∈ nodes.
Proof.
  revert best dist. induction nodes as [|node nodes IH]; intros best dist; simpl.
  - by left.
  - destruct (_ <? _)%float; intros H; apply IH in H as [H|H].
    + injection H as ->. right. apply elem_of_cons. by left.
    + right. apply elem_of_cons. by right.
    + by left.
    + right. apply elem_of_cons. by right.
Qed.

Lemma singleton_list (l : list Z) a :
  NoDup l → (∀ x, x ∈ l ↔ x = a) → l = [a].
Proof.
  intros Hnd Hel. apply Permutation_singleton_r.
  apply NoDup_Permutation; [done | apply NoDup_singleton |].
  intros x. rewrite Hel. by rewrite list_elem_of_singleton.
Qed.
End slot_facts.

(** X14. The empty shelf positions are exactly the shelf nodes on which no
    shelf rests in place, each listed once. *)
Theorem empty_positions_are_the_free_slots (self : ShelfManager.t) :
  NoDup (ShelfManager.get_empty_shelf_positions self)
  ∧ ∀ node, node ∈ ShelfManager.get_empty_shelf_positions self
            ↔ node ∈ ShelfManager.all_shelf_nodes self ∧ ¬ occupied_slot self node.
Proof. split; [apply empty_positions_NoDup | apply empty_positions_elem]. Qed.

(** X15. A registry that has just been loaded has no empty position, and
    lifting one of its shelves frees exactly the slot of that shelf. *)
Theorem lifting_frees_the_slot (data : option (list (Z * ShelfManager.shelf_info)))
    (shelf_id robot_id : Z) :
  ShelfManager.get_empty_shelf_positions (ShelfManager._load_config data) = []
  ∧ (is_Some (ShelfManager.shelves (ShelfManager._load_config data) !! shelf_id) →
     ShelfManager.get_empty_shelf_positions
       (ShelfManager.mark_shelf_picked_up (ShelfManager._load_config data)
          shelf_id robot_id).2
     = [shelf_id]).
Proof.
  pose proof (load_config_wf data) as (Hnodes & _ & _).
  pose proof (load_config_at_home data) as Hhome.
  set (self := ShelfManager._load_config data) in *.
  split.
  - destruct (ShelfManager.get_empty_shelf_positions self) as [|node l] eqn:E; [done|].
    assert (Hin : node ∈ ShelfManager.get_empty_shelf_positions self)
      by (rewrite E; apply elem_of_cons; by left).
    apply empty_positions_elem in Hin as [Hin Hfree]. destruct Hfree.
    rewrite Hnodes in Hin. apply elem_of_dom in Hin as [shelf Hshelf].
    destruct (Hhome node shelf Hshelf) as (Hst & Hcur & _). by exists node, shelf.
  - intros [shelf Hshelf]. apply singleton_list; [apply empty_positions_NoDup|].
    intros node. rewrite empty_positions_elem.
    unfold ShelfManager.mark_shelf_picked_up, occupied_slot. rewrite Hshelf. simpl.
    rewrite Hnodes. split.
    + intros [[s Hs]%elem_of_dom Hfree].
      destruct (decide (node = shelf_id)) as [|Hne]; [done|]. destruct Hfree.
      destruct (Hhome node s Hs) as (Hst & Hcur & _).
      exists node, s. by rewrite lookup_insert_ne.
    + intros ->. split; [apply elem_of_dom; by eexists|].
      intros (id & s & Hs & Hst & Hcur).
      destruct (decide (shelf_id = id)) as [<-|Hne].
      * rewrite lookup_insert_eq in Hs. by injection Hs as <-.
      * rewrite lookup_insert_ne in Hs by done.
        destruct (Hhome id s Hs) as (_ & Hcur' & _). congruence.
Qed.

(** X16. [find_nearest_empty_position] only ever answers a free slot: a
    shelf node on which no shelf rests in place. *)
Theorem nearest_empty_position_is_free (self : ShelfManager.t) (from_node : Z)
    (path_planner : PathPlanner.t) (node : Z) :
  ShelfManager.find_nearest_empty_position self from_node path_planner = Some node →
  node ∈ ShelfManager.all_shelf_nodes self ∧ ¬ occupied_slot self node.
Proof.
  unfold ShelfManager.find_nearest_empty_position. intros H.
  apply nearest_fold in H as [H|H]; [done|]. by apply empty_positions_elem.
Qed.

Lemma nearest_empty_position_is_free_witness :
  9 ∈ ShelfManager.all_shelf_nodes Warehouse.shelf_manager_carried
  ∧ ¬ occupied_slot Warehouse.shelf_manager_carried 9.
Proof.
  apply (nearest_empty_position_is_free Warehouse.shelf_manager_carried 50
           Warehouse.planner 9).
  vm_compute. reflexivity.
Defined.

(** X17. Lifting a shelf that rests in place, delivering it to a station and
    returning it to the node it came from restores the registry exactly. *)
Theorem deliver_and_return_restores (self : ShelfManager.t)
    (shelf_id robot_id ws_node : Z) (shelf : Shelf.t) :
  ShelfManager.shelves self !! shelf_id = Some shelf →
  Shelf.status shelf = IN_PLACE → Shelf.carried_by shelf = None →
  (ShelfManager.mark_shelf_returned
     (ShelfManager.mark_shelf_at_workstation
        (ShelfManager.mark_shelf_picked_up self shelf_id robot_id).2
        shelf_id ws_node).2
     shelf_id (Shelf.current_node shelf)).2 = self.
Proof.
  intros Hshelf Hst Hcar.
  unfold ShelfManager.mark_shelf_picked_up. rewrite Hshelf. simpl.
  unfold ShelfManager.mark_shelf_at_workstation. simpl. rewrite lookup_insert_eq. simpl.
  unfold ShelfManager.mark_shelf_returned. simpl. rewrite lookup_insert_eq. simpl.
  destruct self as [shelves idx nodes]. simpl in *. f_equal.
  rewrite !insert_insert_eq. apply insert_id.
  destruct shelf; simpl in *. by subst.
Qed.

Lemma deliver_and_return_restores_witness :
  (ShelfManager.mark_shelf_returned
     (ShelfManager.mark_shelf_at_workstation
        (ShelfManager.mark_shelf_picked_up Warehouse.shelf_manager 9 1).2 9 50).2
     9 9).2 = Warehouse.shelf_manager.
Proof.
  apply (deliver_and_return_restores Warehouse.shelf_manager 9 1 50
           {| Shelf.shelf_id := 9; Shelf.label := "S1"; Shelf.items := ["A"; "C"; "D"];
              Shelf.home_node := 9; Shelf.current_node := 9; Shelf.status := IN_PLACE;
              Shelf.carried_by := None |}); reflexivity.
Defined.

(** ** The status summary *)

Lemma count_by_status (l : list Shelf.t) :
  (length (filter (λ s, Shelf.status s = IN_PLACE) l)
   + length (filter (λ s, Shelf.status s = CARRIED) l)
   + length (filter (λ s, Shelf.status s = AT_WORKSTATION) l))%nat
  = length l.
Proof.
  induction l as [|s l IH]; [done|].
  rewrite !filter_cons. destruct (Shelf.status s) eqn:E;
    repeat (case_decide; try done); simpl; lia.
Qed.

(** X18. In the shelf status summary the three counters add up to the number
    of shelves: every shelf is counted under exactly one status. *)
Theorem shelf_summary_adds_up (self : ShelfManager.t) :
  ShelfManager.in_place (ShelfManager.get_status_summary self)
  + ShelfManager.carried (ShelfManager.get_status_summary self)
  + ShelfManager.at_workstation (ShelfManager.get_status_summary self)
  = ShelfManager.total_shelves (ShelfManager.get_status_summary self).
Proof.
  unfold ShelfManager.get_status_summary, ShelfManager.count_status. simpl.
  pose proof (count_by_status (map_to_list (ShelfManager.shelves self)).*2) as H.
  rewrite length_fmap, length_map_to_list in H. lia.
Qed.

(** * Further properties of the task store *)

(** ** The chain of sub-tasks of a new task *)

Section chain_facts.
Import TaskManager.
Variable task_id : string.
Variable workstation_id : Z.
Variable shelf_items : list (Z * list string).

Local Abbreviation emit :=
  (λ (sts : list SubTask.t) (shelf_id : Z),
     sts ++ shelf_subtasks task_id workstation_id (Z.of_nat (length sts)) shelf_id
              (lookup_items shelf_items shelf_id)).

Lemma chain_fold_proj {B} (proj : SubTask.t → B) (pat : Z → list B) shelf_ids acc :
  (∀ n shelf_id its,
     proj <$> shelf_subtasks task_id workstation_id n shelf_id its = pat shelf_id) →
  proj <$> fold_left emit shelf_ids acc = (proj <$> acc) ++ (shelf_ids ≫= pat).
Proof.
  intros Hpat. revert acc. induction shelf_ids as [|shelf_id shelf_ids IH]; intros acc.
  - simpl. by rewrite app_nil_r.
  - cbn [fold_left]. rewrite IH, fmap_app, Hpat, bind_cons. by rewrite <- app_assoc.
Qed.

Lemma chain_fold_Forall (P : SubTask.t → Prop) shelf_ids acc :
  (∀ n shelf_id,
     Forall P (shelf_subtasks task_id workstation_id n shelf_id
                 (lookup_items shelf_items shelf_id))) →
  Forall P acc → Forall P (fold_left emit shelf_ids acc).
Proof.
  intros Hnew. revert acc. induction shelf_ids as [|shelf_id shelf_ids IH]; intros acc Hacc.
  - done.
  - cbn [fold_left]. apply IH. apply Forall_app. split; [done | apply Hnew].
Qed.

Lemma chain_fold_ids shelf_ids acc :
  (∀ (k : nat) st, acc !! k = Some st →
     SubTask.subtask_id st = task_id +:+ "_ST" +:+ pretty (Z.of_nat k + 1)) →
  ∀ (k : nat) st, fold_left emit shelf_ids acc !! k = Some st →
    SubTask.subtask_id st = task_id +:+ "_ST" +:+ pretty (Z.of_nat k + 1).
Proof.
  revert acc. induction shelf_ids as [|shelf_id shelf_ids IH]; intros acc Hacc; [done|].
  cbn [fold_left]. apply IH. intros k st Hk.
  destruct (decide (k < length acc)%nat) as [Hlt|Hge].
  - rewrite lookup_app_l in Hk by done. by apply Hacc.
  - rewrite lookup_app_r in Hk by lia.
    replace (Z.of_nat k + 1) with (Z.of_nat (length acc) + Z.of_nat (k - length acc) + 1)
      by lia.
    destruct (k - length acc)%nat as [|[|[|[|[|j]]]]]; simpl in Hk;
      [injection Hk as <-; simpl; do 3 f_equal; lia..|done].
Qed.
End chain_facts.

Section strings.
Lemma append_cancel (s a b : string) : s +:+ a = s +:+ b → a = b.
Proof. induction s as [|c s IH]; simpl; [done|]. intros [= H]. by apply IH. Qed.
End strings.

Section sorting.
Import TaskManager.
Context {A : Type}.

Lemma insert_by_perm (key : A → float) x l : insert_by key x l ≡ₚ x :: l.
Proof.
  induction l as [|y l IH]; simpl; [done|].
  destruct (_ <? _)%float; [done|]. rewrite IH. apply Permutation_swap.
Qed.

Lemma sort_by_fold_perm (key : A → float) l acc :
  fold_left (λ acc x, insert_by key x acc) l acc ≡ₚ acc ++ l.
Proof.
  revert acc. induction l as [|x l IH]; intros acc; simpl.
  - by rewrite app_nil_r.
  - rewrite IH, insert_by_perm. simpl. apply Permutation_middle.
Qed.

Lemma sort_by_perm (key : A → float) l : sort_by key l ≡ₚ l.
Proof. unfold sort_by. by rewrite sort_by_fold_perm. Qed.
End sorting.

Section creation_facts.
Import TaskManager.

(** What [create_task] builds, read off its body. *)
Lemma create_task_Some self task_id workstation_id items task self' :
  create_task self task_id workstation_id items = (Some task, self') →
  let shelf_items := ShelfManager.find_shelves_for_items (shelf_manager self) items in
  PickingTask.shelf_sequence task
  = sort_by (λ sid, PathPlanner._heuristic (path_planner self) workstation_id sid)
      (shelf_items.*1)
  ∧ PickingTask.subtasks task
    = fold_left
        (λ sts shelf_id,
           sts ++ shelf_subtasks task_id workstation_id (Z.of_nat (length sts))
                    shelf_id (lookup_items shelf_items shelf_id))
        (PickingTask.shelf_sequence task) []
  ∧ PickingTask.task_id task = task_id
  ∧ PickingTask.workstation_id task = workstation_id
  ∧ PickingTask.items task = items
  ∧ PickingTask.current_subtask_idx task = 0%nat
  ∧ PickingTask.status task = PENDING
  ∧ PickingTask.items_picked task = []
  ∧ tasks self' = <[task_id := task]> (tasks self)
  ∧ shelf_demand self'
    = fold_left (register_demand task_id workstation_id) shelf_items (shelf_demand self)
  ∧ shelf_manager self' = shelf_manager self
  ∧ path_planner self' = path_planner self.
Proof.
  unfold create_task.
  destruct (ShelfManager.find_shelves_for_items (shelf_manager self) items)
    as [|kv shelf_items] eqn:E; [done|].
  intros [= <- <-]. simpl. by split_and!.
Qed.
End creation_facts.

(** X19. A new task carries, for each shelf of its shelf sequence in turn,
    the five sub-tasks go-to-shelf, pick-up, deliver, wait-for-picking and
    return, aimed at the shelf, the shelf, the station, the station and the
    shelf; all are pending, the cursor is on the first, and the sub-task ids
    are the task id followed by [_ST1], [_ST2], ..., hence distinct. *)
Theorem create_task_builds_the_chain (self self' : TaskManager.t)
    (task_id : string) (workstation_id : Z) (items : list string)
    (task : PickingTask.t) :
  TaskManager.create_task self task_id workstation_id items = (Some task, self') →
  SubTask.subtask_type <$> PickingTask.subtasks task
  = PickingTask.shelf_sequence task ≫= (λ _, chain_kinds)
  ∧ SubTask.shelf_id <$> PickingTask.subtasks task
    = PickingTask.shelf_sequence task ≫= (λ shelf_id, replicate 5 shelf_id)
  ∧ SubTask.target_node <$> PickingTask.subtasks task
    = PickingTask.shelf_sequence task
      ≫= (λ shelf_id, [shelf_id; shelf_id; workstation_id; workstation_id; shelf_id])
  ∧ Forall (λ st, SubTask.status st = PENDING ∧ SubTask.assigned_robot st = None)
      (PickingTask.subtasks task)
  ∧ PickingTask.current_subtask_idx task = 0%nat
  ∧ (∀ (k : nat) st, PickingTask.subtasks task !! k = Some st →
       SubTask.subtask_id st = task_id +:+ "_ST" +:+ pretty (Z.of_nat k + 1))
  ∧ NoDup (SubTask.subtask_id <$> PickingTask.subtasks task).
Proof.
  intros H. apply create_task_Some in H as (_ & Hsts & _ & _ & _ & Hidx & _).
  assert (Hids : ∀ (k : nat) st, PickingTask.subtasks task !! k = Some st →
            SubTask.subtask_id st = task_id +:+ "_ST" +:+ pretty (Z.of_nat k + 1)).
  { rewrite Hsts. apply chain_fold_ids. intros k st Hk. by rewrite lookup_nil in Hk. }
  split_and!; try done.
  - rewrite Hsts. by rewrite (chain_fold_proj _ _ _ _ (λ _, chain_kinds)).
  - rewrite Hsts. by rewrite (chain_fold_proj _ _ _ _ (λ sid, replicate 5 sid)).
  - rewrite Hsts.
    by rewrite (chain_fold_proj _ _ _ _
                  (λ sid, [sid; sid; workstation_id; workstation_id; sid])).
  - rewrite Hsts. apply chain_fold_Forall; [|done].
    intros n shelf_id. by repeat constructor.
  - apply NoDup_alt. intros i j id Hi Hj.
    apply list_lookup_fmap_Some in Hi as (sti & -> & Hi).
    apply list_lookup_fmap_Some in Hj as (stj & Heq & Hj).
    rewrite (Hids i sti Hi), (Hids j stj Hj) in Heq.
    apply append_cancel, append_cancel, (inj pretty) in Heq. lia.
Qed.

Lemma create_task_builds_the_chain_witness :
  ∃ task,
    SubTask.subtask_type <$> PickingTask.subtasks task
    = PickingTask.shelf_sequence task ≫= (λ _, chain_kinds)
    ∧ SubTask.shelf_id <$> PickingTask.subtasks task
      = PickingTask.shelf_sequence task ≫= (λ shelf_id, replicate 5 shelf_id)
    ∧ SubTask.target_node <$> PickingTask.subtasks task
      = PickingTask.shelf_sequence task ≫= (λ shelf_id, [shelf_id; shelf_id; 50; 50; shelf_id])
    ∧ Forall (λ st, SubTask.status st = PENDING ∧ SubTask.assigned_robot st = None)
        (PickingTask.subtasks task)
    ∧ PickingTask.current_subtask_idx task = 0%nat
    ∧ (∀ (k : nat) st, PickingTask.subtasks task !! k = Some st →
         SubTask.subtask_id st = "T1" +:+ "_ST" +:+ pretty (Z.of_nat k + 1))
    ∧ NoDup (SubTask.subtask_id <$> PickingTask.subtasks task).
Proof.
  eexists.
  apply (create_task_builds_the_chain Warehouse.task_manager
           (TaskManager.create_task Warehouse.task_manager "T1" 50 ["A"]).2
           "T1" 50 ["A"]).
  vm_compute. reflexivity.
Defined.

Section chain_cover.
Import TaskManager.
Variable task_id : string.
Variable workstation_id : Z.
Variable shelf_items : list (Z * list string).

Local Abbreviation emit :=
  (λ (sts : list SubTask.t) (shelf_id : Z),
     sts ++ shelf_subtasks task_id workstation_id (Z.of_nat (length sts)) shelf_id
              (lookup_items shelf_items shelf_id)).

Lemma chain_fold_incl shelf_ids acc st :
  st ∈ acc → st ∈ fold_left emit shelf_ids acc.
Proof.
  revert acc. induction shelf_ids as [|shelf_id shelf_ids IH]; intros acc Hin; [done|].
  cbn [fold_left]. apply IH. apply elem_of_app. by left.
Qed.

Lemma chain_fold_wait shelf_ids acc shelf_id :
  shelf_id ∈ shelf_ids →
  ∃ st, st ∈ fold_left emit shelf_ids acc
        ∧ SubTask.subtask_type st = WAIT_PICKING
        ∧ SubTask.shelf_id st = shelf_id
        ∧ SubTask.items_to_pick st = lookup_items shelf_items shelf_id.
Proof.
  revert acc. induction shelf_ids as [|sid shelf_ids IH]; intros acc Hin.
  - by apply elem_of_nil in Hin.
  - apply elem_of_cons in Hin as [->|Hin]; [|by apply IH].
    cbn [fold_left]. eexists. split.
    + apply chain_fold_incl, elem_of_app. right.
      unfold shelf_subtasks. do 3 apply list_elem_of_further. apply list_elem_of_here.
    + done.
Qed.
End chain_cover.

Section sequence_facts.
Import TaskManager.

Lemma needed_shelves self items shelf_id :
  shelf_id ∈ (ShelfManager.find_shelves_for_items self items).*1
  ↔ ∃ item, item ∈ items ∧ ShelfManager.item_to_shelf self !! item = Some shelf_id.
Proof.
  destruct (find_shelves_for_items_grouped self items) as (Hnd & Hlook & Hne).
  split.
  - intros Hin. apply list_elem_of_fmap in Hin as ([k its] & -> & Hin). simpl.
    pose proof (Hne _ _ Hin) as Hits.
    rewrite <- (lookup_items_elem _ _ _ Hnd Hin), Hlook in Hits.
    destruct (filter _ items) as [|item rest] eqn:E; [done|].
    assert (Hitem : item ∈ filter
              (λ item, ShelfManager.item_to_shelf self !! item = Some k) items)
      by (rewrite E; apply list_elem_of_here).
    apply list_elem_of_filter in Hitem as [? ?]. by exists item.
  - intros (item & Hitem & Hidx).
    assert (Hin : item ∈ lookup_items (ShelfManager.find_shelves_for_items self items)
                           shelf_id).
    { rewrite Hlook. by apply list_elem_of_filter. }
    apply list_elem_of_fmap. exists (shelf_id, lookup_items
      (ShelfManager.find_shelves_for_items self items) shelf_id).
    split; [done|]. apply lookup_items_found.
    intros Hnil. rewrite Hnil in Hin. by apply elem_of_nil in Hin.
Qed.

Lemma shelf_sequence_perm self task_id workstation_id items task self' :
  create_task self task_id workstation_id items = (Some task, self') →
  PickingTask.shelf_sequence task
  ≡ₚ (ShelfManager.find_shelves_for_items (shelf_manager self) items).*1.
Proof.
  intros H. apply create_task_Some in H as (-> & _). apply sort_by_perm.
Qed.
End sequence_facts.

(** X20. The shelf sequence of a new task visits exactly the shelves that
    the index gives for some requested item, each of them once. *)
Theorem shelf_sequence_visits_each_needed_shelf_once (self self' : TaskManager.t)
    (task_id : string) (workstation_id : Z) (items : list string)
    (task : PickingTask.t) :
  TaskManager.create_task self task_id workstation_id items = (Some task, self') →
  NoDup (PickingTask.shelf_sequence task)
  ∧ ∀ shelf_id,
      shelf_id ∈ PickingTask.shelf_sequence task
      ↔ ∃ item, item ∈ items
                ∧ ShelfManager.item_to_shelf (TaskManager.shelf_manager self) !! item
                  = Some shelf_id.
Proof.
  intros H. pose proof (shelf_sequence_perm _ _ _ _ _ _ H) as Hperm. split.
  - rewrite Hperm.
    by destruct (find_shelves_for_items_grouped (TaskManager.shelf_manager self) items).
  - intros shelf_id. rewrite Hperm. apply needed_shelves.
Qed.

Lemma shelf_sequence_visits_each_needed_shelf_once_witness :
  ∃ task,
    NoDup (PickingTask.shelf_sequence task)
    ∧ ∀ shelf_id,
        shelf_id ∈ PickingTask.shelf_sequence task
        ↔ ∃ item, item ∈ ["A"; "nowhere"]
                  ∧ ShelfManager.item_to_shelf
                      (TaskManager.shelf_manager Warehouse.task_manager) !! item
                    = Some shelf_id.
Proof.
  eexists.
  apply (shelf_sequence_visits_each_needed_shelf_once Warehouse.task_manager
           (TaskManager.create_task Warehouse.task_manager "T1" 50 ["A"; "nowhere"]).2
           "T1" 50 ["A"; "nowhere"]).
  vm_compute. reflexivity.
Defined.

(** X21. In a new task only the wait-for-picking sub-tasks ask for items,
    and the one of a shelf asks for exactly the requested items that the
    index sends to that shelf, in request order; every requested item that
    is indexed is asked for at the wait-for-picking sub-task of its shelf. *)
Theorem wait_picking_asks_for_the_shelf_items (self self' : TaskManager.t)
    (task_id : string) (workstation_id : Z) (items : list string)
    (task : PickingTask.t) :
  TaskManager.create_task self task_id workstation_id items = (Some task, self') →
  Forall (asks_for (TaskManager.shelf_manager self) items) (PickingTask.subtasks task)
  ∧ ∀ item shelf_id,
      item ∈ items →
      ShelfManager.item_to_shelf (TaskManager.shelf_manager self) !! item = Some shelf_id →
      ∃ st, st ∈ PickingTask.subtasks task
            ∧ SubTask.subtask_type st = WAIT_PICKING
            ∧ SubTask.shelf_id st = shelf_id
            ∧ item ∈ SubTask.items_to_pick st.
Proof.
  intros H. pose proof (shelf_sequence_perm _ _ _ _ _ _ H) as Hperm.
  apply create_task_Some in H as (_ & Hsts & _).
  destruct (find_shelves_for_items_grouped (TaskManager.shelf_manager self) items)
    as (Hnd & Hlook & Hne).
  split.
  - rewrite Hsts. apply chain_fold_Forall; [|done].
    intros n shelf_id. unfold TaskManager.shelf_subtasks, asks_for.
    repeat constructor. simpl. apply Hlook.
  - intros item shelf_id Hitem Hidx.
    assert (Hseq : shelf_id ∈ PickingTask.shelf_sequence task).
    { rewrite Hperm. apply needed_shelves. by exists item. }
    destruct (chain_fold_wait task_id workstation_id
                (ShelfManager.find_shelves_for_items (TaskManager.shelf_manager self) items)
                _ [] _ Hseq) as (st & Hin & Hty & Hsid & Hits).
    exists st. rewrite <- Hsts in Hin. split_and!; try done.
    rewrite Hits, Hlook. by apply list_elem_of_filter.
Qed.

Lemma wait_picking_asks_for_the_shelf_items_witness :
  ∃ task,
    Forall (asks_for (TaskManager.shelf_manager Warehouse.task_manager) ["A"; "nowhere"; "C"])
      (PickingTask.subtasks task)
    ∧ ∀ item shelf_id,
        item ∈ ["A"; "nowhere"; "C"] →
        ShelfManager.item_to_shelf (TaskManager.shelf_manager Warehouse.task_manager) !! item
        = Some shelf_id →
        ∃ st, st ∈ PickingTask.subtasks task
              ∧ SubTask.subtask_type st = WAIT_PICKING
              ∧ SubTask.shelf_id st = shelf_id
              ∧ item ∈ SubTask.items_to_pick st.
Proof.
  eexists.
  apply (wait_picking_asks_for_the_shelf_items Warehouse.task_manager
           (TaskManager.create_task Warehouse.task_manager "T1" 50 ["A"; "nowhere"; "C"]).2
           "T1" 50 ["A"; "nowhere"; "C"]).
  vm_compute. reflexivity.
Defined.

(** ** Progress through the chain *)

Section progress.
Import PickingTask.

Lemma same_request_refl task : same_request task task.
Proof. by unfold same_request. Qed.

Lemma same_request_trans a b c :
  same_request a b → same_request b c → same_request a c.
Proof.
  unfold same_request. intros (?&?&?&?&?&?&?&?) (?&?&?&?&?&?&?&?).
  split_and!; congruence.
Qed.

Lemma advance_subtask_same task : same_request task (advance_subtask task).2.
Proof.
  unfold advance_subtask, same_request. cbv zeta.
  destruct (_ !! S _); simpl; split_and!; try done;
    case_bool_decide; by rewrite ?length_insert, ?length_alter.
Qed.

Lemma advance_subtask_idx task :
  current_subtask_idx (advance_subtask task).2 = S (current_subtask_idx task).
Proof. unfold advance_subtask. cbv zeta. by destruct (_ !! S _). Qed.

Lemma advance_subtask_current task :
  get_current_subtask (advance_subtask task).2 = (advance_subtask task).1.
Proof.
  unfold advance_subtask, get_current_subtask. cbv zeta.
  destruct (_ !! S _) eqn:E; simpl; [|done].
  apply list_lookup_insert_eq. by apply lookup_lt_Some in E.
Qed.

Lemma advance_subtask_in_progress task st :
  (advance_subtask task).1 = Some st → SubTask.status st = IN_PROGRESS.
Proof.
  unfold advance_subtask. cbv zeta. destruct (_ !! S _); simpl; [|done].
  by intros [= <-].
Qed.

Lemma advance_subtask_next task :
  (advance_subtask task).1
  = (λ st, SubTask.set_status st IN_PROGRESS)
      <$> subtasks task !! S (current_subtask_idx task).
Proof.
  unfold advance_subtask. cbv zeta.
  assert (H : (if bool_decide (current_subtask_idx task < length (subtasks task))%nat
               then alter (λ st, SubTask.set_status st COMPLETED)
                      (current_subtask_idx task) (subtasks task)
               else subtasks task) !! S (current_subtask_idx task)
              = subtasks task !! S (current_subtask_idx task)).
  { case_bool_decide; [|done]. apply list_lookup_alter_ne. lia. }
  rewrite H. clear H. by destruct (_ !! S _).
Qed.

Lemma advance_subtask_completes task st :
  get_current_subtask task = Some st →
  subtasks (advance_subtask task).2 !! current_subtask_idx task
  = Some (SubTask.set_status st COMPLETED).
Proof.
  unfold get_current_subtask, advance_subtask. cbv zeta. intros Hcur.
  rewrite bool_decide_eq_true_2 by (by apply lookup_lt_Some in Hcur).
  destruct (_ !! S _); simpl;
    rewrite ?list_lookup_insert_ne by lia; by rewrite list_lookup_alter_eq, Hcur.
Qed.
End progress.

Section shelf_action.
Import TaskManager.

Lemma retarget_same task sts :
  length sts = length (PickingTask.subtasks task) →
  same_request task
    (PickingTask.with_progress task sts (PickingTask.current_subtask_idx task)).
Proof. intros H. unfold same_request. simpl. by split_and!. Qed.

Lemma decide_shelf_action_same self task shelf_id :
  same_request task (_decide_shelf_action self task shelf_id).2.
Proof.
  unfold _decide_shelf_action.
  pose proof (advance_subtask_same task) as Hadv.
  destruct (PickingTask.advance_subtask task) as [next_st task1]. simpl in Hadv.
  destruct (_check_shelf_needed_elsewhere _ _ _), next_st; simpl; try done;
    (eapply same_request_trans; [exact Hadv|]); apply retarget_same;
    by rewrite length_insert.
Qed.

Lemma decide_shelf_action_idx self task shelf_id :
  PickingTask.current_subtask_idx (_decide_shelf_action self task shelf_id).2
  = S (PickingTask.current_subtask_idx task).
Proof.
  unfold _decide_shelf_action.
  pose proof (advance_subtask_idx task) as Hadv.
  destruct (PickingTask.advance_subtask task) as [next_st task1]. simpl in Hadv.
  by destruct (_check_shelf_needed_elsewhere _ _ _), next_st.
Qed.

(** The sub-task under the cursor after a shelf decision is the one the
    answer speaks of. *)
Lemma decide_shelf_action_target self task shelf_id :
  match (_decide_shelf_action self task shelf_id).1 with
  | ShelfDoneForward ws sid =>
      sid = shelf_id
      ∧ _check_shelf_needed_elsewhere self shelf_id (PickingTask.workstation_id task)
        = Some ws
      ∧ ∃ nxt st,
          PickingTask.subtasks task !! S (PickingTask.current_subtask_idx task)
          = Some nxt
          ∧ PickingTask.get_current_subtask (_decide_shelf_action self task shelf_id).2
            = Some st
          ∧ st = SubTask.retarget (SubTask.set_status nxt IN_PROGRESS) FORWARD_SHELF ws
  | ShelfDoneReturn pos sid =>
      sid = shelf_id
      ∧ _check_shelf_needed_elsewhere self shelf_id (PickingTask.workstation_id task)
        = None
      ∧ pos = default shelf_id
                (ShelfManager.find_nearest_empty_position (shelf_manager self)
                   (PickingTask.workstation_id task) (path_planner self))
      ∧ ∃ nxt st,
          PickingTask.subtasks task !! S (PickingTask.current_subtask_idx task)
          = Some nxt
          ∧ PickingTask.get_current_subtask (_decide_shelf_action self task shelf_id).2
            = Some st
          ∧ st = SubTask.retarget (SubTask.set_status nxt IN_PROGRESS)
                   (SubTask.subtask_type nxt) pos
  | Error _ =>
      PickingTask.subtasks task !! S (PickingTask.current_subtask_idx task) = None
  | _ => False
  end.
Proof.
  unfold _decide_shelf_action.
  pose proof (advance_subtask_same task) as (_ & Hws & _).
  pose proof (advance_subtask_idx task) as Hidx.
  pose proof (advance_subtask_current task) as Hcur.
  pose proof (advance_subtask_next task) as Hnext.
  destruct (PickingTask.advance_subtask task) as [next_st task1].
  simpl in Hws, Hidx, Hcur, Hnext. rewrite <- Hws.
  assert (Hlt : is_Some next_st →
            (PickingTask.current_subtask_idx task1
             < length (PickingTask.subtasks task1))%nat).
  { intros [st Hst]. rewrite Hst in Hcur. by apply lookup_lt_Some in Hcur. }
  destruct (_check_shelf_needed_elsewhere _ _ _) as [ws|],
    (PickingTask.subtasks task !! S _) as [nxt|]; simpl in Hnext;
    rewrite Hnext in *; simpl; try done.
  - split_and!; try done. eexists _, _. split_and!; [done| |done].
    unfold PickingTask.get_current_subtask. simpl.
    apply list_lookup_insert_eq. by apply Hlt.
  - split_and!; try done. eexists _, _. split_and!; [done| |done].
    unfold PickingTask.get_current_subtask. simpl.
    apply list_lookup_insert_eq. by apply Hlt.
Qed.

Lemma filter_not_picked_nil (picked l : list string) :
  filter (λ i, i ∉ picked) l = [] ↔ ∀ i, i ∈ l → i ∈ picked.
Proof.
  induction l as [|x l IH]; simpl.
  - split; [|done]. intros _ i Hi. by apply elem_of_nil in Hi.
  - rewrite filter_cons. destruct (decide (x ∉ picked)) as [Hx|Hx].
    + split; [done|]. intros H. destruct Hx. apply H, list_elem_of_here.
    + rewrite IH. apply dec_stable in Hx. split.
      * intros H i [->|Hi]%elem_of_cons; [done | by apply H].
      * intros H i Hi. apply H, list_elem_of_further, Hi.
Qed.

(** The two ways a reported pick of a known task ends: the pick is recorded
    and nothing else changes, or the shelf is finished and the shelf
    decision runs on the recorded task. *)
Lemma handle_item_picked_cases self task_id item task :
  tasks self !! task_id = Some task →
  let task1 :=
    if bool_decide (item ∈ PickingTask.items_picked task) then task
    else PickingTask.with_items_picked task (PickingTask.items_picked task ++ [item]) in
  let self1 := with_tasks self (<[task_id := task1]> (tasks self)) in
  (¬ shelf_finished task1
   ∧ (handle_item_picked self task_id item).2 = self1
   ∧ ((handle_item_picked self task_id item).1 = Error "Not in WAIT_PICKING state"
      ∨ ∃ st, PickingTask.get_current_subtask task1 = Some st
              ∧ (handle_item_picked self task_id item).1
                = ContinuePicking
                    (filter (λ i, i ∉ PickingTask.items_picked task1)
                       (SubTask.items_to_pick st))
                    (filter (λ i, i ∉ PickingTask.items_picked task1)
                       (PickingTask.items task1))))
  ∨ (shelf_finished task1
     ∧ ∃ st, PickingTask.get_current_subtask task1 = Some st
         ∧ SubTask.subtask_type st = WAIT_PICKING
         ∧ handle_item_picked self task_id item
           = ((_decide_shelf_action self1 task1 (SubTask.shelf_id st)).1,
              with_tasks self1
                (<[task_id := (_decide_shelf_action self1 task1 (SubTask.shelf_id st)).2]>
                   (tasks self1)))).
Proof.
  intros Htask task1 self1. unfold handle_item_picked. rewrite Htask.
  fold task1. fold self1.
  destruct (PickingTask.get_current_subtask task1) as [st|] eqn:Hcur.
  - destruct (SubTask.subtask_type st) eqn:Hty;
      try (left; split_and!; [|done|by left];
           intros (st' & Hst' & Hty' & _); congruence).
    destruct (filter _ (SubTask.items_to_pick st)) as [|i rest] eqn:Hrem.
    + right. pose proof (proj1 (filter_not_picked_nil _ _) Hrem) as Hall. split.
      * exists st. by split_and!.
      * exists st. split_and!; [done..|].
        by destruct (_decide_shelf_action self1 task1 (SubTask.shelf_id st)).
    + left. split_and!; [|done|].
      * intros (st' & Hst' & _ & Hall). rewrite Hcur in Hst'. injection Hst' as <-.
        apply (proj2 (filter_not_picked_nil _ _)) in Hall. by rewrite Hall in Hrem.
      * right. exists st. by rewrite Hrem.
  - left. split_and!; [|done|by left]. intros (st' & Hst' & _). congruence.
Qed.
End shelf_action.

(** X22. A reported pick of a known task is recorded whatever the answer is:
    afterwards the picked items are the earlier ones, in their order, with
    the reported item added at the end unless it was there already, so the
    record stays free of duplicates. The request itself, the other tasks,
    the demand table and the shelf registry are left as they were. *)
Theorem handle_item_picked_records_each_item_once (self : TaskManager.t)
    (task_id item : string) (task : PickingTask.t) :
  TaskManager.tasks self !! task_id = Some task →
  ∃ task',
    TaskManager.tasks (TaskManager.handle_item_picked self task_id item).2 !! task_id
    = Some task'
    ∧ (∀ i, i ∈ PickingTask.items_picked task'
            ↔ i ∈ PickingTask.items_picked task ∨ i = item)
    ∧ PickingTask.items_picked task `prefix_of` PickingTask.items_picked task'
    ∧ (NoDup (PickingTask.items_picked task) → NoDup (PickingTask.items_picked task'))
    ∧ PickingTask.items task' = PickingTask.items task
    ∧ PickingTask.workstation_id task' = PickingTask.workstation_id task
    ∧ PickingTask.status task' = PickingTask.status task
    ∧ (∀ other, other ≠ task_id →
         TaskManager.tasks (TaskManager.handle_item_picked self task_id item).2 !! other
         = TaskManager.tasks self !! other)
    ∧ TaskManager.shelf_demand (TaskManager.handle_item_picked self task_id item).2
      = TaskManager.shelf_demand self
    ∧ TaskManager.shelf_manager (TaskManager.handle_item_picked self task_id item).2
      = TaskManager.shelf_manager self.
Proof.
  intros Htask.
  pose proof (handle_item_picked_cases self task_id item task Htask) as Hcases.
  cbv zeta in Hcases.
  set (task1 := if bool_decide (item ∈ PickingTask.items_picked task) then task
                else PickingTask.with_items_picked task
                       (PickingTask.items_picked task ++ [item])) in *.
  assert (H1 : (∀ i, i ∈ PickingTask.items_picked task1
                     ↔ i ∈ PickingTask.items_picked task ∨ i = item)
               ∧ PickingTask.items_picked task `prefix_of` PickingTask.items_picked task1
               ∧ (NoDup (PickingTask.items_picked task) →
                  NoDup (PickingTask.items_picked task1))
               ∧ PickingTask.items task1 = PickingTask.items task
               ∧ PickingTask.workstation_id task1 = PickingTask.workstation_id task
               ∧ PickingTask.status task1 = PickingTask.status task).
  { unfold task1. case_bool_decide as Hin; simpl.
    - split_and!; try done. intros i. split; [by left|]. by intros [?| ->].
    - split_and!; try done.
      + intros i. rewrite elem_of_app, list_elem_of_singleton. done.
      + by apply prefix_app_r.
      + intros Hnd. apply NoDup_app. split_and!; [done| |apply NoDup_singleton].
        intros i Hi ->%list_elem_of_singleton. done. }
  destruct H1 as (Hmem & Hpre & Hnd & Hit & Hws & Hst).
  destruct Hcases as [(_ & -> & _)|(_ & st & _ & _ & ->)].
  - exists task1. simpl. rewrite lookup_insert_eq. split_and!; try done.
    intros other Hne. by rewrite lookup_insert_ne.
  - pose proof (decide_shelf_action_same
                  (TaskManager.with_tasks self (<[task_id:=task1]> (TaskManager.tasks self)))
                  task1 (SubTask.shelf_id st)) as (_ & Hws' & Hit' & _ & Hst' & Hpk' & _).
    eexists. simpl. rewrite lookup_insert_eq. split; [done|].
    rewrite <- Hpk', <- Hit', <- Hws', <- Hst'. split_and!; try done.
    intros other Hne. by rewrite !lookup_insert_ne.
Qed.

Lemma handle_item_picked_records_each_item_once_witness :
  ∃ task task',
    TaskManager.tasks Warehouse.at_station !! "T1" = Some task
    ∧ TaskManager.tasks (TaskManager.handle_item_picked Warehouse.at_station "T1" "A").2
        !! "T1" = Some task'
    ∧ (∀ i, i ∈ PickingTask.items_picked task'
            ↔ i ∈ PickingTask.items_picked task ∨ i = "A")
    ∧ PickingTask.items_picked task `prefix_of` PickingTask.items_picked task'
    ∧ (NoDup (PickingTask.items_picked task) → NoDup (PickingTask.items_picked task'))
    ∧ PickingTask.items task' = PickingTask.items task
    ∧ PickingTask.workstation_id task' = PickingTask.workstation_id task
    ∧ PickingTask.status task' = PickingTask.status task
    ∧ (∀ other, other ≠ "T1" →
         TaskManager.tasks (TaskManager.handle_item_picked Warehouse.at_station "T1" "A").2
           !! other
         = TaskManager.tasks Warehouse.at_station !! other)
    ∧ TaskManager.shelf_demand (TaskManager.handle_item_picked Warehouse.at_station "T1" "A").2
      = TaskManager.shelf_demand Warehouse.at_station
    ∧ TaskManager.shelf_manager
        (TaskManager.handle_item_picked Warehouse.at_station "T1" "A").2
      = TaskManager.shelf_manager Warehouse.at_station.
Proof.
  assert (Htask : ∃ task, TaskManager.tasks Warehouse.at_station !! "T1" = Some task).
  { eexists. vm_compute. reflexivity. }
  destruct Htask as (task & Htask).
  destruct (handle_item_picked_records_each_item_once
              Warehouse.at_station "T1" "A" task Htask) as (task' & H).
  by exists task, task'.
Defined.

(** X23. A reported pick moves the cursor of a known task by one exactly when
    the task stands at a wait-for-picking sub-task and, counting the
    reported item, every item of that sub-task is picked; otherwise the
    cursor and the sub-tasks stay as they were. The number of sub-tasks
    never changes. *)
Theorem handle_item_picked_advances_when_shelf_is_done (self : TaskManager.t)
    (task_id item : string) (task : PickingTask.t) :
  TaskManager.tasks self !! task_id = Some task →
  let all_picked :=
    ∃ st, PickingTask.get_current_subtask task = Some st
          ∧ SubTask.subtask_type st = WAIT_PICKING
          ∧ ∀ i, i ∈ SubTask.items_to_pick st →
                 i ∈ PickingTask.items_picked task ∨ i = item in
  ∃ task',
    TaskManager.tasks (TaskManager.handle_item_picked self task_id item).2 !! task_id
    = Some task'
    ∧ length (PickingTask.subtasks task') = length (PickingTask.subtasks task)
    ∧ ((all_picked
        ∧ PickingTask.current_subtask_idx task'
          = S (PickingTask.current_subtask_idx task))
       ∨ (¬ all_picked
          ∧ PickingTask.current_subtask_idx task' = PickingTask.current_subtask_idx task
          ∧ PickingTask.subtasks task' = PickingTask.subtasks task)).
Proof.
  intros Htask all_picked.
  pose proof (handle_item_picked_cases self task_id item task Htask) as Hcases.
  cbv zeta in Hcases.
  set (task1 := if bool_decide (item ∈ PickingTask.items_picked task) then task
                else PickingTask.with_items_picked task
                       (PickingTask.items_picked task ++ [item])) in *.
  assert (H1 : PickingTask.subtasks task1 = PickingTask.subtasks task
               ∧ PickingTask.current_subtask_idx task1
                 = PickingTask.current_subtask_idx task
               ∧ ∀ i, i ∈ PickingTask.items_picked task1
                      ↔ i ∈ PickingTask.items_picked task ∨ i = item).
  { unfold task1. case_bool_decide as Hin; simpl.
    - split_and!; try done. intros i. split; [by left|]. by intros [?| ->].
    - split_and!; try done.
      intros i. by rewrite elem_of_app, list_elem_of_singleton. }
  destruct H1 as (Hsts & Hidx & Hmem).
  assert (Hfin : shelf_finished task1 ↔ all_picked).
  { unfold shelf_finished, all_picked, PickingTask.get_current_subtask.
    rewrite Hsts, Hidx. by setoid_rewrite Hmem. }
  destruct Hcases as [(Hnot & -> & _)|(Hyes & st & _ & _ & ->)].
  - exists task1. simpl. rewrite lookup_insert_eq. split_and!; [done|by rewrite Hsts|].
    right. by rewrite <- Hfin.
  - pose proof (decide_shelf_action_same
                  (TaskManager.with_tasks self (<[task_id:=task1]> (TaskManager.tasks self)))
                  task1 (SubTask.shelf_id st)) as (_ & _ & _ & _ & _ & _ & _ & Hlen).
    eexists. simpl. rewrite lookup_insert_eq. split_and!; [done| |].
    + by rewrite <- Hlen, Hsts.
    + left. rewrite decide_shelf_action_idx, Hidx. by rewrite <- Hfin.
Qed.

Lemma handle_item_picked_advances_when_shelf_is_done_witness :
  ∃ task task',
    TaskManager.tasks Warehouse.at_station !! "T1" = Some task
    ∧ TaskManager.tasks (TaskManager.handle_item_picked Warehouse.at_station "T1" "A").2
        !! "T1" = Some task'
    ∧ length (PickingTask.subtasks task') = length (PickingTask.subtasks task)
    ∧ (((∃ st, PickingTask.get_current_subtask task = Some st
               ∧ SubTask.subtask_type st = WAIT_PICKING
               ∧ ∀ i, i ∈ SubTask.items_to_pick st →
                      i ∈ PickingTask.items_picked task ∨ i = "A")
        ∧ PickingTask.current_subtask_idx task'
          = S (PickingTask.current_subtask_idx task))
       ∨ (¬ (∃ st, PickingTask.get_current_subtask task = Some st
                   ∧ SubTask.subtask_type st = WAIT_PICKING
                   ∧ ∀ i, i ∈ SubTask.items_to_pick st →
                          i ∈ PickingTask.items_picked task ∨ i = "A")
          ∧ PickingTask.current_subtask_idx task' = PickingTask.current_subtask_idx task
          ∧ PickingTask.subtasks task' = PickingTask.subtasks task)).
Proof.
  assert (Htask : ∃ task, TaskManager.tasks Warehouse.at_station !! "T1" = Some task).
  { eexists. vm_compute. reflexivity. }
  destruct Htask as (task & Htask).
  destruct (handle_item_picked_advances_when_shelf_is_done
              Warehouse.at_station "T1" "A" task Htask) as (task' & H).
  by exists task, task'.
Defined.

(** X24. When a reported pick finishes the shelf, the answer and the stored
    task agree. On "forward" the sub-task now under the cursor is a
    forward-shelf sub-task, in progress, aimed at the station named in the
    answer, which is not the task's own station. On "return" the sub-task
    under the cursor is in progress and aimed at the node named in the
    answer, which is a free shelf slot or else the node of the shelf
    itself. In both the shelf named is the one of the wait-for-picking
    sub-task just left, and that sub-task is now marked completed. *)
Theorem shelf_done_answer_matches_the_stored_subtask (self : TaskManager.t)
    (task_id item : string) (task : PickingTask.t) :
  TaskManager.tasks self !! task_id = Some task →
  let r := TaskManager.handle_item_picked self task_id item in
  let left_behind task' shelf_id :=
    ∃ st, PickingTask.get_current_subtask task = Some st
          ∧ SubTask.subtask_type st = WAIT_PICKING
          ∧ SubTask.shelf_id st = shelf_id
          ∧ PickingTask.subtasks task' !! PickingTask.current_subtask_idx task
            = Some (SubTask.set_status st COMPLETED) in
  match r.1 with
  | TaskManager.ShelfDoneForward ws shelf_id =>
      ∃ task' st,
        TaskManager.tasks r.2 !! task_id = Some task'
        ∧ PickingTask.get_current_subtask task' = Some st
        ∧ SubTask.subtask_type st = FORWARD_SHELF
        ∧ SubTask.target_node st = ws
        ∧ SubTask.status st = IN_PROGRESS
        ∧ ws ≠ PickingTask.workstation_id task
        ∧ left_behind task' shelf_id
  | TaskManager.ShelfDoneReturn pos shelf_id =>
      ∃ task' st,
        TaskManager.tasks r.2 !! task_id = Some task'
        ∧ PickingTask.get_current_subtask task' = Some st
        ∧ SubTask.target_node st = pos
        ∧ SubTask.status st = IN_PROGRESS
        ∧ (pos = shelf_id
           ∨ (pos ∈ ShelfManager.all_shelf_nodes (TaskManager.shelf_manager self)
              ∧ ¬ occupied_slot (TaskManager.shelf_manager self) pos))
        ∧ left_behind task' shelf_id
  | _ => True
  end.
Proof.
  intros Htask r left_behind. subst r.
  pose proof (handle_item_picked_cases self task_id item task Htask) as Hcases.
  cbv zeta in Hcases.
  set (task1 := if bool_decide (item ∈ PickingTask.items_picked task) then task
                else PickingTask.with_items_picked task
                       (PickingTask.items_picked task ++ [item])) in *.
  assert (H1 : PickingTask.subtasks task1 = PickingTask.subtasks task
               ∧ PickingTask.current_subtask_idx task1
                 = PickingTask.current_subtask_idx task
               ∧ PickingTask.workstation_id task1 = PickingTask.workstation_id task).
  { unfold task1. by case_bool_decide. }
  destruct H1 as (Hsts & Hidx & Hws).
  destruct Hcases as [(_ & _ & [-> | (st & _ & ->)])|(_ & st & Hcur & Hty & ->)]; try done.
  set (self1 := TaskManager.with_tasks self (<[task_id:=task1]> (TaskManager.tasks self))).
  pose proof (decide_shelf_action_target self1 task1 (SubTask.shelf_id st)) as Htarget.
  assert (Hleft : ∀ task2,
            PickingTask.subtasks task2 !! PickingTask.current_subtask_idx task
            = PickingTask.subtasks (PickingTask.advance_subtask task1).2
                !! PickingTask.current_subtask_idx task →
            left_behind task2 (SubTask.shelf_id st)).
  { intros task2 Heq. exists st. split_and!; try done.
    - unfold PickingTask.get_current_subtask in *. by rewrite <- Hsts, <- Hidx.
    - rewrite Heq, <- Hidx. by apply advance_subtask_completes. }
  assert (Hkeep :
            PickingTask.subtasks (TaskManager._decide_shelf_action self1 task1
                                    (SubTask.shelf_id st)).2
              !! PickingTask.current_subtask_idx task
            = PickingTask.subtasks (PickingTask.advance_subtask task1).2
                !! PickingTask.current_subtask_idx task).
  { unfold TaskManager._decide_shelf_action.
    pose proof (advance_subtask_idx task1) as Hadv.
    destruct (PickingTask.advance_subtask task1) as [next_st task2]. simpl in Hadv.
    destruct (TaskManager._check_shelf_needed_elsewhere _ _ _), next_st; simpl;
      try done; apply list_lookup_insert_ne; lia. }
  simpl.
  destruct ((TaskManager._decide_shelf_action self1 task1 (SubTask.shelf_id st)).1)
    as [| |ws sid|pos sid| | |]; try done.
  - destruct Htarget as (-> & Hfwd & nxt & st' & _ & Hcur' & ->).
    eexists _, _. rewrite lookup_insert_eq. split_and!; try done.
    + unfold TaskManager._check_shelf_needed_elsewhere in Hfwd.
      pose proof (first_elsewhere_spec self1 (PickingTask.workstation_id task1)
                    (default [] (TaskManager.shelf_demand self1 !! SubTask.shelf_id st)))
        as Hspec.
      rewrite Hfwd in Hspec. destruct Hspec as (ds1 & d & ds2 & _ & (Hne & _) & -> & _).
      by rewrite <- Hws.
    + apply Hleft, Hkeep.
  - destruct Htarget as (-> & _ & -> & nxt & st' & _ & Hcur' & ->).
    eexists _, _. rewrite lookup_insert_eq. split_and!; try done.
    + destruct (ShelfManager.find_nearest_empty_position _ _ _) as [pos|] eqn:Hpos;
        simpl; [right|by left].
      unfold ShelfManager.find_nearest_empty_position in Hpos.
      apply nearest_fold in Hpos as [Hpos|Hpos]; [done|].
      by apply empty_positions_elem.
    + apply Hleft, Hkeep.
Qed.

Lemma shelf_done_answer_matches_the_stored_subtask_witness :
  ∃ task,
    TaskManager.tasks Warehouse.at_station !! "T1" = Some task
    ∧ let r := TaskManager.handle_item_picked Warehouse.at_station "T1" "A" in
      r.1 = TaskManager.ShelfDoneForward 51 9
      ∧ ∃ task' st,
          TaskManager.tasks r.2 !! "T1" = Some task'
          ∧ PickingTask.get_current_subtask task' = Some st
          ∧ SubTask.subtask_type st = FORWARD_SHELF
          ∧ SubTask.target_node st = 51
          ∧ SubTask.status st = IN_PROGRESS
          ∧ 51 ≠ PickingTask.workstation_id task
          ∧ ∃ st0, PickingTask.get_current_subtask task = Some st0
                   ∧ SubTask.subtask_type st0 = WAIT_PICKING
                   ∧ SubTask.shelf_id st0 = 9
                   ∧ PickingTask.subtasks task' !! PickingTask.current_subtask_idx task
                     = Some (SubTask.set_status st0 COMPLETED).
Proof.
  assert (Htask : ∃ task, TaskManager.tasks Warehouse.at_station !! "T1" = Some task).
  { eexists. vm_compute. reflexivity. }
  destruct Htask as (task & Htask). exists task. split; [done|].
  pose proof (shelf_done_answer_matches_the_stored_subtask
                Warehouse.at_station "T1" "A" task Htask) as H.
  cbv zeta in H |- *.
  assert (Hr : (TaskManager.handle_item_picked Warehouse.at_station "T1" "A").1
               = TaskManager.ShelfDoneForward 51 9) by (vm_compute; reflexivity).
  rewrite Hr in H. by split.
Defined.

Section completion.
Import TaskManager.

Lemma remove_shelf_demand_lookup self task_id shelf_id :
  default [] (shelf_demand (_remove_shelf_demand self task_id) !! shelf_id)
  = filter (λ d, d_task_id d ≠ task_id) (default [] (shelf_demand self !! shelf_id))
  ∧ shelf_demand (_remove_shelf_demand self task_id) !! shelf_id ≠ Some [].
Proof.
  unfold _remove_shelf_demand. simpl. rewrite lookup_omap.
  destruct (shelf_demand self !! shelf_id) as [ds|]; simpl; [|done].
  by destruct (filter _ ds).
Qed.

(** What [handle_subtask_complete] does away from a wait-for-picking
    sub-task, in terms of [advance_subtask]. *)
Lemma handle_subtask_complete_moves self task_id task st :
  tasks self !! task_id = Some task →
  PickingTask.get_current_subtask task = Some st →
  SubTask.subtask_type st ≠ WAIT_PICKING →
  handle_subtask_complete self task_id
  = match PickingTask.advance_subtask task with
    | (None, task) =>
        let task :=
          PickingTask.with_status task COMPLETED (PickingTask.assigned_robot task) in
        (TaskComplete task_id (PickingTask.items_picked task),
         _remove_shelf_demand
           (with_tasks self (<[task_id := task]> (tasks self))) task_id)
    | (Some next_st, task) =>
        (NextSubtask next_st, with_tasks self (<[task_id := task]> (tasks self)))
    end.
Proof.
  intros Htask Hcur Hty. unfold handle_subtask_complete. rewrite Htask, Hcur.
  by destruct (SubTask.subtask_type st).
Qed.
End completion.

(** X25. [handle_subtask_complete] never leaves a wait-for-picking sub-task:
    there it answers "wait_picking" with the items and the shelf of the
    sub-task and changes nothing. At any other current sub-task it marks
    that sub-task completed and moves the cursor by exactly one; when a
    sub-task follows, it is put in progress and returned, and when none
    follows, the task is complete and marked completed, and the answer
    carries its id and its picked items. *)
Theorem handle_subtask_complete_steps_the_cursor (self : TaskManager.t)
    (task_id : string) (task : PickingTask.t) (st : SubTask.t) :
  TaskManager.tasks self !! task_id = Some task →
  PickingTask.get_current_subtask task = Some st →
  let r := TaskManager.handle_subtask_complete self task_id in
  (SubTask.subtask_type st = WAIT_PICKING →
     r = (TaskManager.WaitPicking (SubTask.items_to_pick st) (SubTask.shelf_id st), self))
  ∧ (SubTask.subtask_type st ≠ WAIT_PICKING →
     ∃ task',
       TaskManager.tasks r.2 !! task_id = Some task'
       ∧ PickingTask.current_subtask_idx task' = S (PickingTask.current_subtask_idx task)
       ∧ length (PickingTask.subtasks task') = length (PickingTask.subtasks task)
       ∧ PickingTask.subtasks task' !! PickingTask.current_subtask_idx task
         = Some (SubTask.set_status st COMPLETED)
       ∧ PickingTask.items_picked task' = PickingTask.items_picked task
       ∧ match PickingTask.subtasks task !! S (PickingTask.current_subtask_idx task) with
         | Some nxt =>
             r.1 = TaskManager.NextSubtask (SubTask.set_status nxt IN_PROGRESS)
             ∧ PickingTask.get_current_subtask task'
               = Some (SubTask.set_status nxt IN_PROGRESS)
             ∧ PickingTask.status task' = PickingTask.status task
             ∧ PickingTask.is_complete task' = false
         | None =>
             r.1 = TaskManager.TaskComplete task_id (PickingTask.items_picked task)
             ∧ PickingTask.get_current_subtask task' = None
             ∧ PickingTask.status task' = COMPLETED
             ∧ PickingTask.is_complete task' = true
         end).
Proof.
  intros Htask Hcur r. subst r. split.
  - intros Hty. unfold TaskManager.handle_subtask_complete.
    by rewrite Htask, Hcur, Hty.
  - intros Hty. rewrite (handle_subtask_complete_moves _ _ _ _ Htask Hcur Hty).
    pose proof (advance_subtask_same task) as (_ & _ & _ & _ & Hst & Hpk & _ & Hlen).
    pose proof (advance_subtask_idx task) as Hidx.
    pose proof (advance_subtask_current task) as Hcur'.
    pose proof (advance_subtask_next task) as Hnext.
    pose proof (advance_subtask_completes task st Hcur) as Hdone.
    destruct (PickingTask.advance_subtask task) as [next_st task2].
    simpl in Hst, Hpk, Hlen, Hidx, Hcur', Hnext, Hdone.
    destruct (PickingTask.subtasks task !! S _) as [nxt|] eqn:Hnxt;
      simpl in Hnext; rewrite Hnext in Hcur' |- *; clear Hnext; simpl.
    + exists task2. rewrite lookup_insert_eq. split_and!; try done.
      unfold PickingTask.is_complete. apply bool_decide_eq_false_2.
      apply lookup_lt_Some in Hnxt. lia.
    + eexists. unfold TaskManager._remove_shelf_demand. simpl.
      rewrite lookup_insert_eq. split_and!; try done.
      * by rewrite Hpk.
      * unfold PickingTask.is_complete. simpl. apply bool_decide_eq_true_2.
        apply lookup_ge_None in Hnxt. lia.
Qed.

Lemma handle_subtask_complete_steps_the_cursor_witness :
  ∃ task st,
    TaskManager.tasks Warehouse.after_start !! "T1" = Some task
    ∧ PickingTask.get_current_subtask task = Some st
    ∧ let r := TaskManager.handle_subtask_complete Warehouse.after_start "T1" in
      (SubTask.subtask_type st = WAIT_PICKING →
         r = (TaskManager.WaitPicking (SubTask.items_to_pick st) (SubTask.shelf_id st),
              Warehouse.after_start))
      ∧ (SubTask.subtask_type st ≠ WAIT_PICKING →
         ∃ task',
           TaskManager.tasks r.2 !! "T1" = Some task'
           ∧ PickingTask.current_subtask_idx task'
             = S (PickingTask.current_subtask_idx task)
           ∧ length (PickingTask.subtasks task') = length (PickingTask.subtasks task)
           ∧ PickingTask.subtasks task' !! PickingTask.current_subtask_idx task
             = Some (SubTask.set_status st COMPLETED)
           ∧ PickingTask.items_picked task' = PickingTask.items_picked task
           ∧ match PickingTask.subtasks task
                     !! S (PickingTask.current_subtask_idx task) with
             | Some nxt =>
                 r.1 = TaskManager.NextSubtask (SubTask.set_status nxt IN_PROGRESS)
                 ∧ PickingTask.get_current_subtask task'
                   = Some (SubTask.set_status nxt IN_PROGRESS)
                 ∧ PickingTask.status task' = PickingTask.status task
                 ∧ PickingTask.is_complete task' = false
             | None =>
                 r.1 = TaskManager.TaskComplete "T1" (PickingTask.items_picked task)
                 ∧ PickingTask.get_current_subtask task' = None
                 ∧ PickingTask.status task' = COMPLETED
                 ∧ PickingTask.is_complete task' = true
             end).
Proof.
  assert (Htask : ∃ task st,
            TaskManager.tasks Warehouse.after_start !! "T1" = Some task
            ∧ PickingTask.get_current_subtask task = Some st).
  { eexists _, _. split; vm_compute; reflexivity. }
  destruct Htask as (task & st & Htask & Hcur). exists task, st.
  split; [done|]. split; [done|].
  exact (handle_subtask_complete_steps_the_cursor
           Warehouse.after_start "T1" task st Htask Hcur).
Defined.

(** X26. Completion clears the demand of the task and nothing else: when
    [handle_subtask_complete] answers "task_complete", every shelf keeps
    the demand entries of the other tasks, in their order, and loses those
    of the completed task, and no shelf is left with an empty entry list;
    with any other answer the demand table is untouched. *)
Theorem completion_clears_the_demand_of_the_task (self : TaskManager.t)
    (task_id : string) :
  let r := TaskManager.handle_subtask_complete self task_id in
  match r.1 with
  | TaskManager.TaskComplete _ _ =>
      ∀ shelf_id,
        default [] (TaskManager.shelf_demand r.2 !! shelf_id)
        = filter (λ d, TaskManager.d_task_id d ≠ task_id)
            (default [] (TaskManager.shelf_demand self !! shelf_id))
        ∧ TaskManager.shelf_demand r.2 !! shelf_id ≠ Some []
  | _ => TaskManager.shelf_demand r.2 = TaskManager.shelf_demand self
  end.
Proof.
  simpl. unfold TaskManager.handle_subtask_complete.
  destruct (TaskManager.tasks self !! task_id) as [task|]; [|done].
  destruct (PickingTask.get_current_subtask task) as [st|]; [|done].
  destruct (SubTask.subtask_type st); try done;
    destruct (PickingTask.advance_subtask task) as [[nxt|] task2]; try done;
    intros shelf_id;
    exact (remove_shelf_demand_lookup (TaskManager.with_tasks self _) task_id shelf_id).
Qed.

(** ** The demand table and batches *)

Section demand_registration.
Import TaskManager.
Variable task_id : string.
Variable workstation_id : Z.

Local Abbreviation entry its :=
  {| d_task_id := task_id; d_workstation_id := workstation_id; d_items := its |}.

Lemma register_fold_other shelf_items sd shelf_id :
  shelf_id ∉ shelf_items.*1 →
  fold_left (register_demand task_id workstation_id) shelf_items sd !! shelf_id
  = sd !! shelf_id.
Proof.
  revert sd. induction shelf_items as [|[k its] shelf_items IH]; intros sd Hnot; [done|].
  cbn [fold_left]. rewrite fmap_cons in Hnot. apply not_elem_of_cons in Hnot as [Hne Hnot].
  rewrite IH by done. unfold register_demand. by rewrite lookup_insert_ne.
Qed.

Lemma register_fold_in shelf_items sd shelf_id its :
  NoDup shelf_items.*1 → (shelf_id, its) ∈ shelf_items →
  fold_left (register_demand task_id workstation_id) shelf_items sd !! shelf_id
  = Some (default [] (sd !! shelf_id) ++ [entry its]).
Proof.
  revert sd. induction shelf_items as [|[k its0] shelf_items IH]; intros sd Hnd Hin.
  - by apply elem_of_nil in Hin.
  - rewrite fmap_cons in Hnd. apply NoDup_cons in Hnd as [Hk Hnd]. cbn [fold_left].
    apply elem_of_cons in Hin as [[= <- <-]|Hin].
    + rewrite register_fold_other by done. unfold register_demand.
      by rewrite lookup_insert_eq.
    + rewrite IH by done. unfold register_demand. rewrite lookup_insert_ne; [done|].
      intros <-. apply Hk. apply list_elem_of_fmap. by exists (k, its).
Qed.
End demand_registration.

(** C4 (as the code has it). On a map whose coordinates are small enough
    for the distance computation to return, task creation fails exactly when
    none of the requested items is on a shelf. A failed creation changes
    nothing, and the rest of the batch is processed as if the failed request
    were absent. A successful creation stores the task under its id, beside
    the tasks already there, and the task is built for the known items: it
    keeps the request as sent; its shelf sequence holds exactly the shelves
    of the indexed requested items, each once; its sub-tasks are the five of
    each shelf in turn, and only the wait-for-picking ones ask for items,
    each for the requested items indexed to its shelf, so an unknown item is
    asked for nowhere; and each shelf of the sequence gets one demand entry
    with those items, behind the entries already there. *)
Theorem create_task_fails_iff_no_item_known (self : TaskManager.t)
    (task_id : string) (workstation_id : Z) (items : list string) :
  coords_bounded (TaskManager.path_planner self) →
  let r := TaskManager.create_task self task_id workstation_id items in
  let index := ShelfManager.item_to_shelf (TaskManager.shelf_manager self) in
  (r.1 = None ↔ ∀ item, item ∈ items → index !! item = None)
  ∧ (r.1 = None →
       r.2 = self
       ∧ ∀ rest,
           TaskManager.create_batch_tasks self
             ({| TaskManager.td_task_id := task_id;
                 TaskManager.td_workstation_id := workstation_id;
                 TaskManager.td_items := items |} :: rest)
           = TaskManager.create_batch_tasks self rest)
  ∧ (∀ task, r.1 = Some task →
       TaskManager.tasks r.2 !! task_id = Some task
       ∧ (∀ other, other ≠ task_id →
            TaskManager.tasks r.2 !! other = TaskManager.tasks self !! other)
       ∧ PickingTask.task_id task = task_id
       ∧ PickingTask.workstation_id task = workstation_id
       ∧ PickingTask.items task = items
       ∧ PickingTask.status task = PENDING
       ∧ PickingTask.items_picked task = []
       ∧ PickingTask.current_subtask_idx task = 0%nat
       ∧ NoDup (PickingTask.shelf_sequence task)
       ∧ (∀ shelf_id,
            shelf_id ∈ PickingTask.shelf_sequence task
            ↔ ∃ item, item ∈ items ∧ index !! item = Some shelf_id)
       ∧ SubTask.subtask_type <$> PickingTask.subtasks task
         = PickingTask.shelf_sequence task ≫= (λ _, chain_kinds)
       ∧ SubTask.shelf_id <$> PickingTask.subtasks task
         = PickingTask.shelf_sequence task ≫= (λ shelf_id, replicate 5 shelf_id)
       ∧ Forall (asks_for (TaskManager.shelf_manager self) items)
           (PickingTask.subtasks task)
       ∧ (∀ shelf_id,
            (shelf_id ∈ PickingTask.shelf_sequence task →
             TaskManager.shelf_demand r.2 !! shelf_id
             = Some (default [] (TaskManager.shelf_demand self !! shelf_id)
                     ++ [{| TaskManager.d_task_id := task_id;
                            TaskManager.d_workstation_id := workstation_id;
                            TaskManager.d_items :=
                              filter (λ item, index !! item = Some shelf_id) items |}]))
            ∧ (shelf_id ∉ PickingTask.shelf_sequence task →
               TaskManager.shelf_demand r.2 !! shelf_id
               = TaskManager.shelf_demand self !! shelf_id))
       ∧ TaskManager.shelf_manager r.2 = TaskManager.shelf_manager self
       ∧ TaskManager.path_planner r.2 = TaskManager.path_planner self).
Proof.
  intros _. cbv zeta. split_and!.
  - rewrite <- find_shelves_for_items_nil. unfold TaskManager.create_task.
    by destruct (ShelfManager.find_shelves_for_items _ items).
  - unfold TaskManager.create_batch_tasks. cbn [TaskManager.create_batch_from].
    cbn [TaskManager.td_task_id TaskManager.td_workstation_id TaskManager.td_items].
    unfold TaskManager.create_task.
    by destruct (ShelfManager.find_shelves_for_items _ items).
  - intros task Htask.
    assert (H : TaskManager.create_task self task_id workstation_id items
                = (Some task, (TaskManager.create_task self task_id workstation_id items).2)).
    { destruct (TaskManager.create_task self task_id workstation_id items) as [o self'].
      simpl in Htask. by subst. }
    pose proof (shelf_sequence_perm _ _ _ _ _ _ H) as Hperm.
    destruct (create_task_Some _ _ _ _ _ _ H)
      as (_ & Hsts & Hid & Hws & Hit & Hidx & Hst & Hpk & Htasks & Hsd & Hsm & Hpp).
    destruct (find_shelves_for_items_grouped (TaskManager.shelf_manager self) items)
      as (Hnd & Hlook & Hne).
    rewrite Htasks, Hsd. split_and!; try done.
    + by rewrite lookup_insert_eq.
    + intros other Hother. by rewrite lookup_insert_ne.
    + by rewrite Hperm.
    + intros shelf_id. rewrite Hperm. apply needed_shelves.
    + rewrite Hsts. by rewrite (chain_fold_proj _ _ _ _ (λ _, chain_kinds)).
    + rewrite Hsts. by rewrite (chain_fold_proj _ _ _ _ (λ sid, replicate 5 sid)).
    + rewrite Hsts. apply chain_fold_Forall; [|done].
      intros n shelf_id. unfold TaskManager.shelf_subtasks, asks_for.
      repeat constructor. simpl. apply Hlook.
    + intros shelf_id. rewrite Hperm. split.
      * intros Hin. apply list_elem_of_fmap in Hin as ([k its] & -> & Hin). simpl.
        rewrite (register_fold_in _ _ _ _ _ its Hnd Hin).
        by rewrite <- Hlook, (lookup_items_elem _ _ _ Hnd Hin).
      * intros Hnot. by apply register_fold_other.
Qed.

Lemma create_task_fails_iff_no_item_known_witness :
  ∃ r index,
  r = TaskManager.create_task Warehouse.task_manager "T9" 50 ["A"; "ZZZ"]
  ∧ index
    = ShelfManager.item_to_shelf (TaskManager.shelf_manager Warehouse.task_manager)
  ∧ (r.1 = None ↔ ∀ item, item ∈ ["A"; "ZZZ"] → index !! item = None)
  ∧ (r.1 = None →
       r.2 = Warehouse.task_manager
       ∧ ∀ rest,
           TaskManager.create_batch_tasks Warehouse.task_manager
             ({| TaskManager.td_task_id := "T9";
                 TaskManager.td_workstation_id := 50;
                 TaskManager.td_items := ["A"; "ZZZ"] |} :: rest)
           = TaskManager.create_batch_tasks Warehouse.task_manager rest)
  ∧ (∀ task, r.1 = Some task →
       TaskManager.tasks r.2 !! "T9" = Some task
       ∧ (∀ other, other ≠ "T9" →
            TaskManager.tasks r.2 !! other
            = TaskManager.tasks Warehouse.task_manager !! other)
       ∧ PickingTask.task_id task = "T9"
       ∧ PickingTask.workstation_id task = 50
       ∧ PickingTask.items task = ["A"; "ZZZ"]
       ∧ PickingTask.status task = PENDING
       ∧ PickingTask.items_picked task = []
       ∧ PickingTask.current_subtask_idx task = 0%nat
       ∧ NoDup (PickingTask.shelf_sequence task)
       ∧ (∀ shelf_id,
            shelf_id ∈ PickingTask.shelf_sequence task
            ↔ ∃ item, item ∈ ["A"; "ZZZ"] ∧ index !! item = Some shelf_id)
       ∧ SubTask.subtask_type <$> PickingTask.subtasks task
         = PickingTask.shelf_sequence task ≫= (λ _, chain_kinds)
       ∧ SubTask.shelf_id <$> PickingTask.subtasks task
         = PickingTask.shelf_sequence task ≫= (λ shelf_id, replicate 5 shelf_id)
       ∧ Forall (asks_for (TaskManager.shelf_manager Warehouse.task_manager)
                   ["A"; "ZZZ"])
           (PickingTask.subtasks task)
       ∧ (∀ shelf_id,
            (shelf_id ∈ PickingTask.shelf_sequence task →
             TaskManager.shelf_demand r.2 !! shelf_id
             = Some (default []
                       (TaskManager.shelf_demand Warehouse.task_manager !! shelf_id)
                     ++ [{| TaskManager.d_task_id := "T9";
                            TaskManager.d_workstation_id := 50;
                            TaskManager.d_items :=
                              filter (λ item, index !! item = Some shelf_id)
                                ["A"; "ZZZ"] |}]))
            ∧ (shelf_id ∉ PickingTask.shelf_sequence task →
               TaskManager.shelf_demand r.2 !! shelf_id
               = TaskManager.shelf_demand Warehouse.task_manager !! shelf_id))
       ∧ TaskManager.shelf_manager r.2
         = TaskManager.shelf_manager Warehouse.task_manager
       ∧ TaskManager.path_planner r.2
         = TaskManager.path_planner Warehouse.task_manager).
Proof.
  eexists _, _. split; [reflexivity|]. split; [reflexivity|].
  apply (create_task_fails_iff_no_item_known Warehouse.task_manager "T9" 50
           ["A"; "ZZZ"]).
  apply map_Forall_to_list. vm_compute. by repeat constructor.
Defined.

(** X27. Creating a task registers its demand: every shelf of the new task's
    shelf sequence gets one more demand entry, placed after the entries
    already there, naming the task, its station and the requested items
    that the index sends to that shelf; the entries of all other shelves
    are untouched. *)
Theorem create_task_registers_its_demand (self self' : TaskManager.t)
    (task_id : string) (workstation_id : Z) (items : list string)
    (task : PickingTask.t) :
  TaskManager.create_task self task_id workstation_id items = (Some task, self') →
  ∀ shelf_id,
    (shelf_id ∈ PickingTask.shelf_sequence task →
     TaskManager.shelf_demand self' !! shelf_id
     = Some (default [] (TaskManager.shelf_demand self !! shelf_id)
             ++ [{| TaskManager.d_task_id := task_id;
                    TaskManager.d_workstation_id := workstation_id;
                    TaskManager.d_items :=
                      filter (λ item,
                                ShelfManager.item_to_shelf (TaskManager.shelf_manager self)
                                  !! item = Some shelf_id) items |}]))
    ∧ (shelf_id ∉ PickingTask.shelf_sequence task →
       TaskManager.shelf_demand self' !! shelf_id
       = TaskManager.shelf_demand self !! shelf_id).
Proof.
  intros H shelf_id. pose proof (shelf_sequence_perm _ _ _ _ _ _ H) as Hperm.
  apply create_task_Some in H as (_ & _ & _ & _ & _ & _ & _ & _ & _ & -> & _).
  destruct (find_shelves_for_items_grouped (TaskManager.shelf_manager self) items)
    as (Hnd & Hlook & Hne).
  rewrite Hperm. split.
  - intros Hin. apply list_elem_of_fmap in Hin as ([k its] & -> & Hin). simpl.
    rewrite (register_fold_in _ _ _ _ _ its Hnd Hin).
    by rewrite <- Hlook, (lookup_items_elem _ _ _ Hnd Hin).
  - intros Hnot. by apply register_fold_other.
Qed.

Lemma create_task_registers_its_demand_witness :
  ∃ task self',
    TaskManager.create_task Warehouse.after_batch "T4" 51 ["D"; "A"] = (Some task, self')
    ∧ ∀ shelf_id,
        (shelf_id ∈ PickingTask.shelf_sequence task →
         TaskManager.shelf_demand self' !! shelf_id
         = Some (default [] (TaskManager.shelf_demand Warehouse.after_batch !! shelf_id)
                 ++ [{| TaskManager.d_task_id := "T4";
                        TaskManager.d_workstation_id := 51;
                        TaskManager.d_items :=
                          filter (λ item,
                                    ShelfManager.item_to_shelf
                                      (TaskManager.shelf_manager Warehouse.after_batch)
                                      !! item = Some shelf_id) ["D"; "A"] |}]))
        ∧ (shelf_id ∉ PickingTask.shelf_sequence task →
           TaskManager.shelf_demand self' !! shelf_id
           = TaskManager.shelf_demand Warehouse.after_batch !! shelf_id).
Proof.
  assert (H : ∃ task self',
            TaskManager.create_task Warehouse.after_batch "T4" 51 ["D"; "A"]
            = (Some task, self')).
  { eexists _, _. vm_compute. reflexivity. }
  destruct H as (task & self' & H). exists task, self'. split; [done|].
  exact (create_task_registers_its_demand Warehouse.after_batch self' "T4" 51 ["D"; "A"]
           task H).
Defined.

Section batches.
Import TaskManager.

Lemma known_items_iff (sm : ShelfManager.t) items :
  Exists (λ item, is_Some (ShelfManager.item_to_shelf sm !! item)) items
  ↔ ShelfManager.find_shelves_for_items sm items ≠ [].
Proof.
  rewrite find_shelves_for_items_nil, Exists_exists. split.
  - intros (item & Hin & [shelf_id Hsome]) Hnone. specialize (Hnone item Hin). congruence.
  - intros Hnot.
    destruct (decide (Exists (λ item, is_Some (ShelfManager.item_to_shelf sm !! item))
                        items)) as [Hex|Hno]; [by apply Exists_exists in Hex|].
    destruct Hnot. intros item Hin. apply eq_None_not_Some. intros Hsome.
    apply Hno, Exists_exists. by exists item.
Qed.

Lemma create_batch_from_spec (sm : ShelfManager.t) task_list :
  ∀ self created, shelf_manager self = sm →
  ∃ news,
    (create_batch_from self task_list created).1 = created ++ news
    ∧ Forall2 (λ task td,
                 PickingTask.task_id task = td_task_id td
                 ∧ PickingTask.workstation_id task = td_workstation_id td
                 ∧ PickingTask.items task = td_items td)
        news
        (filter (λ td, Exists (λ item, is_Some (ShelfManager.item_to_shelf sm !! item))
                         (td_items td)) task_list)
    ∧ shelf_manager (create_batch_from self task_list created).2 = sm
    ∧ path_planner (create_batch_from self task_list created).2 = path_planner self
    ∧ dom (tasks (create_batch_from self task_list created).2)
      = dom (tasks self) ∪ list_to_set (PickingTask.task_id <$> news).
Proof.
  induction task_list as [|td task_list IH]; intros self created Hsm.
  - exists []. simpl. rewrite app_nil_r, union_empty_r_L. by split_and!.
  - cbn [create_batch_from]. rewrite filter_cons.
    destruct (create_task self (td_task_id td) (td_workstation_id td) (td_items td))
      as [[task|] self'] eqn:E.
    + pose proof E as Hsome.
      apply create_task_Some in Hsome
        as (_ & _ & Hid & Hws & Hit & _ & _ & _ & Htasks & _ & Hsm' & Hpp).
      destruct (IH self' (created ++ [task])) as (news & Hnews & Hall & ? & Hpp' & Hdom);
        [congruence|].
      exists (task :: news). rewrite decide_True.
      * split_and!; try done.
        -- by rewrite Hnews, <- app_assoc.
        -- by constructor.
        -- congruence.
        -- rewrite Hdom, Htasks, dom_insert_L, fmap_cons, list_to_set_cons, Hid.
           rewrite (union_comm_L {[td_task_id td]} (dom (tasks self))).
           by rewrite union_assoc_L.
      * apply known_items_iff. rewrite <- Hsm. unfold create_task in E.
        by destruct (ShelfManager.find_shelves_for_items _ _).
    + assert (Hnil : ShelfManager.find_shelves_for_items (shelf_manager self) (td_items td)
                     = []).
      { unfold create_task in E. by destruct (ShelfManager.find_shelves_for_items _ _). }
      assert (self' = self) as ->.
      { unfold create_task in E. rewrite Hnil in E. by injection E. }
      rewrite decide_False; [by apply IH|].
      intros Hex. apply known_items_iff in Hex. by rewrite <- Hsm in Hex.
Qed.
End batches.

(** X28. On a map whose coordinates are small enough for the distance
    computation to return, a batch answers with one task per request that
    names at least one indexed item, in request order, each carrying the id,
    the station and the full item list of its request; the other requests
    are skipped. The ids stored afterwards are the earlier ones and those of
    the new tasks; shelf registry and planner are untouched. *)
Theorem create_batch_tasks_keeps_the_known_requests (self : TaskManager.t)
    (task_list : list TaskManager.task_data) :
  coords_bounded (TaskManager.path_planner self) →
  let r := TaskManager.create_batch_tasks self task_list in
  Forall2 (λ task td,
             PickingTask.task_id task = TaskManager.td_task_id td
             ∧ PickingTask.workstation_id task = TaskManager.td_workstation_id td
             ∧ PickingTask.items task = TaskManager.td_items td)
    r.1
    (filter (λ td,
               Exists (λ item,
                         is_Some (ShelfManager.item_to_shelf
                                    (TaskManager.shelf_manager self) !! item))
                 (TaskManager.td_items td)) task_list)
  ∧ dom (TaskManager.tasks r.2)
    = dom (TaskManager.tasks self) ∪ list_to_set (PickingTask.task_id <$> r.1)
  ∧ TaskManager.shelf_manager r.2 = TaskManager.shelf_manager self
  ∧ TaskManager.path_planner r.2 = TaskManager.path_planner self.
Proof.
  intros _. simpl. unfold TaskManager.create_batch_tasks.
  destruct (create_batch_from_spec (TaskManager.shelf_manager self) task_list self []
              eq_refl) as (news & Hnews & Hall & Hsm & Hpp & Hdom).
  simpl in Hnews. rewrite Hnews. by split_and!.
Qed.

Lemma create_batch_tasks_keeps_the_known_requests_witness :
  ∃ task_list r,
  task_list
  = [ Warehouse.request "T1" 50 ["A"]; Warehouse.request "T0" 50 ["ZZZ"];
      Warehouse.request "T2" 51 ["C"; "ZZZ"] ]
  ∧ r = TaskManager.create_batch_tasks Warehouse.task_manager task_list
  ∧ Forall2 (λ task td,
             PickingTask.task_id task = TaskManager.td_task_id td
             ∧ PickingTask.workstation_id task = TaskManager.td_workstation_id td
             ∧ PickingTask.items task = TaskManager.td_items td)
    r.1
    (filter (λ td,
               Exists (λ item,
                         is_Some (ShelfManager.item_to_shelf
                                    (TaskManager.shelf_manager Warehouse.task_manager)
                                    !! item))
                 (TaskManager.td_items td)) task_list)
  ∧ dom (TaskManager.tasks r.2)
    = dom (TaskManager.tasks Warehouse.task_manager)
      ∪ list_to_set (PickingTask.task_id <$> r.1)
  ∧ TaskManager.shelf_manager r.2 = TaskManager.shelf_manager Warehouse.task_manager
  ∧ TaskManager.path_planner r.2 = TaskManager.path_planner Warehouse.task_manager.
Proof.
  eexists _, _. split; [reflexivity|]. split; [reflexivity|].
  apply (create_batch_tasks_keeps_the_known_requests Warehouse.task_manager).
  apply map_Forall_to_list. vm_compute. by repeat constructor.
Defined.

(** * Further properties of the robot registry *)

Section robot_dict.
Import RobotManager.

Lemma dict_get_set_eq d rid robot : dict_get (dict_set d rid robot) rid = Some robot.
Proof.
  induction d as [|[k r] d IH]; simpl.
  - by rewrite Z.eqb_refl.
  - destruct (Z.eqb_spec k rid) as [->|Hne]; simpl.
    + by rewrite Z.eqb_refl.
    + by destruct (Z.eqb_spec k rid).
Qed.

Lemma dict_get_set_ne d rid other robot :
  other ≠ rid → dict_get (dict_set d rid robot) other = dict_get d other.
Proof.
  intros Hne. induction d as [|[k r] d IH]; simpl.
  - by destruct (Z.eqb_spec rid other) as [->|_].
  - destruct (Z.eqb_spec k rid) as [->|Hk]; simpl.
    + by destruct (Z.eqb_spec rid other) as [->|_].
    + by rewrite IH.
Qed.

Lemma dict_get_elem d rid robot :
  dict_get d rid = Some robot → robot ∈ d.*2.
Proof.
  induction d as [|[k r] d IH]; simpl; [done|].
  destruct (k =? rid).
  - intros [= ->]. apply list_elem_of_here.
  - intros H. apply list_elem_of_further. by apply IH.
Qed.

Lemma dict_set_Forall (P : Robot.t → Prop) d rid robot :
  Forall P d.*2 → P robot → Forall P (dict_set d rid robot).*2.
Proof.
  intros Hd Hr. induction d as [|[k r] d IH]; simpl.
  - by constructor.
  - apply Forall_cons in Hd as [Hk Hd].
    destruct (k =? rid); simpl; constructor; try done. by apply IH.
Qed.

Lemma load_robot_config_fresh data :
  Forall (λ robot, at_work robot ∧ held robot = []) (robots (_load_robot_config data)).*2.
Proof.
  destruct data as [entries|]; simpl.
  - assert (H : ∀ d, Forall (λ robot, at_work robot ∧ held robot = []) d.*2 →
              Forall (λ robot, at_work robot ∧ held robot = [])
                (fold_left
                   (λ d '(rid, info),
                      dict_set d rid
                        (Robot.make rid
                           (default ("AGV-" +:+ pretty rid) (info_name info))
                           (default rid (info_home_node info))
                           (default rid (info_home_node info))))
                   entries d).*2).
    { induction entries as [|[rid info] entries IH]; intros d Hd; [done|].
      cbn [fold_left]. apply IH. by apply dict_set_Forall. }
    by apply H.
  - by repeat constructor.
Qed.
End robot_dict.

(** X29. Robots serve their jobs in the order in which they were assigned.
    A robot of a freshly loaded registry is idle and holds no job. For a
    robot that is idle with nothing to do or busy on a current job:
    [assign_task] succeeds, leaves it busy and puts the job behind the jobs
    it already holds; [complete_task] returns the first job it holds,
    leaves it with the remaining ones, and turns it idle exactly when none
    remains. Both keep the robot in such a state and touch no other
    robot. *)
Theorem robot_jobs_are_served_in_order :
  (∀ data rid robot,
     RobotManager.get_robot (RobotManager._load_robot_config data) rid = Some robot →
     at_work robot ∧ held robot = [] ∧ Robot.status robot = IDLE)
  ∧ (∀ self rid robot task,
       RobotManager.get_robot self rid = Some robot → at_work robot →
       (RobotManager.assign_task self rid task).1 = true
       ∧ (∃ robot',
            RobotManager.get_robot (RobotManager.assign_task self rid task).2 rid
            = Some robot'
            ∧ at_work robot' ∧ Robot.status robot' = BUSY
            ∧ held robot' = held robot ++ [task]
            ∧ Robot.current_node robot' = Robot.current_node robot)
       ∧ (RobotManager.complete_task self rid).1 = head (held robot)
       ∧ (∃ robot',
            RobotManager.get_robot (RobotManager.complete_task self rid).2 rid
            = Some robot'
            ∧ at_work robot'
            ∧ held robot' = tail (held robot)
            ∧ (Robot.status robot' = IDLE ↔ held robot' = [])
            ∧ Robot.current_node robot' = Robot.current_node robot)
       ∧ ∀ other, other ≠ rid →
           RobotManager.get_robot (RobotManager.assign_task self rid task).2 other
           = RobotManager.get_robot self other
           ∧ RobotManager.get_robot (RobotManager.complete_task self rid).2 other
             = RobotManager.get_robot self other).
Proof.
  split.
  - intros data rid robot Hget. apply dict_get_elem in Hget.
    pose proof (load_robot_config_fresh data) as Hall.
    rewrite Forall_forall in Hall. destruct (Hall robot Hget) as [Hwork Hheld].
    split_and!; try done. unfold at_work, held in *.
    destruct (Robot.status robot); [done| |done].
    destruct Hwork as [j Hj]. by rewrite Hj in Hheld.
  - intros self rid robot task Hget Hwork.
    unfold RobotManager.get_robot, RobotManager.assign_task,
      RobotManager.complete_task in *.
    rewrite Hget. unfold at_work, held in *.
    destruct (Robot.status robot) eqn:Hst; [| |done].
    + destruct Hwork as [Hcur Hq]. rewrite Hcur, Hq. simpl. split_and!; try done.
      * rewrite dict_get_set_eq. eexists. split; [done|]. simpl. by split_and!.
      * rewrite dict_get_set_eq. eexists. split; [done|]. simpl. by split_and!.
      * intros other Hne. by rewrite !dict_get_set_ne.
    + destruct Hwork as [j Hj]. rewrite Hj.
      destruct (Robot.task_queue robot) as [|next queue]; simpl; split_and!; try done;
        try (rewrite dict_get_set_eq; eexists; (split; [done|]); simpl;
             by split_and!);
        intros other Hne; by rewrite !dict_get_set_ne.
Qed.

(** * The single-job request *)

Section task_request.
Import RequestHandler.

Lemma compressed_planned_path_is_route (pp : PathPlanner.t) start goal rn re path :
  planned_path pp start goal rn re path →
  head (PathPlanner.compress_to_node_path path) = Some start
  ∧ last (PathPlanner.compress_to_node_path path) = Some goal
  ∧ consecutive (out_neighbor pp) (PathPlanner.compress_to_node_path path).
Proof.
  intros H.
  pose proof (planned_path_is_walk _ _ _ _ _ _ H) as [Hwalk [rest ->]].
  destruct H as (_ & _ & [tm Hlast]).
  destruct (compress_to_node_path_keeps_route_aux ((start, 0) :: rest))
    as (Hh & Hl & _).
  split; [done|]. split.
  - rewrite Hl, fmap_last, Hlast. done.
  - unfold PathPlanner.compress_to_node_path. cbn [PathPlanner.compress_from].
    apply compress_from_route.
    + destruct rest; [done | by destruct Hwalk].
    + intros a Ha. destruct rest as [|b rest]; [done|]. injection Ha as ->.
      by destruct Hwalk as [[_ ?] _].
Qed.

Lemma update_robot_position_keeps_jobs rm rid node k :
  held <$> RobotManager.get_robot (RobotManager.update_robot_position rm rid node).2 k
  = held <$> RobotManager.get_robot rm k
  ∧ Robot.status
      <$> RobotManager.get_robot (RobotManager.update_robot_position rm rid node).2 k
    = Robot.status <$> RobotManager.get_robot rm k.
Proof.
  unfold RobotManager.update_robot_position, RobotManager.get_robot.
  destruct (RobotManager.dict_get (RobotManager.robots rm) rid) as [robot|] eqn:E;
    [|done]. simpl.
  destruct (decide (k = rid)) as [->|Hne].
  - by rewrite dict_get_set_eq, E.
  - by rewrite dict_get_set_ne.
Qed.

Lemma update_then_assign rm rid node task robot :
  RobotManager.get_robot rm rid = Some robot →
  ∃ robot',
    RobotManager.get_robot
      (RobotManager.assign_task (RobotManager.update_robot_position rm rid node).2
         rid task).2 rid = Some robot'
    ∧ Robot.current_node robot' = node
    ∧ Robot.status robot' ≠ IDLE
    ∧ task ∈ held robot'.
Proof.
  unfold RobotManager.get_robot, RobotManager.update_robot_position,
    RobotManager.assign_task. intros Hget. rewrite Hget. simpl.
  rewrite dict_get_set_eq. simpl.
  destruct (Robot.status robot) eqn:Hst; simpl; rewrite dict_get_set_eq;
    eexists; (split; [done|]); unfold held; simpl; split_and!; try done.
  - apply list_elem_of_here.
  - apply elem_of_app. right. apply elem_of_app. right. apply list_elem_of_here.
  - apply elem_of_app. right. apply elem_of_app. right. apply list_elem_of_here.
Qed.
End task_request.

(** X30. What the single-job request answers. A task response repeats the
    worker, start and goal of the request and carries a route of the map:
    it starts on the worker marker, ends on the shelf marker and moves
    along edges; the reported length is its length and the publish flag is
    what the publisher answered; the robot filed under the worker id is
    then on the start node, not idle, and holds a job with that route. An
    error response hands no job to any robot: every robot holds the jobs
    and has the status it had. The planner is never changed. *)
Theorem task_request_answers_with_a_route (self self' : RequestHandler.t)
    (data : RequestHandler.task_request) (stamp : string) (mqtt_success : bool)
    (fuel : nat) (r : RequestHandler.response) :
  RequestHandler._handle_task_request self data stamp mqtt_success fuel
  = Returned (r, self') →
  RequestHandler.path_planner self' = RequestHandler.path_planner self
  ∧ match r with
    | RequestHandler.TaskResponse wid rid start_node goal_node path len pub =>
        RequestHandler.worker_id data = Some wid
        ∧ RequestHandler.worker_marker data = Some start_node
        ∧ RequestHandler.shelf_marker data = Some goal_node
        ∧ head path = Some start_node
        ∧ last path = Some goal_node
        ∧ consecutive (out_neighbor (RequestHandler.path_planner self)) path
        ∧ len = Z.of_nat (length path)
        ∧ pub = mqtt_success
        ∧ ∃ robot,
            RobotManager.get_robot (RequestHandler.robot_manager self) wid = Some robot
            ∧ rid = Robot.rid robot
            ∧ (rid = wid →
               ∃ robot',
                 RobotManager.get_robot (RequestHandler.robot_manager self') wid
                 = Some robot'
                 ∧ Robot.current_node robot' = start_node
                 ∧ Robot.status robot' ≠ IDLE
                 ∧ {| Robot.job_task_id := "legacy_" +:+ stamp;
                      Robot.worker_id := wid;
                      Robot.start_node := start_node;
                      Robot.goal_node := goal_node;
                      Robot.node_path := path |} ∈ held robot')
    | RequestHandler.ErrorResponse _ =>
        ∀ k,
          held <$> RobotManager.get_robot (RequestHandler.robot_manager self') k
          = held <$> RobotManager.get_robot (RequestHandler.robot_manager self) k
          ∧ Robot.status <$> RobotManager.get_robot (RequestHandler.robot_manager self') k
            = Robot.status <$> RobotManager.get_robot (RequestHandler.robot_manager self) k
    end.
Proof.
  unfold RequestHandler._handle_task_request.
  destruct (RequestHandler.worker_id data) as [wid|];
    [|by intros [= <- <-]].
  destruct (RequestHandler.worker_marker data) as [start_node|];
    [|by intros [= <- <-]].
  destruct (RequestHandler.shelf_marker data) as [goal_node|];
    [|by intros [= <- <-]].
  destruct (PathPlanner.is_valid_node _ start_node); simpl; [|by intros [= <- <-]].
  destruct (PathPlanner.is_valid_node _ goal_node); simpl; [|by intros [= <- <-]].
  unfold RobotManager.get_robot_by_worker.
  destruct (RobotManager.dict_get _ wid) as [robot|] eqn:Hrobot;
    [|by intros [= <- <-]].
  unfold PathPlanner.plan_single_robot.
  destruct (PathPlanner.astar_with_time _ start_node goal_node ∅ ∅ _ fuel)
    as [[timed_path|] | |] eqn:Hplan; simpl; try done.
  - intros [= <- <-]. simpl. split; [done|].
    apply astar_with_time_spec in Hplan.
    destruct (compressed_planned_path_is_route _ _ _ _ _ _ Hplan) as (Hh & Hl & Hroute).
    split_and!; try done. exists robot. split_and!; try done.
    intros Hrid. rewrite Hrid. by apply (update_then_assign _ _ _ _ robot).
  - intros [= <- <-]. simpl. split; [done|]. intros k.
    apply update_robot_position_keeps_jobs.
Qed.

Lemma task_request_answers_with_a_route_witness :
  ∃ self' path,
    RequestHandler._handle_task_request
      {| RequestHandler.max_time := 50;
         RequestHandler.path_planner := Warehouse.planner;
         RequestHandler.robot_manager := Warehouse.robot_manager |}
      {| RequestHandler.worker_id := Some 1;
         RequestHandler.worker_marker := Some 4;
         RequestHandler.shelf_marker := Some 3 |} "1700000000" true 50
    = Returned (RequestHandler.TaskResponse 1 1 4 3 path 3 true, self')
    ∧ RequestHandler.path_planner self' = Warehouse.planner
    ∧ head path = Some 4
    ∧ last path = Some 3
    ∧ consecutive (out_neighbor Warehouse.planner) path
    ∧ 3 = Z.of_nat (length path)
    ∧ ∃ robot',
        RobotManager.get_robot (RequestHandler.robot_manager self') 1 = Some robot'
        ∧ Robot.current_node robot' = 4
        ∧ Robot.status robot' ≠ IDLE
        ∧ {| Robot.job_task_id := "legacy_" +:+ "1700000000";
             Robot.worker_id := 1;
             Robot.start_node := 4;
             Robot.goal_node := 3;
             Robot.node_path := path |} ∈ held robot'.
Proof.
  eexists _, _. split; [vm_compute; reflexivity|].
  destruct (task_request_answers_with_a_route
              {| RequestHandler.max_time := 50;
                 RequestHandler.path_planner := Warehouse.planner;
                 RequestHandler.robot_manager := Warehouse.robot_manager |}
              _
              {| RequestHandler.worker_id := Some 1;
                 RequestHandler.worker_marker := Some 4;
                 RequestHandler.shelf_marker := Some 3 |} "1700000000" true 50
              _ ltac:(vm_compute; reflexivity))
    as (Hpp & _ & _ & _ & Hh & Hl & Hroute & Hlen & _ & robot & _ & Hrid & Hjob).
  split_and!; try done. apply Hjob. done.
Defined.
